(** * A shallow embedding of memory_manager.c

    The memory manager keeps a doubly-linked list of block headers
    ([struct node_t]) inside a caller-supplied region and serves requests
    with a first-fit, next-fit, best-fit or worst-fit search.  This file
    embeds the C functions as state transformers over an explicit store
    and proves the properties of the block list that the specification
    states.  It then turns to what the specification leaves out: the
    assertions of each operation, what a caller can rely on between
    [allocate] and [deallocate], [print_all_nodes], and the tests of
    memory_manager_test.c.

    Conventions of the embedding (LP64):
    - [size_t] and [uintptr_t] values are integers in [0, 2^64); every
      [size_t] operation of the source is followed by [wrap].
    - a [struct node_t *] is [option Z]: [None] is [NULL], [Some a] the
      address [a].  Pointer arithmetic is done on the address.
    - [sizeof(struct node_t)] is 32: two pointers, one [unsigned] padded to
      eight bytes, one [size_t]; the flexible array [memory] starts at
      offset 32.
    - the store maps the address of a header to its four fields; payload
      bytes are kept in a separate byte map.  Reading a header at an
      address where the engine never wrote one is [BadAccess].  A header
      that a merge absorbs stays in the store, as its bytes stay in memory;
      the one theorem that reads one, of a release repeated at once, does
      so before anything else is written there.
    - [assert] aborts ([AssertFailed]); [exit(EXIT_FAILURE)] is
      [ExitFailure]; the loops take fuel and report [OutOfFuel].
    - the mutex is not part of the state: every public operation is one
      critical section, and the embedding is of the sequential code that
      runs inside it. *)

From stdpp Require Import base numbers option list gmap strings pretty.

Local Open Scope Z_scope.

(** ** Constants and machine arithmetic *)

Definition wrap (z : Z) : Z := z mod 2 ^ 64.

Definition sizeof_node_t : Z := 32.
Definition MINIMUM_FREE_BLOCK : Z := 32.
Definition MINIMUM_HEAP_SIZE : Z := 1024.

Definition FIRSTFIT : string := "FirstFit".
Definition NEXTFIT : string := "NextFit".
Definition BESTFIT : string := "BestFit".
Definition WORSTFIT : string := "WorstFit".

(** ** Data *)

Abbreviation ptr := (option Z).

Record node_t : Type := Node {
  next : ptr;
  prev : ptr;
  free : Z;
  size : Z
}.

(** The four functions the pointer [allocate] can hold. *)
Inductive allocator : Type :=
  | first_fit
  | next_fit
  | best_fit
  | worst_fit.

Record state : Type := State {
  linked_list : ptr;
  next_node : ptr;
  heap_size : Z;
  allocate : option allocator;
  heap : gmap Z node_t;
  mem : gmap Z Z;
  stderr : list string
}.

Definition uninitialised : state :=
  State None None 0 None ∅ ∅ [].

Inductive error : Type :=
  | AssertFailed
  | ExitFailure
  | BadAccess
  | OutOfFuel.

Inductive result (A : Type) : Type :=
  | Ok (a : A)
  | Err (e : error).
Arguments Ok {A} a.
Arguments Err {A} e.

(** ** The state and error monad of the C statements *)

Definition M (A : Type) : Type := state → result (A * state).

Definition ret {A} (a : A) : M A := λ s, Ok (a, s).

Definition bind {A B} (m : M A) (k : A → M B) : M B :=
  λ s, match m s with
       | Ok (a, s') => k a s'
       | Err e => Err e
       end.

Notation "x <- m ;; k" := (bind m (λ x, k))
  (at level 100, m at next level, right associativity).
Notation "m ;;; k" := (bind m (λ _, k))
  (at level 100, right associativity).

Definition fail {A} (e : error) : M A := λ _, Err e.

Definition assert (b : bool) : M unit :=
  if b then ret tt else fail AssertFailed.

Definition get {A} (f : state → A) : M A := λ s, Ok (f s, s).

Definition set_heap (h : gmap Z node_t) (s : state) : state :=
  State (linked_list s) (next_node s) (heap_size s) (allocate s) h (mem s)
        (stderr s).
Definition set_mem (m : gmap Z Z) (s : state) : state :=
  State (linked_list s) (next_node s) (heap_size s) (allocate s) (heap s) m
        (stderr s).
Definition set_next_node (p : ptr) (s : state) : state :=
  State (linked_list s) p (heap_size s) (allocate s) (heap s) (mem s)
        (stderr s).
Definition set_stderr (l : list string) (s : state) : state :=
  State (linked_list s) (next_node s) (heap_size s) (allocate s) (heap s)
        (mem s) l.

Definition modify (f : state → state) : M unit := λ s, Ok (tt, f s).

(** [p->f] as an rvalue. *)
Definition rd {A} (f : node_t → A) (p : ptr) : M A :=
  λ s, match p with
       | None => Err BadAccess
       | Some a =>
           match heap s !! a with
           | Some nd => Ok (f nd, s)
           | None => Err BadAccess
           end
       end.

(** [p->f = v], as the update [u] of the header. *)
Definition wr (u : node_t → node_t) (p : ptr) : M unit :=
  λ s, match p with
       | None => Err BadAccess
       | Some a =>
           match heap s !! a with
           | Some nd => Ok (tt, set_heap (<[a := u nd]> (heap s)) s)
           | None => Err BadAccess
           end
       end.

Definition with_next (v : ptr) (nd : node_t) : node_t :=
  Node v (prev nd) (free nd) (size nd).
Definition with_prev (v : ptr) (nd : node_t) : node_t :=
  Node (next nd) v (free nd) (size nd).
Definition with_free (v : Z) (nd : node_t) : node_t :=
  Node (next nd) (prev nd) v (size nd).
Definition with_size (v : Z) (nd : node_t) : node_t :=
  Node (next nd) (prev nd) (free nd) v.

(** A pointer, a flag or a size used as a C condition. *)
Definition nonnull (p : ptr) : bool := bool_decide (p ≠ None).
Definition truthy (z : Z) : bool := negb (z =? 0).

(** [&p->memory[i]]; [p->memory] is [memory_at p 0]. *)
Definition memory_at (p : ptr) (i : Z) : ptr :=
  (λ a, a + sizeof_node_t + i) <$> p.

(** [((struct node_t * )memory) - 1]. *)
Definition header_of (memory : ptr) : ptr :=
  (λ m, m - sizeof_node_t) <$> memory.

(** [(uintptr_t)p]. *)
Definition uintptr (p : ptr) : Z := default 0 p.

(** [memset(dst, v, n)] on the payload bytes. *)
Definition fill (dst v n : Z) (m : gmap Z Z) : gmap Z Z :=
  foldr (λ a m', <[a := v]> m') m (seqZ dst n).

Definition memset (dst : ptr) (v n : Z) : M unit :=
  match dst with
  | None => fail BadAccess
  | Some d => modify (λ s, set_mem (fill d v n (mem s)) s)
  end.

(** [a && b] and [a || b] on conditions that read the store. *)
Definition andM (a b : M bool) : M bool :=
  x <- a ;; if x then b else ret false.
Definition orM (a b : M bool) : M bool :=
  x <- a ;; if x then ret true else b.

(** ** Common functions *)

Definition create_node (memory : ptr) (sz : Z) : M ptr :=
  assert (nonnull memory) ;;;
  assert (sizeof_node_t <? sz) ;;;
  match memory with
  | None => fail BadAccess
  | Some a =>
      modify (λ s, set_heap
        (<[a := Node None None 1 (wrap (sz - sizeof_node_t))]> (heap s)) s) ;;;
      ret (Some a)
  end.

Definition allocate_node (p : ptr) (bytes : Z) : M ptr :=
  assert (nonnull p) ;;;
  assert (0 <? bytes) ;;;
  psize <- rd size p ;;
  let remaining := wrap (psize - bytes) in
  (if wrap (sizeof_node_t + MINIMUM_FREE_BLOCK) <=? remaining then
     node <- create_node (memory_at p bytes) remaining ;;
     pnext <- rd next p ;;
     wr (with_next pnext) node ;;;
     wr (with_prev p) node ;;;
     nnext <- rd next node ;;
     (if nonnull nnext then wr (with_prev node) nnext else ret tt) ;;;
     wr (with_next node) p ;;;
     wr (with_size bytes) p
   else ret tt) ;;;
  wr (with_free 0) p ;;;
  psize' <- rd size p ;;
  memset (memory_at p 0) 0 psize' ;;;
  ret p.

Definition merge_prev (p : ptr) : M ptr :=
  assert (nonnull p) ;;;
  pprev <- rd prev p ;;
  pnext <- rd next p ;;
  wr (with_next pnext) pprev ;;;
  pprev <- rd prev p ;;
  prevsize <- rd size pprev ;;
  psize <- rd size p ;;
  wr (with_size (wrap (prevsize + wrap (sizeof_node_t + psize)))) pprev ;;;
  pnext <- rd next p ;;
  (if nonnull pnext then
     pprev <- rd prev p ;;
     wr (with_prev pprev) pnext
   else ret tt) ;;;
  rd prev p.

Definition merge_next (p : ptr) : M ptr :=
  assert (nonnull p) ;;;
  psize <- rd size p ;;
  pnext <- rd next p ;;
  nextsize <- rd size pnext ;;
  wr (with_size (wrap (psize + wrap (sizeof_node_t + nextsize)))) p ;;;
  pnext <- rd next p ;;
  nnext <- rd next pnext ;;
  wr (with_next nnext) p ;;;
  pnext <- rd next p ;;
  (if nonnull pnext then wr (with_prev p) pnext else ret tt) ;;;
  ret p.

(** ** initialise *)

Definition set_linked_list (p : ptr) (s : state) : state :=
  State p (next_node s) (heap_size s) (allocate s) (heap s) (mem s)
        (stderr s).
Definition set_heap_size (n : Z) (s : state) : state :=
  State (linked_list s) (next_node s) n (allocate s) (heap s) (mem s)
        (stderr s).
Definition set_allocate (f : allocator) (s : state) : state :=
  State (linked_list s) (next_node s) (heap_size s) (Some f) (heap s) (mem s)
        (stderr s).

Definition newline : string := String (Ascii.ascii_of_nat 10) EmptyString.

Definition fprintf_stderr (msg : string) : M unit :=
  modify (λ s, set_stderr (stderr s ++ [msg]) s).

(** [strcmp(a, b) == 0]. *)
Definition streq (a b : string) : bool := bool_decide (a = b).

Definition initialise (memory : ptr) (sz : Z) (algorithm : option string)
  : M unit :=
  assert (nonnull memory) ;;;
  assert (MINIMUM_HEAP_SIZE <? sz) ;;;
  p <- create_node memory sz ;;
  modify (set_heap_size sz) ;;;
  modify (set_linked_list p) ;;;
  modify (set_next_node None) ;;;
  match algorithm with
  | None => modify (set_allocate first_fit)
  | Some a =>
      if streq a FIRSTFIT then modify (set_allocate first_fit)
      else if streq a NEXTFIT then modify (set_allocate next_fit)
      else if streq a BESTFIT then modify (set_allocate best_fit)
      else if streq a WORSTFIT then modify (set_allocate worst_fit)
      else
        fprintf_stderr ("Error : Unknown algorithm type" ++ newline) ;;;
        fail ExitFailure
  end.

(** ** deallocate *)

Definition deallocate (memory : ptr) : M unit :=
  ll <- get linked_list ;;
  assert (nonnull ll) ;;;
  if nonnull memory then
    hs <- get heap_size ;;
    assert ((uintptr ll <=? uintptr memory)
            && (uintptr memory <? wrap (uintptr ll + hs))) ;;;
    let p := header_of memory in
    pfree <- rd free p ;;
    if truthy pfree then
      fprintf_stderr ("Error : memory already free" ++ newline)
    else
      wr (with_free 1) p ;;;
      pprev <- rd prev p ;;
      c <- andM (ret (nonnull pprev)) (f <- rd free pprev ;; ret (truthy f)) ;;
      p <- (if c then
              nn <- get next_node ;;
              (if bool_decide (nn = p) then
                 pnext <- rd next p ;; modify (set_next_node pnext)
               else ret tt) ;;;
              merge_prev p
            else ret p) ;;
      pnext <- rd next p ;;
      c <- andM (ret (nonnull pnext)) (f <- rd free pnext ;; ret (truthy f)) ;;
      if c then
        nn <- get next_node ;;
        pnext <- rd next p ;;
        (if bool_decide (nn = pnext) then
           nnext <- rd next pnext ;; modify (set_next_node nnext)
         else ret tt) ;;;
        merge_next p ;;;
        ret tt
      else ret tt
  else ret tt.

(** ** Allocation algorithms *)

(** [p->free && p->size >= bytes]. *)
Definition fits (p : ptr) (bytes : Z) : M bool :=
  andM (f <- rd free p ;; ret (truthy f))
       (sz <- rd size p ;; ret (bytes <=? sz)).

Fixpoint first_fit_loop (fuel : nat) (p : ptr) (bytes : Z) : M ptr :=
  match fuel with
  | O => fail OutOfFuel
  | S fuel' =>
      if nonnull p then
        c <- fits p bytes ;;
        if c then
          allocate_node p bytes ;;;
          ret (memory_at p 0)
        else
          pnext <- rd next p ;;
          first_fit_loop fuel' pnext bytes
      else ret None
  end.

Definition allocate_first_fit (fuel : nat) (bytes : Z) : M ptr :=
  assert (0 <? bytes) ;;;
  p <- get linked_list ;;
  assert (nonnull p) ;;;
  first_fit_loop fuel p bytes.

Fixpoint next_fit_loop (fuel : nat) (p posn : ptr) (bytes : Z) : M ptr :=
  match fuel with
  | O => fail OutOfFuel
  | S fuel' =>
      c <- fits p bytes ;;
      if c then
        allocate_node p bytes ;;;
        pnext <- rd next p ;;
        modify (set_next_node pnext) ;;;
        ret (memory_at p 0)
      else
        pnext <- rd next p ;;
        ll <- get linked_list ;;
        let p' := if nonnull pnext then pnext else ll in
        if bool_decide (p' ≠ posn) then next_fit_loop fuel' p' posn bytes
        else ret None
  end.

Definition allocate_next_fit (fuel : nat) (bytes : Z) : M ptr :=
  assert (0 <? bytes) ;;;
  nn <- get next_node ;;
  ll <- get linked_list ;;
  let p := if nonnull nn then nn else ll in
  let posn := p in
  assert (nonnull posn) ;;;
  next_fit_loop fuel p posn bytes.

Fixpoint best_fit_loop (fuel : nat) (p : ptr) (bytes sz : Z) (smallest : ptr)
  : M ptr :=
  match fuel with
  | O => fail OutOfFuel
  | S fuel' =>
      if nonnull p then
        c <- andM (fits p bytes) (psz <- rd size p ;; ret (psz <? sz)) ;;
        if c then
          psz <- rd size p ;;
          pnext <- rd next p ;;
          best_fit_loop fuel' pnext bytes psz p
        else
          pnext <- rd next p ;;
          best_fit_loop fuel' pnext bytes sz smallest
      else ret smallest
  end.

Definition allocate_best_fit (fuel : nat) (bytes : Z) : M ptr :=
  assert (0 <? bytes) ;;;
  p <- get linked_list ;;
  assert (nonnull p) ;;;
  sz <- get heap_size ;;
  smallest <- best_fit_loop fuel p bytes sz None ;;
  if nonnull smallest then
    p <- allocate_node smallest bytes ;;
    ret (memory_at p 0)
  else ret None.

Fixpoint worst_fit_loop (fuel : nat) (p : ptr) (sz : Z) (largest : ptr)
  : M ptr :=
  match fuel with
  | O => fail OutOfFuel
  | S fuel' =>
      if nonnull p then
        c <- andM (f <- rd free p ;; ret (truthy f))
                  (psz <- rd size p ;; ret (sz <? psz)) ;;
        if c then
          psz <- rd size p ;;
          pnext <- rd next p ;;
          worst_fit_loop fuel' pnext psz p
        else
          pnext <- rd next p ;;
          worst_fit_loop fuel' pnext sz largest
      else ret largest
  end.

Definition allocate_worst_fit (fuel : nat) (bytes : Z) : M ptr :=
  assert (0 <? bytes) ;;;
  p <- get linked_list ;;
  let sz := wrap (bytes - 1) in
  assert (nonnull p) ;;;
  largest <- worst_fit_loop fuel p sz None ;;
  if nonnull largest then
    p <- allocate_node largest bytes ;;
    ret (memory_at p 0)
  else ret None.

(** The call through the pointer [allocate]. *)
Definition call_allocate (fuel : nat) (bytes : Z) : M ptr :=
  f <- get allocate ;;
  match f with
  | None => fail BadAccess
  | Some first_fit => allocate_first_fit fuel bytes
  | Some next_fit => allocate_next_fit fuel bytes
  | Some best_fit => allocate_best_fit fuel bytes
  | Some worst_fit => allocate_worst_fit fuel bytes
  end.

(** ** Validation *)

Definition validate_node (p : ptr) : M unit :=
  pnext <- rd next p ;;
  c <- orM (ret (negb (nonnull pnext)))
           (np <- rd prev pnext ;; ret (bool_decide (np = p))) ;;
  assert c ;;;
  pprev <- rd prev p ;;
  c <- orM (ret (negb (nonnull pprev)))
           (pn <- rd next pprev ;; ret (bool_decide (pn = p))) ;;
  assert c ;;;
  psize <- rd size p ;;
  assert (0 <? psize).

Fixpoint validate_loop (fuel : nat) (p : ptr) (counter : Z) : M Z :=
  match fuel with
  | O => fail OutOfFuel
  | S fuel' =>
      if nonnull p then
        validate_node p ;;;
        psize <- rd size p ;;
        let counter := wrap (counter + wrap (psize + sizeof_node_t)) in
        pnext <- rd next p ;;
        validate_loop fuel' pnext counter
      else ret counter
  end.

Definition validate (fuel : nat) : M unit :=
  p <- get linked_list ;;
  counter <- validate_loop fuel p 0 ;;
  hs <- get heap_size ;;
  assert (counter =? hs).

(** The header behind [nx], when there is one, gets [v] as its [prev]:
    the effect of [if (q) q->prev = v;]. *)
Definition relink_prev (nx v : ptr) (h : gmap Z node_t) : gmap Z node_t :=
  match nx with
  | Some n =>
      match h !! n with
      | Some nd => <[n := with_prev v nd]> h
      | None => h
      end
  | None => h
  end.

(** * The block list as a sequence

    A [block] is what the list says about one header: where it is, its
    [free] flag and its payload size.  [dll h pv l e] reads the store [h]
    as the doubly-linked segment [l] entered from [pv] and left to [e];
    [tiles a l e] lays the blocks of [l] end to end from address [a] to
    address [e]. *)

Record block : Type := Block {
  addr : Z;
  bfree : Z;
  bsize : Z
}.

(** The pointer to the first block of [l], or [e] when there is none. *)
Definition hd_addr (l : list block) (e : ptr) : ptr :=
  match l with
  | [] => e
  | b :: _ => Some (addr b)
  end.

(** The pointer to the last block of [l], or [pv] when there is none. *)
Definition last_addr (pv : ptr) (l : list block) : ptr :=
  match last l with
  | Some b => Some (addr b)
  | None => pv
  end.

Fixpoint dll (h : gmap Z node_t) (pv : ptr) (l : list block) (e : ptr)
  : Prop :=
  match l with
  | [] => True
  | b :: l' =>
      h !! addr b = Some (Node (hd_addr l' e) pv (bfree b) (bsize b))
      ∧ dll h (Some (addr b)) l' e
  end.

Fixpoint tiles (a : Z) (l : list block) (e : Z) : Prop :=
  match l with
  | [] => a = e
  | b :: l' =>
      addr b = a ∧ 0 < bsize b
      ∧ tiles (a + sizeof_node_t + bsize b) l' e
  end.

(** ** Splitting, on the sequence *)

(** What [allocate_node] makes of the block [b] for a request of [n]
    bytes. *)
Definition split_block (b : block) (n : Z) : list block :=
  if sizeof_node_t + MINIMUM_FREE_BLOCK <=? bsize b - n then
    [Block (addr b) 0 n;
     Block (addr b + sizeof_node_t + n) 1 (bsize b - n - sizeof_node_t)]
  else [Block (addr b) 0 (bsize b)].

(** The size of [b] once allocated: what [memset] clears. *)
Definition zeroed_len (b : block) (n : Z) : Z :=
  if sizeof_node_t + MINIMUM_FREE_BLOCK <=? bsize b - n then n else bsize b.

(** Two states that differ at most in the headers and the payload. *)
Definition same_globals (s s' : state) : Prop :=
  linked_list s' = linked_list s ∧ next_node s' = next_node s
  ∧ heap_size s' = heap_size s ∧ allocate s' = allocate s
  ∧ stderr s' = stderr s.

(** ** Merging, on the sequence *)

(** [x] after it absorbed its successor [y]. *)
Definition merged (x y : block) : block :=
  Block (addr x) (bfree x) (bsize x + sizeof_node_t + bsize y).

(** ** The invariant of the engine *)

(** [p->free] as a condition. *)
Definition is_free (b : block) : bool := truthy (bfree b).

(** No two neighbours of [l] are both free. *)
Fixpoint coalesced (l : list block) : Prop :=
  match l with
  | [] => True
  | b :: l' =>
      match l' with
      | c :: _ => is_free b && is_free c = false
      | [] => True
      end
      ∧ coalesced l'
  end.

(** [p] points to a block of [l]. *)
Definition on_list (p : ptr) (l : list block) : Prop :=
  ∃ b, b ∈ l ∧ p = Some (addr b).

Definition cursor_ok (p : ptr) (l : list block) : Prop :=
  p = None ∨ on_list p l.

(** The invariants of the data model, for the state [s] and its block
    list [l]: the head is the first block and the list is not empty; the
    headers are linked both ways; the blocks tile the region, which lies in
    the address space, and have positive sizes; no two neighbours are free;
    the cursor is unset or on the list. *)
Record Inv (s : state) (l : list block) : Prop := {
  inv_head : linked_list s = hd_addr l None;
  inv_nonempty : l ≠ [];
  inv_dll : dll (heap s) None l None;
  inv_tiles :
    tiles (uintptr (linked_list s)) l
          (uintptr (linked_list s) + heap_size s);
  inv_base : 0 < uintptr (linked_list s);
  inv_limit : uintptr (linked_list s) + heap_size s < 2 ^ 64;
  inv_coalesced : coalesced l;
  inv_cursor : cursor_ok (next_node s) l
}.

(** * Release

    What [deallocate] does to the sequence [l1 ++ b :: l2] when it frees
    [b]: the block before it, when free, absorbs it; the result absorbs the
    block after it, when free. *)

(** [p->prev && p->prev->free] and [p->next && p->next->free], for the
    blocks [l1] before and [l2] after [p]. *)
Definition prev_free (l1 : list block) : bool :=
  match last l1 with
  | Some pb => is_free pb
  | None => false
  end.

Definition next_free (l2 : list block) : bool :=
  match l2 with
  | nb :: _ => is_free nb
  | [] => false
  end.

(** Merge-prev: the blocks that stay before, and the block that results. *)
Definition coalesce_prev (l1 : list block) (b : block) : list block * block :=
  match last l1 with
  | Some pb => if is_free pb then (removelast l1, merged pb b) else (l1, b)
  | None => (l1, b)
  end.

(** Merge-next: the result [r] with what follows it. *)
Definition coalesce_next (r : block) (l2 : list block) : list block :=
  match l2 with
  | nb :: l2' => if is_free nb then merged r nb :: l2' else r :: l2
  | [] => [r]
  end.

(** [if (next_node == p->next) next_node = p->next->next;] when the block
    after [p] is free. *)
Definition cursor_next (c : ptr) (l2 : list block) : ptr :=
  match l2 with
  | nb :: l2' =>
      if is_free nb && bool_decide (c = Some (addr nb))
      then hd_addr l2' None else c
  | [] => c
  end.

(** [b] after [p->free = 1]. *)
Definition freed (b : block) : block := Block (addr b) 1 (bsize b).

(** The list after [deallocate] released [b], and the cursor. *)
Definition release (l1 : list block) (b : block) (l2 : list block)
  : list block :=
  (coalesce_prev l1 (freed b)).1
  ++ coalesce_next (coalesce_prev l1 (freed b)).2 l2.

Definition release_cursor (c : ptr) (l1 : list block) (b : block)
  (l2 : list block) : ptr :=
  cursor_next
    (if prev_free l1 && bool_decide (c = Some (addr b))
     then hd_addr l2 None else c) l2.

(** * Allocation *)

(** [p->free && p->size >= bytes], on the sequence. *)
Definition fits_block (n : Z) (b : block) : bool :=
  is_free b && (n <=? bsize b).

(** ** Next fit: the walk as a ring *)

(** The block after [nx] in the walk of [allocate_next_fit]:
    [p = p->next; if (p == NULL) p = linked_list;]. *)
Definition wrap_to (ll nx : ptr) : ptr := if nonnull nx then nx else ll.

(** The blocks [l] in the order the walk meets them, up to [e]. *)
Fixpoint ring (h : gmap Z node_t) (ll : ptr) (l : list block) (e : ptr)
  : Prop :=
  match l with
  | [] => True
  | b :: l' =>
      (∃ nd, h !! addr b = Some nd ∧ free nd = bfree b ∧ size nd = bsize b
             ∧ wrap_to ll (next nd) = hd_addr l' e)
      ∧ ring h ll l' e
  end.

(** The walk of next fit starts at the first block of [l2]: the cursor is
    that block, or it is unset and [l2] is the whole list. *)
Definition starts_at (s : state) (l1 l2 : list block) : Prop :=
  l2 ≠ []
  ∧ (next_node s = hd_addr l2 None ∨ (next_node s = None ∧ l1 = [])).

(** ** Best fit and worst fit: the scans *)

(** The loops of [allocate_best_fit] and [allocate_worst_fit] over the
    blocks [l], from the bound [sz] and the candidate [cur]. *)
Fixpoint best_scan (n sz : Z) (cur : option block) (l : list block)
  : option block :=
  match l with
  | [] => cur
  | b :: l' =>
      if fits_block n b && (bsize b <? sz)
      then best_scan n (bsize b) (Some b) l'
      else best_scan n sz cur l'
  end.

Fixpoint worst_scan (sz : Z) (cur : option block) (l : list block)
  : option block :=
  match l with
  | [] => cur
  | b :: l' =>
      if is_free b && (sz <? bsize b)
      then worst_scan (bsize b) (Some b) l'
      else worst_scan sz cur l'
  end.

(** * initialise *)

(** The function [initialise] installs for an algorithm name. *)
Definition allocator_of (algorithm : option string) : option allocator :=
  match algorithm with
  | None => Some first_fit
  | Some a =>
      if streq a FIRSTFIT then Some first_fit
      else if streq a NEXTFIT then Some next_fit
      else if streq a BESTFIT then Some best_fit
      else if streq a WORSTFIT then Some worst_fit
      else None
  end.

(** * Release of a free block, and of [NULL] *)

(** The diagnostic of a double release. *)
Definition already_free : string := "Error : memory already free" +:+ newline.

(** * The block list as the program sees it

    [chain h p l]: following [next] from [p] in the store [h] meets the
    headers [l], each with its address, and ends at [NULL]. *)

Fixpoint chain (h : gmap Z node_t) (p : ptr) (l : list (Z * node_t)) : Prop :=
  match l with
  | [] => p = None
  | x :: l' => p = Some x.1 ∧ h !! x.1 = Some x.2 ∧ chain h (next x.2) l'
  end.

(** The headers of the state [s], from [linked_list]. *)
Definition block_list (s : state) (l : list (Z * node_t)) : Prop :=
  chain (heap s) (linked_list s) l.

(** The header a pointer leads to. *)
Definition deref (h : gmap Z node_t) (p : ptr) : option node_t :=
  p ≫= λ a, h !! a.

(** What [validate_node] asserts on the links of the header at [a]. *)
Definition linked (h : gmap Z node_t) (a : Z) (nd : node_t) : Prop :=
  (next nd = None ∨ prev <$> deref h (next nd) = Some (Some a))
  ∧ (prev nd = None ∨ next <$> deref h (prev nd) = Some (Some a)).

(** Some two neighbours of [l] are both free. *)
Fixpoint adjacent_free (l : list (Z * node_t)) : bool :=
  match l with
  | [] => false
  | x :: l' =>
      match l' with
      | y :: _ => truthy (free x.2) && truthy (free y.2)
      | [] => false
      end
      || adjacent_free l'
  end.

(** The headers and payloads of [l], in bytes. *)
Definition total_bytes (l : list (Z * node_t)) : Z :=
  foldr (λ x acc, sizeof_node_t + size x.2 + acc) 0 l.

Record structural_invariants (s : state) (l : list (Z * node_t)) : Prop := {
  si_links : ∀ a nd, (a, nd) ∈ l → linked (heap s) a nd;
  si_total : total_bytes l = heap_size s;
  si_positive : ∀ a nd, (a, nd) ∈ l → 0 < size nd;
  si_coalesced : adjacent_free l = false
}.

(** The headers that stand for the blocks [l], entered from [pv]. *)
Fixpoint cells (pv : ptr) (l : list block) : list (Z * node_t) :=
  match l with
  | [] => []
  | b :: l' =>
      (addr b, Node (hd_addr l' None) pv (bfree b) (bsize b))
      :: cells (Some (addr b)) l'
  end.

(** * Every state the engine reaches *)

(** What a caller may pass to [deallocate]: [NULL], or the payload of a
    block that is on the list. *)
Definition releasable (s : state) (memory : ptr) : Prop :=
  memory = None
  ∨ ∃ l a nd, block_list s l ∧ (a, nd) ∈ l
              ∧ memory = Some (a + sizeof_node_t).

(** The states after [initialise] on a region of the address space and
    any number of completed allocations, of [size_t] requests through the
    installed allocator, and releases. *)
Inductive reachable : state → Prop :=
  | reach_initialise s0 m sz algorithm s :
      0 < m → m + sz < 2 ^ 64 →
      initialise (Some m) sz algorithm s0 = Ok (tt, s) →
      reachable s
  | reach_allocate s fuel n p s' :
      reachable s → 0 ≤ n → n < 2 ^ 64 →
      call_allocate fuel n s = Ok (p, s') →
      reachable s'
  | reach_deallocate s memory s' :
      reachable s → releasable s memory →
      deallocate memory s = Ok (tt, s') →
      reachable s'.

(** * validate *)

(** What [validate] asserts of the headers [l]. *)
Definition passes (s : state) (l : list (Z * node_t)) : Prop :=
  (∀ a nd, (a, nd) ∈ l → linked (heap s) a nd ∧ 0 < size nd)
  ∧ wrap (total_bytes l) = heap_size s.

(** * A worked region

    Five blocks from address 4096: A free 100, B busy 64, C free 200,
    D busy 64, E free 50; 638 bytes in all. *)

Definition example_heap : gmap Z node_t :=
  list_to_map
    [(4096, Node (Some 4228) None 1 100);
     (4228, Node (Some 4324) (Some 4096) 0 64);
     (4324, Node (Some 4556) (Some 4228) 1 200);
     (4556, Node (Some 4652) (Some 4324) 0 64);
     (4652, Node None (Some 4556) 1 50)].

Definition example_blocks : list block :=
  [Block 4096 1 100; Block 4228 0 64; Block 4324 1 200; Block 4556 0 64;
   Block 4652 1 50].

Definition example_state (cursor : ptr) : state :=
  State (Some 4096) cursor 638 (Some first_fit) example_heap ∅ [].

(** ** A short run of the engine *)

(** The state an operation leaves. *)
Definition state_of {A} (r : result (A * state)) : state :=
  match r with
  | Ok (_, s) => s
  | Err _ => uninitialised
  end.

Definition demo_0 : state :=
  state_of (initialise (Some 4096) 2048 (Some NEXTFIT) uninitialised).
Definition demo_1 : state := state_of (call_allocate 4 100 demo_0).
Definition demo_2 : state := state_of (deallocate (Some 4128) demo_1).

(** ** What validate does not see *)

(** Two free neighbours, the second below the first in memory, and a cursor
    that is no block. *)
Definition scrambled : state :=
  State (Some 8000) (Some 1) 10000 (Some first_fit)
    (list_to_map [(8000, Node (Some 4096) None 1 100);
                  (4096, Node None (Some 8000) 1 9836)])
    ∅ [].

Definition scrambled_list : list (Z * node_t) :=
  [(8000, Node (Some 4096) None 1 100); (4096, Node None (Some 8000) 1 9836)].

(** * The blocks in use

    What the callers of [allocate] hold: the blocks of the list that are
    not free, and the pointers [p->memory] to them. *)

Definition busy (l : list block) : list block :=
  filter (λ b, is_free b = false) l.

(** [p->memory] for the block [b]. *)
Definition payload (b : block) : Z := addr b + sizeof_node_t.

(** The first byte after the payload of [b]. *)
Definition block_end (b : block) : Z := addr b + sizeof_node_t + bsize b.

(** The headers of [l] that are in use. *)
Definition in_use (l : list (Z * node_t)) : list (Z * node_t) :=
  filter (λ x, truthy (free x.2) = false) l.

(** Every header of [l] and every payload starts at a multiple of [a]. *)
Definition aligned (a : Z) (l : list block) : Prop :=
  Forall (λ b, (a | addr b) ∧ (a | bsize b)) l.

(** The worked region after [allocate(40)] under first fit. *)
Definition example_served : state :=
  state_of (call_allocate 6 40 (example_state None)).

(** * What a statement leaves as it is

    [keeps R m]: whenever [m] returns, the states before and after are
    related by [R]. *)

Definition keeps {A} (R : state → state → Prop) (m : M A) : Prop :=
  ∀ s a s', m s = Ok (a, s') → R s s'.

(** The [free] flag of every header is as it was. *)
Definition same_flags (s s' : state) : Prop :=
  ∀ a, free <$> heap s' !! a = free <$> heap s !! a.

(** What [allocate] leaves as it is: the head, the size of the region, the
    installed algorithm and the diagnostics.  What [deallocate] leaves as
    it is: the same three and the payload bytes. *)
Definition allocate_frame (s s' : state) : Prop :=
  linked_list s' = linked_list s ∧ heap_size s' = heap_size s
  ∧ allocate s' = allocate s ∧ stderr s' = stderr s.

Definition deallocate_frame (s s' : state) : Prop :=
  linked_list s' = linked_list s ∧ heap_size s' = heap_size s
  ∧ allocate s' = allocate s ∧ mem s' = mem s.

(** * print_node and print_all_nodes

    What the two functions write to the standard output is their result,
    one string for each [printf].  The counter [i] is an [int]; it is not
    wrapped, a list of [2^31] blocks being out of reach. *)

Fixpoint spaces (n : nat) : string :=
  match n with
  | O => EmptyString
  | S n' => " " +:+ spaces n'
  end.

(** A conversion in a field of [w] characters, right-justified. *)
Definition field (w : nat) (t : string) : string :=
  spaces (w - String.length t) +:+ t.

(** An [unsigned] read by [%d]. *)
Definition as_int (z : Z) : Z := if z <? 2 ^ 31 then z else z - 2 ^ 32.

Section Printing.

(** [%10p]: how a pointer is written is left to the implementation. *)
Variable pointer_text : ptr → string.

Definition print_node (p : ptr) : M (list string) :=
  let o1 := "address[" +:+ pointer_text p +:+ "] | " in
  psize <- rd size p ;;
  let o2 := "size[" +:+ field 9 (pretty psize) +:+ "] | " in
  pfree <- rd free p ;;
  let o3 := "free[" +:+ field 1 (pretty (as_int pfree)) +:+ "]" in
  nn <- get next_node ;;
  ret ([o1; o2; o3]
       ++ (if bool_decide (nn = p) then [" <-"] else [])
       ++ [newline]).

Fixpoint print_all_nodes_loop (fuel : nat) (p : ptr) (i : Z)
  : M (list string) :=
  match fuel with
  | O => fail OutOfFuel
  | S fuel' =>
      if nonnull p then
        let o := "node[" +:+ field 5 (pretty i) +:+ "] | " in
        out <- print_node p ;;
        pnext <- rd next p ;;
        rest <- print_all_nodes_loop fuel' pnext (i + 1) ;;
        ret (o :: out ++ rest)
      else ret []
  end.

Definition print_all_nodes (fuel : nat) : M (list string) :=
  p <- get linked_list ;;
  print_all_nodes_loop fuel p 0.

(** The line of the block [b], the [i]-th of the list. *)
Definition node_line (cursor : ptr) (i : Z) (b : block) : list string :=
  ["node[" +:+ field 5 (pretty i) +:+ "] | ";
   "address[" +:+ pointer_text (Some (addr b)) +:+ "] | ";
   "size[" +:+ field 9 (pretty (bsize b)) +:+ "] | ";
   "free[" +:+ field 1 (pretty (as_int (bfree b))) +:+ "]"]
  ++ (if bool_decide (cursor = Some (addr b)) then [" <-"] else [])
  ++ [newline].

Fixpoint node_lines (cursor : ptr) (i : Z) (l : list block) : list string :=
  match l with
  | [] => []
  | b :: l' => node_line cursor i b ++ node_lines cursor (i + 1) l'
  end.

End Printing.

(** * memory_manager_test.c

    [soak_test], [merg_test] and [run_tests] as one thread runs them.  The
    local array [blocks] is a list of pointers, threaded through the loops;
    an index outside it is [BadAccess].  The values of [rand()] are given
    by [rand], the k-th call of the thread returning [rand k].  The [int]
    arithmetic of [random_num] does not overflow on the arguments the tests
    pass and is not wrapped. *)

Definition NUMBER_OF_BLOCKS : Z := 1000.

(** [start + (r % end)], for the value [r] of [rand()]. *)
Definition random_num (start end_ r : Z) : Z := start + Z.rem r end_.

(** [for (int n = from; n < to; n += step) body]. *)
Fixpoint for_loop {A} (fuel : nat) (n to step : Z) (body : Z → A → M A)
  (a : A) : M A :=
  match fuel with
  | O => fail OutOfFuel
  | S fuel' =>
      if n <? to then
        a' <- body n a ;;
        for_loop fuel' (n + step) to step body a'
      else ret a
  end.

(** [blocks[n]] as an rvalue, and [blocks[n] = p]. *)
Definition load (blocks : list ptr) (n : Z) : M ptr :=
  if 0 <=? n then
    match blocks !! Z.to_nat n with
    | Some p => ret p
    | None => fail BadAccess
    end
  else fail BadAccess.

Definition store (blocks : list ptr) (n : Z) (p : ptr) : M (list ptr) :=
  if (0 <=? n) && (n <? Z.of_nat (length blocks)) then
    ret (<[Z.to_nat n := p]> blocks)
  else fail BadAccess.

(** [void* blocks[NUMBER_OF_BLOCKS]; memset(blocks, 0, sizeof(blocks));] *)
Definition no_blocks : list ptr :=
  replicate (Z.to_nat NUMBER_OF_BLOCKS) None.

(** [for (n = 0; n < NUMBER_OF_BLOCKS; n++) deallocate(blocks[n]);], the
    loop that ends both tests. *)
Definition deallocate_blocks (fuel : nat) (blocks : list ptr)
  : M (list ptr) :=
  for_loop fuel 0 NUMBER_OF_BLOCKS 1
    (λ n blocks, p <- load blocks n ;; deallocate p ;;; ret blocks) blocks.

Definition merg_test (fuel : nat) : M unit :=
  let blocks := no_blocks in
  blocks <- for_loop fuel 0 NUMBER_OF_BLOCKS 1
              (λ n blocks, p <- call_allocate fuel 64 ;; store blocks n p)
              blocks ;;
  validate fuel ;;;
  blocks <- for_loop fuel 0 NUMBER_OF_BLOCKS 2
              (λ n blocks,
                 p <- load blocks n ;;
                 deallocate p ;;;
                 store blocks n None)
              blocks ;;
  validate fuel ;;;
  deallocate_blocks fuel blocks ;;;
  validate fuel.

Definition soak_test (rand : nat → Z) (fuel : nat) : M unit :=
  let blocks := no_blocks in
  blocks <- for_loop fuel 0 2500 1
              (λ n blocks,
                 let block :=
                   random_num 0 NUMBER_OF_BLOCKS (rand (Z.to_nat (2 * n))) in
                 let size :=
                   random_num 1 2046 (rand (Z.to_nat (2 * n + 1))) in
                 p <- load blocks block ;;
                 if bool_decide (p = None) then
                   q <- call_allocate fuel (wrap size) ;;
                   store blocks block q
                 else
                   deallocate p ;;;
                   store blocks block None)
              blocks ;;
  validate fuel ;;;
  deallocate_blocks fuel blocks ;;;
  validate fuel.

(** [soak_test(); merg_test();], the values of [rand()] being those of
    [soak_test]. *)
Definition run_tests (rand : nat → Z) (fuel : nat) : M unit :=
  soak_test rand fuel ;;;
  merg_test fuel.

(** The caller holds the blocks in use: the pointers of [blocks] that are
    not [NULL] are, each once, the payloads of the busy blocks of [l]. *)
Definition owns (blocks : list ptr) (l : list block) : Prop :=
  omap id blocks ≡ₚ payload <$> busy l.

(** [held g ps s]: the state [s] keeps the invariant, the payloads of its
    busy blocks are the pointers [ps], each once, and the head, the region
    size, the allocator and the diagnostics are those of [g]. *)
Definition held (g : state) (ps : list Z) (s : state) : Prop :=
  ∃ l, Inv s l ∧ ps ≡ₚ payload <$> busy l
       ∧ linked_list s = linked_list g ∧ heap_size s = heap_size g
       ∧ allocate s = allocate g ∧ stderr s = stderr g.

(** The array of a caller that holds B and D of the worked region. *)
Definition example_held : list ptr :=
  Some 4260 :: Some 4588 :: replicate 998 None.

(** * Proofs *)

(** * Running the statements symbolically *)

Section Exec.
Context {A B : Type}.
Implicit Types (s : state) (k : A → M B).

Lemma bind_ret (x : A) k s : bind (ret x) k s = k x s.
Proof. reflexivity. Qed.

Lemma bind_get (f : state → A) k s : bind (get f) k s = k (f s) s.
Proof. reflexivity. Qed.

Lemma bind_assoc {C} (m : M C) (k1 : C → M A) k s :
  bind (bind m k1) k s = bind m (λ x, bind (k1 x) k) s.
Proof. unfold bind. destruct (m s) as [[c s']|e]; reflexivity. Qed.

Lemma bind_rd (f : node_t → A) a nd k s :
  heap s !! a = Some nd → bind (rd f (Some a)) k s = k (f nd) s.
Proof. intros H. unfold bind, rd. rewrite H. reflexivity. Qed.
End Exec.

Section ExecUnit.
Context {B : Type}.
Implicit Types (s : state) (k : unit → M B).

Lemma bind_modify (f : state → state) k s :
  bind (modify f) k s = k tt (f s).
Proof. reflexivity. Qed.

Lemma bind_assert b k s : b = true → bind (assert b) k s = k tt s.
Proof. intros ->. reflexivity. Qed.

Lemma bind_wr (u : node_t → node_t) a nd k s :
  heap s !! a = Some nd →
  bind (wr u (Some a)) k s = k tt (set_heap (<[a := u nd]> (heap s)) s).
Proof. intros H. unfold bind, wr. rewrite H. reflexivity. Qed.
End ExecUnit.

Lemma rd_ok {A} (f : node_t → A) a nd s :
  heap s !! a = Some nd → rd f (Some a) s = Ok (f nd, s).
Proof. intros H. unfold rd. rewrite H. reflexivity. Qed.

Lemma wrap_small z : 0 ≤ z < 2 ^ 64 → wrap z = z.
Proof. intros H. unfold wrap. apply Z.mod_small. exact H. Qed.

Lemma nonnull_Some a : nonnull (Some a) = true.
Proof. reflexivity. Qed.

Lemma nonnull_None : nonnull None = false.
Proof. reflexivity. Qed.

Ltac consts :=
  unfold sizeof_node_t, MINIMUM_FREE_BLOCK, MINIMUM_HEAP_SIZE in *.

Ltac arith := consts; first [ congruence | lia ].

Ltac norm :=
  unfold with_next, with_prev, with_free, with_size, memory_at, header_of,
    memset, set_heap, set_mem, set_next_node, set_stderr, set_linked_list,
    set_heap_size, set_allocate;
  cbn [next prev free size linked_list next_node heap_size allocate heap mem
       stderr fmap option_fmap option_map];
  rewrite ?insert_insert_eq.

(** Looking up an address in a store built by a few writes. *)
Ltac lookup_solve :=
  norm;
  repeat first
    [ rewrite lookup_insert_eq
    | rewrite lookup_insert_ne by arith ];
  first [ reflexivity | eassumption ].

Ltac step :=
  first
    [ rewrite bind_assoc
    | rewrite bind_ret
    | rewrite bind_get
    | rewrite bind_modify
    | rewrite bind_assert by
        (first [ reflexivity | apply Z.ltb_lt; arith | apply Z.leb_le; arith ])
    | erewrite bind_rd by lookup_solve
    | erewrite bind_wr by lookup_solve ];
  norm.

Ltac steps := repeat step.

(** The same without unfolding the setters. *)
Ltac step0 :=
  first
    [ rewrite bind_assoc
    | rewrite bind_ret
    | rewrite bind_get
    | rewrite bind_modify
    | rewrite bind_assert by
        (first [ reflexivity | apply Z.ltb_lt; arith | apply Z.leb_le; arith ])
    | erewrite bind_rd by (first [eassumption | lookup_solve])
    | erewrite bind_wr by (first [eassumption | lookup_solve]) ];
  cbv beta.

(** * The common functions on the store *)

Lemma allocate_node_split s a nx pv f sz bytes :
  heap s !! a = Some (Node nx pv f sz) →
  0 < bytes → bytes ≤ sz → sz < 2 ^ 64 →
  sizeof_node_t + MINIMUM_FREE_BLOCK ≤ sz - bytes →
  (∀ n, nx = Some n →
        n ≠ a ∧ n ≠ a + sizeof_node_t + bytes ∧ is_Some (heap s !! n)) →
  let new := a + sizeof_node_t + bytes in
  allocate_node (Some a) bytes s =
  Ok (Some a,
      set_mem (fill (a + sizeof_node_t) 0 bytes (mem s))
        (set_heap
           (<[a := Node (Some new) pv 0 bytes]>
              (relink_prev nx (Some new)
                 (<[new := Node nx (Some a) 1 (sz - bytes - sizeof_node_t)]>
                    (heap s)))) s)).
Proof.
  intros Ha Hb Hle Hsz Hrem Hnx new. subst new.
  destruct s as [ll nn hs al h m er]; cbn [heap mem] in *.
  unfold allocate_node, relink_prev. consts.
  do 3 step.
  rewrite (wrap_small (sz - bytes)) by lia.
  rewrite (wrap_small (32 + 32)) by (vm_compute; split; congruence).
  replace (32 + 32 <=? sz - bytes) with true by (symmetry; apply Z.leb_le; lia).
  unfold create_node. steps. consts.
  rewrite (wrap_small (sz - bytes - 32)) by lia.
  destruct nx as [n|].
  - destruct (Hnx n eq_refl) as (Hn1 & Hn2 & [ndn Hn3]).
    rewrite nonnull_Some. steps. consts.
    rewrite lookup_insert_ne, Hn3 by lia.
    rewrite Z.add_0_r. reflexivity.
  - rewrite nonnull_None. steps. consts.
    rewrite Z.add_0_r. reflexivity.
Qed.

Lemma allocate_node_whole s a nx pv f sz bytes :
  heap s !! a = Some (Node nx pv f sz) →
  0 < bytes → bytes ≤ sz → sz < 2 ^ 64 →
  sz - bytes < sizeof_node_t + MINIMUM_FREE_BLOCK →
  allocate_node (Some a) bytes s =
  Ok (Some a,
      set_mem (fill (a + sizeof_node_t) 0 sz (mem s))
        (set_heap (<[a := Node nx pv 0 sz]> (heap s)) s)).
Proof.
  intros Ha Hb Hle Hsz Hrem.
  destruct s as [ll nn hs al h m er]; cbn [heap mem] in *.
  unfold allocate_node. consts.
  do 3 step.
  rewrite (wrap_small (sz - bytes)) by lia.
  rewrite (wrap_small (32 + 32)) by (vm_compute; split; congruence).
  replace (32 + 32 <=? sz - bytes) with false by (symmetry; apply Z.leb_gt; lia).
  steps. consts. rewrite Z.add_0_r. reflexivity.
Qed.

Lemma merge_prev_ok s a nx pa f sz pnx ppv pf psz :
  heap s !! a = Some (Node nx (Some pa) f sz) →
  heap s !! pa = Some (Node pnx ppv pf psz) →
  pa ≠ a →
  0 ≤ sz → 0 ≤ psz → psz + sizeof_node_t + sz < 2 ^ 64 →
  (∀ n, nx = Some n → n ≠ a ∧ n ≠ pa ∧ is_Some (heap s !! n)) →
  merge_prev (Some a) s =
  Ok (Some pa,
      set_heap
        (relink_prev nx (Some pa)
           (<[pa := Node nx ppv pf (psz + sizeof_node_t + sz)]> (heap s))) s).
Proof.
  intros Ha Hpa Hne Hsz Hpsz Hsum Hnx.
  destruct s as [ll nn hs al h m er]; cbn [heap mem] in *.
  unfold merge_prev, relink_prev. consts.
  steps. consts.
  rewrite (wrap_small (32 + sz)) by lia.
  rewrite (wrap_small (psz + (32 + sz))) by lia.
  rewrite Z.add_assoc.
  destruct nx as [n|].
  - destruct (Hnx n eq_refl) as (Hn1 & Hn2 & [ndn Hn3]).
    rewrite nonnull_Some. steps.
    rewrite lookup_insert_ne, Hn3 by lia.
    erewrite rd_ok by lookup_solve. reflexivity.
  - rewrite nonnull_None. steps.
    erewrite rd_ok by lookup_solve. reflexivity.
Qed.

Lemma merge_next_ok s a na pv f sz nnx npv nf nsz :
  heap s !! a = Some (Node (Some na) pv f sz) →
  heap s !! na = Some (Node nnx npv nf nsz) →
  na ≠ a →
  0 ≤ sz → 0 ≤ nsz → sz + sizeof_node_t + nsz < 2 ^ 64 →
  (∀ n, nnx = Some n → n ≠ a ∧ n ≠ na ∧ is_Some (heap s !! n)) →
  merge_next (Some a) s =
  Ok (Some a,
      set_heap
        (relink_prev nnx (Some a)
           (<[a := Node nnx pv f (sz + sizeof_node_t + nsz)]> (heap s))) s).
Proof.
  intros Ha Hna Hne Hsz Hnsz Hsum Hnx.
  destruct s as [ll nn hs al h m er]; cbn [heap mem] in *.
  unfold merge_next, relink_prev. consts.
  steps. consts.
  rewrite (wrap_small (32 + nsz)) by lia.
  rewrite (wrap_small (sz + (32 + nsz))) by lia.
  rewrite Z.add_assoc.
  destruct nnx as [n|].
  - destruct (Hnx n eq_refl) as (Hn1 & Hn2 & [ndn Hn3]).
    rewrite nonnull_Some. steps.
    rewrite lookup_insert_ne, Hn3 by lia. reflexivity.
  - rewrite nonnull_None. steps. reflexivity.
Qed.

(** * Segments and tilings *)

Lemma hd_addr_app l1 l2 e :
  hd_addr (l1 ++ l2) e = hd_addr l1 (hd_addr l2 e).
Proof. destruct l1; reflexivity. Qed.

Lemma last_addr_nil pv : last_addr pv [] = pv.
Proof. reflexivity. Qed.

Lemma last_addr_cons pv b l : last_addr pv (b :: l) = last_addr (Some (addr b)) l.
Proof.
  unfold last_addr. destruct l as [|c l]; [reflexivity|].
  rewrite last_cons_cons. destruct (last (c :: l)) eqn:E; [reflexivity|].
  apply last_None in E. discriminate.
Qed.

Lemma last_addr_snoc pv l b : last_addr pv (l ++ [b]) = Some (addr b).
Proof. unfold last_addr. rewrite last_snoc. reflexivity. Qed.

Lemma dll_app h pv l1 l2 e :
  dll h pv (l1 ++ l2) e ↔
  dll h pv l1 (hd_addr l2 e) ∧ dll h (last_addr pv l1) l2 e.
Proof.
  revert pv. induction l1 as [|b l1 IH]; intros pv; cbn [app dll].
  - rewrite last_addr_nil. tauto.
  - rewrite last_addr_cons, hd_addr_app, IH. tauto.
Qed.

Lemma dll_frame h h' pv l e :
  (∀ b, b ∈ l → h' !! addr b = h !! addr b) →
  dll h pv l e → dll h' pv l e.
Proof.
  revert pv. induction l as [|b l IH]; intros pv Hag; cbn [dll]; [tauto|].
  intros [Hb Hl]. split.
  - rewrite Hag; [exact Hb | left].
  - apply IH; [|exact Hl]. intros c Hc. apply Hag. right. exact Hc.
Qed.

Lemma dll_insert_ne h a nd pv l e :
  (∀ b, b ∈ l → addr b ≠ a) →
  dll h pv l e → dll (<[a := nd]> h) pv l e.
Proof.
  intros Hne. apply dll_frame. intros b Hb.
  apply lookup_insert_ne. intros ->. exact (Hne b Hb eq_refl).
Qed.

(** Changing the head's [prev] when the segment is entered from elsewhere. *)
Lemma dll_relink h pv v l :
  (∀ b c l', l = b :: l' → c ∈ l' → addr c ≠ addr b) →
  dll h pv l None →
  dll (relink_prev (hd_addr l None) v h) v l None.
Proof.
  destruct l as [|b l]; intros Hne Hd; [exact I|].
  destruct Hd as [Hb Hl]. cbn [hd_addr relink_prev dll]. rewrite Hb.
  split.
  - rewrite lookup_insert_eq. reflexivity.
  - apply dll_insert_ne; [|exact Hl]. intros c Hc. eapply Hne; eauto.
Qed.

Lemma relink_prev_ne nx v h a :
  nx ≠ Some a → relink_prev nx v h !! a = h !! a.
Proof.
  intros Hne. unfold relink_prev. destruct nx as [n|]; [|reflexivity].
  destruct (h !! n); [|reflexivity].
  apply lookup_insert_ne. congruence.
Qed.

Lemma tiles_app a l1 l2 e :
  tiles a (l1 ++ l2) e ↔ ∃ m, tiles a l1 m ∧ tiles m l2 e.
Proof.
  revert a. induction l1 as [|b l1 IH]; intros a; cbn [app tiles].
  - split; [intros H; exists a; split; [reflexivity|exact H]|].
    intros (m & -> & H). exact H.
  - rewrite IH. split.
    + intros (H1 & H2 & m & H3 & H4). exists m. tauto.
    + intros (m & (H1 & H2 & H3) & H4). repeat split; try assumption.
      exists m. tauto.
Qed.

Lemma tiles_bounds a l e :
  tiles a l e →
  a ≤ e ∧ ∀ b, b ∈ l →
    a ≤ addr b ∧ addr b + sizeof_node_t + bsize b ≤ e ∧ 0 < bsize b.
Proof.
  revert a. induction l as [|c l IH]; intros a; cbn [tiles].
  - intros ->. split; [lia|]. intros b Hb. inversion Hb.
  - intros (Hc & Hpos & Ht). destruct (IH _ Ht) as [Hle Hall].
    consts. split; [lia|]. intros b Hb.
    apply elem_of_cons in Hb as [->|Hb]; [lia|].
    specialize (Hall b Hb). lia.
Qed.

Lemma tiles_split a l1 b l2 e :
  tiles a (l1 ++ b :: l2) e →
  a ≤ addr b ∧ addr b + sizeof_node_t + bsize b ≤ e ∧ 0 < bsize b
  ∧ tiles a l1 (addr b)
  ∧ tiles (addr b + sizeof_node_t + bsize b) l2 e
  ∧ (∀ c, c ∈ l1 → addr c < addr b)
  ∧ (∀ c, c ∈ l2 → addr b + sizeof_node_t + bsize b ≤ addr c).
Proof.
  intros H. apply tiles_app in H as (m & H1 & H2).
  cbn [tiles] in H2. destruct H2 as (Hb & Hpos & H2). subst m.
  destruct (tiles_bounds _ _ _ H1) as [Hl1 Hall1].
  destruct (tiles_bounds _ _ _ H2) as [Hl2 Hall2].
  repeat split; try assumption; try lia.
  - intros c Hc. specialize (Hall1 c Hc). consts. lia.
  - intros c Hc. specialize (Hall2 c Hc). lia.
Qed.

Lemma tiles_head_fresh a b l e c :
  tiles a (b :: l) e → c ∈ l → addr c ≠ addr b.
Proof.
  intros H Hc. destruct (tiles_split a [] b l e H) as (_ & _ & Hpos & _ & _ & _ & Hl).
  specialize (Hl c Hc). consts. lia.
Qed.

Lemma hd_addr_Some_inv l n :
  hd_addr l None = Some n → ∃ c l', l = c :: l' ∧ addr c = n.
Proof.
  destruct l as [|c l']; [discriminate|]. intros [= <-]. eauto.
Qed.

(** * The common functions on the sequence *)

Lemma allocate_node_dll s l1 b l2 base lim bytes :
  dll (heap s) None (l1 ++ b :: l2) None →
  tiles base (l1 ++ b :: l2) lim →
  lim - base < 2 ^ 64 →
  0 < bytes → bytes ≤ bsize b →
  ∃ s', allocate_node (Some (addr b)) bytes s = Ok (Some (addr b), s')
    ∧ dll (heap s') None (l1 ++ split_block b bytes ++ l2) None
    ∧ tiles base (l1 ++ split_block b bytes ++ l2) lim
    ∧ same_globals s s'
    ∧ mem s' = fill (addr b + sizeof_node_t) 0 (zeroed_len b bytes) (mem s).
Proof.
  intros Hd Ht Hlim Hb Hle.
  pose proof (tiles_split _ _ _ _ _ Ht)
    as (Hlo & Hhi & Hpos & Ht1 & Ht2 & Hbefore & Hafter).
  apply dll_app in Hd as [Hd1 [Hnode Hd2]]. cbn [hd_addr] in Hd1.
  assert (Hsz : bsize b < 2 ^ 64) by (consts; lia).
  unfold split_block, zeroed_len.
  destruct (Z.leb_spec (sizeof_node_t + MINIMUM_FREE_BLOCK) (bsize b - bytes))
    as [Hrem|Hrem].
  - (* split *)
    eexists. split.
    { eapply allocate_node_split; try eassumption.
      intros n Hn. apply hd_addr_Some_inv in Hn as (c & l' & -> & <-).
      specialize (Hafter c ltac:(left)). destruct Hd2 as [Hc _].
      consts. repeat split; [lia | lia | eauto]. }
    cbn [heap mem set_heap set_mem linked_list next_node heap_size allocate
         stderr].
    split; [|split; [|split; [repeat split|reflexivity]]].
    + apply dll_app. split.
      * revert Hd1. apply dll_frame. intros c Hc.
        specialize (Hbefore c Hc).
        rewrite lookup_insert_ne by (consts; lia).
        rewrite relink_prev_ne.
        -- apply lookup_insert_ne. consts; lia.
        -- intros Hn. apply hd_addr_Some_inv in Hn as (x & l' & -> & Hx).
           specialize (Hafter x ltac:(left)). consts. lia.
      * cbn [app dll hd_addr addr bfree bsize]. split; [|split].
        -- apply lookup_insert_eq.
        -- rewrite lookup_insert_ne by (consts; lia).
           rewrite relink_prev_ne.
           ++ apply lookup_insert_eq.
           ++ intros Hn. apply hd_addr_Some_inv in Hn as (x & l' & -> & Hx).
              specialize (Hafter x ltac:(left)). consts. lia.
        -- apply dll_insert_ne.
           { intros c Hc. specialize (Hafter c Hc). consts. lia. }
           apply dll_relink with (pv := Some (addr b)).
           { intros x c l' -> Hc. eapply tiles_head_fresh; eauto. }
           revert Hd2. apply dll_insert_ne.
           intros c Hc. specialize (Hafter c Hc). consts. lia.
    + apply tiles_app. exists (addr b). split; [exact Ht1|].
      cbn [app tiles addr bsize]. repeat split; try lia.
      * consts. lia.
      * replace (addr b + sizeof_node_t + bytes + sizeof_node_t
                 + (bsize b - bytes - sizeof_node_t))
          with (addr b + sizeof_node_t + bsize b) by lia.
        exact Ht2.
  - (* consumed whole *)
    eexists. split.
    { eapply allocate_node_whole; try eassumption. }
    cbn [heap mem set_heap set_mem linked_list next_node heap_size allocate
         stderr].
    split; [|split; [|split; [repeat split|reflexivity]]].
    + apply dll_app. split.
      * revert Hd1. apply dll_insert_ne. intros c Hc.
        specialize (Hbefore c Hc). consts. lia.
      * cbn [app dll hd_addr addr bfree bsize]. split.
        -- apply lookup_insert_eq.
        -- revert Hd2. apply dll_insert_ne.
           intros c Hc. specialize (Hafter c Hc). consts. lia.
    + apply tiles_app. exists (addr b). split; [exact Ht1|].
      cbn [app tiles addr bsize]. repeat split; try lia. exact Ht2.
Qed.

Lemma merge_prev_dll s l1 pb b l2 base lim :
  dll (heap s) None (l1 ++ pb :: b :: l2) None →
  tiles base (l1 ++ pb :: b :: l2) lim →
  lim - base < 2 ^ 64 →
  ∃ s', merge_prev (Some (addr b)) s = Ok (Some (addr pb), s')
    ∧ dll (heap s') None (l1 ++ merged pb b :: l2) None
    ∧ tiles base (l1 ++ merged pb b :: l2) lim
    ∧ same_globals s s' ∧ mem s' = mem s.
Proof.
  intros Hd Ht Hlim.
  pose proof (tiles_split _ _ _ _ _ Ht)
    as (Hlo & Hhi & Hpos & Ht1 & Ht2 & Hbefore & Hafter).
  cbn [tiles] in Ht2. destruct Ht2 as (Hab & Hposb & Ht2).
  destruct (tiles_bounds _ _ _ Ht2) as [Hle2 Hall2].
  apply dll_app in Hd as [Hd1 [Hpb [Hb Hd2]]]. cbn [hd_addr] in Hd1, Hpb.
  eexists. split.
  { eapply merge_prev_ok; try eassumption; try (consts; lia).
    intros n Hn. apply hd_addr_Some_inv in Hn as (c & l' & -> & <-).
    specialize (Hall2 c ltac:(left)). destruct Hd2 as [Hc _].
    consts. repeat split; [lia | lia | eauto]. }
  cbn [heap mem set_heap linked_list next_node heap_size allocate stderr].
  assert (Hfresh : hd_addr l2 None ≠ Some (addr pb)).
  { intros Hn. apply hd_addr_Some_inv in Hn as (x & l' & -> & Hx).
    specialize (Hall2 x ltac:(left)). consts. lia. }
  split; [|split; [|split; [repeat split|reflexivity]]].
  - apply dll_app. split.
    + revert Hd1. apply dll_frame. intros c Hc. specialize (Hbefore c Hc).
      rewrite relink_prev_ne.
      * apply lookup_insert_ne. lia.
      * intros Hn. apply hd_addr_Some_inv in Hn as (x & l' & -> & Hx).
        specialize (Hall2 x ltac:(left)). consts. lia.
    + cbn [dll merged addr bfree bsize]. split.
      * rewrite relink_prev_ne by exact Hfresh. apply lookup_insert_eq.
      * apply dll_relink with (pv := Some (addr b)).
        { intros x c l' -> Hc. eapply tiles_head_fresh; eauto. }
        revert Hd2. apply dll_insert_ne.
        intros c Hc. specialize (Hall2 c Hc). consts. lia.
  - apply tiles_app. exists (addr pb). split; [exact Ht1|].
    cbn [tiles merged addr bsize]. repeat split; try (consts; lia).
    replace (addr pb + sizeof_node_t + (bsize pb + sizeof_node_t + bsize b))
      with (addr pb + sizeof_node_t + bsize pb + sizeof_node_t + bsize b)
      by lia.
    exact Ht2.
Qed.

Lemma merge_next_dll s l1 b nb l2 base lim :
  dll (heap s) None (l1 ++ b :: nb :: l2) None →
  tiles base (l1 ++ b :: nb :: l2) lim →
  lim - base < 2 ^ 64 →
  ∃ s', merge_next (Some (addr b)) s = Ok (Some (addr b), s')
    ∧ dll (heap s') None (l1 ++ merged b nb :: l2) None
    ∧ tiles base (l1 ++ merged b nb :: l2) lim
    ∧ same_globals s s' ∧ mem s' = mem s.
Proof.
  intros Hd Ht Hlim.
  pose proof (tiles_split _ _ _ _ _ Ht)
    as (Hlo & Hhi & Hpos & Ht1 & Ht2 & Hbefore & Hafter).
  cbn [tiles] in Ht2. destruct Ht2 as (Hab & Hposb & Ht2).
  destruct (tiles_bounds _ _ _ Ht2) as [Hle2 Hall2].
  apply dll_app in Hd as [Hd1 [Hb [Hnb Hd2]]]. cbn [hd_addr] in Hd1, Hb.
  eexists. split.
  { eapply merge_next_ok; try eassumption; try (consts; lia).
    intros n Hn. apply hd_addr_Some_inv in Hn as (c & l' & -> & <-).
    specialize (Hall2 c ltac:(left)). destruct Hd2 as [Hc _].
    consts. repeat split; [lia | lia | eauto]. }
  cbn [heap mem set_heap linked_list next_node heap_size allocate stderr].
  assert (Hfresh : hd_addr l2 None ≠ Some (addr b)).
  { intros Hn. apply hd_addr_Some_inv in Hn as (x & l' & -> & Hx).
    specialize (Hall2 x ltac:(left)). consts. lia. }
  split; [|split; [|split; [repeat split|reflexivity]]].
  - apply dll_app. split.
    + revert Hd1. apply dll_frame. intros c Hc. specialize (Hbefore c Hc).
      rewrite relink_prev_ne.
      * apply lookup_insert_ne. lia.
      * intros Hn. apply hd_addr_Some_inv in Hn as (x & l' & -> & Hx).
        specialize (Hall2 x ltac:(left)). consts. lia.
    + cbn [dll merged addr bfree bsize]. split.
      * rewrite relink_prev_ne by exact Hfresh. apply lookup_insert_eq.
      * apply dll_relink with (pv := Some (addr nb)).
        { intros x c l' -> Hc. eapply tiles_head_fresh; eauto. }
        revert Hd2. apply dll_insert_ne.
        intros c Hc. specialize (Hall2 c Hc). consts. lia.
  - apply tiles_app. exists (addr b). split; [exact Ht1|].
    cbn [tiles merged addr bsize]. repeat split; try (consts; lia).
    replace (addr b + sizeof_node_t + (bsize b + sizeof_node_t + bsize nb))
      with (addr b + sizeof_node_t + bsize b + sizeof_node_t + bsize nb)
      by lia.
    exact Ht2.
Qed.

(** * No two free neighbours *)

Lemma coalesced_app_cons l1 b l2 :
  coalesced (l1 ++ b :: l2) ↔ coalesced (l1 ++ [b]) ∧ coalesced (b :: l2).
Proof.
  induction l1 as [|x l1 IH].
  - cbn. tauto.
  - destruct l1 as [|y l1].
    + cbn. tauto.
    + change (coalesced ((x :: y :: l1) ++ b :: l2)) with
        (is_free x && is_free y = false ∧ coalesced ((y :: l1) ++ b :: l2)).
      change (coalesced ((x :: y :: l1) ++ [b])) with
        (is_free x && is_free y = false ∧ coalesced ((y :: l1) ++ [b])).
      rewrite IH. tauto.
Qed.

Lemma coalesced_cons_mono l b b' :
  (is_free b' = true → is_free b = true) →
  coalesced (b :: l) → coalesced (b' :: l).
Proof.
  intros Himp. cbn [coalesced]. intros [Hx Hl]. split; [|exact Hl].
  destruct l as [|y l]; [exact I|].
  destruct (is_free b'); [|reflexivity].
  rewrite Himp in Hx; [exact Hx|reflexivity].
Qed.

Lemma coalesced_snoc_mono l b b' :
  (is_free b' = true → is_free b = true) →
  coalesced (l ++ [b]) → coalesced (l ++ [b']).
Proof.
  intros Himp. induction l as [|x l IH]; [cbn; tauto|].
  destruct l as [|y l].
  - cbn. intros [Hx _]. split; [|tauto].
    destruct (is_free b'); [|apply andb_false_r].
    rewrite Himp in Hx; [exact Hx|reflexivity].
  - change (coalesced ((x :: y :: l) ++ [b])) with
      (is_free x && is_free y = false ∧ coalesced ((y :: l) ++ [b])).
    change (coalesced ((x :: y :: l) ++ [b'])) with
      (is_free x && is_free y = false ∧ coalesced ((y :: l) ++ [b'])).
    tauto.
Qed.

Lemma coalesced_tail b l : coalesced (b :: l) → coalesced l.
Proof. cbn [coalesced]. tauto. Qed.

Lemma coalesced_init l b : coalesced (l ++ [b]) → coalesced l.
Proof.
  intros H. destruct l as [|x l]; [exact I|].
  assert (H' : coalesced ((x :: l) ++ b :: [])) by exact H.
  clear H. revert x H'. induction l as [|y l IH]; intros x H.
  - cbn. tauto.
  - change (is_free x && is_free y = false ∧ coalesced ((y :: l) ++ [b])) in H.
    destruct H as [Hx Hl]. split; [exact Hx|]. apply IH. exact Hl.
Qed.

Lemma coalesced_cons_busy b l :
  is_free b = false → coalesced l → coalesced (b :: l).
Proof.
  intros Hb Hl. cbn [coalesced]. split; [|exact Hl].
  destruct l; [exact I|]. rewrite Hb. reflexivity.
Qed.

(** ** Reading the store through the sequence *)

Lemma dll_mid h l1 b l2 :
  dll h None (l1 ++ b :: l2) None →
  h !! addr b = Some (Node (hd_addr l2 None) (last_addr None l1) (bfree b)
                        (bsize b)).
Proof. intros H. apply dll_app in H as [_ [H _]]. exact H. Qed.

Lemma dll_set_free h l1 b l2 base lim v :
  dll h None (l1 ++ b :: l2) None →
  tiles base (l1 ++ b :: l2) lim →
  dll (<[addr b := Node (hd_addr l2 None) (last_addr None l1) v (bsize b)]> h)
      None (l1 ++ Block (addr b) v (bsize b) :: l2) None
  ∧ tiles base (l1 ++ Block (addr b) v (bsize b) :: l2) lim.
Proof.
  intros Hd Ht.
  pose proof (tiles_split _ _ _ _ _ Ht)
    as (Hlo & Hhi & Hpos & Ht1 & Ht2 & Hbefore & Hafter).
  apply dll_app in Hd as [Hd1 [Hb Hd2]]. cbn [hd_addr] in Hd1.
  split.
  - apply dll_app. split.
    + revert Hd1. apply dll_insert_ne. intros c Hc.
      specialize (Hbefore c Hc). lia.
    + cbn [dll addr bfree bsize]. split; [apply lookup_insert_eq|].
      revert Hd2. apply dll_insert_ne. intros c Hc.
      specialize (Hafter c Hc). consts. lia.
  - apply tiles_app. exists (addr b). split; [exact Ht1|].
    cbn [tiles addr bsize]. repeat split; try lia. exact Ht2.
Qed.

Lemma bind_ok {A B} (m : M A) (k : A → M B) s a s' :
  m s = Ok (a, s') → bind m k s = k a s'.
Proof. intros H. unfold bind. rewrite H. reflexivity. Qed.

(** * The two stages of deallocate *)

Lemma stage_prev s l1 b l2 base lim :
  dll (heap s) None (l1 ++ b :: l2) None →
  tiles base (l1 ++ b :: l2) lim →
  lim - base < 2 ^ 64 →
  let p := Some (addr b) in
  let l1' := (coalesce_prev l1 b).1 in
  let r := (coalesce_prev l1 b).2 in
  ∃ s',
    dll (heap s') None (l1' ++ r :: l2) None
    ∧ tiles base (l1' ++ r :: l2) lim
    ∧ next_node s' =
        (if prev_free l1 && bool_decide (next_node s = Some (addr b))
         then hd_addr l2 None else next_node s)
    ∧ linked_list s' = linked_list s ∧ heap_size s' = heap_size s
    ∧ allocate s' = allocate s ∧ stderr s' = stderr s ∧ mem s' = mem s
    ∧ ∀ B (k : ptr → M B),
        (pprev <- rd prev p ;;
         c <- andM (ret (nonnull pprev))
                   (f <- rd free pprev ;; ret (truthy f)) ;;
         p <- (if c then
                 nn <- get next_node ;;
                 (if bool_decide (nn = p) then
                    pnext <- rd next p ;; modify (set_next_node pnext)
                  else ret tt) ;;;
                 merge_prev p
               else ret p) ;;
         k p) s = k (Some (addr r)) s'.
Proof.
  intros Hd Ht Hlim p l1' r. subst p l1' r.
  unfold coalesce_prev, prev_free.
  induction l1 as [|pb l1 _] using rev_ind.
  - cbn [last fst snd app andb].
    exists s. repeat (split; [first [assumption|reflexivity]|]).
    intros B k. pose proof (dll_mid _ [] _ _ Hd) as Hb.
    rewrite last_addr_nil in Hb.
    unfold andM. steps. rewrite nonnull_None. steps. reflexivity.
  - rewrite last_snoc. rewrite <- app_assoc in Hd, Ht. cbn [app] in Hd, Ht.
    pose proof (dll_mid _ _ _ _ Hd) as Hpb. cbn [hd_addr] in Hpb.
    pose proof (dll_mid _ (l1 ++ [pb]) _ _ ltac:(rewrite <- app_assoc; exact Hd)) as Hb.
    rewrite last_addr_snoc in Hb.
    destruct (is_free pb) eqn:Hfree; cbn [fst snd andb].
    + rewrite removelast_last.
      destruct (bool_decide (next_node s = Some (addr b))) eqn:Hcur.
      * destruct (merge_prev_dll (set_next_node (hd_addr l2 None) s)
                    l1 pb b l2 base lim Hd Ht Hlim)
          as (s' & Heq & Hd' & Ht' & (G1 & G2 & G3 & G4 & G5) & Hm).
        exists s'. repeat (split; [first [assumption|reflexivity]|]).
        intros B k. unfold andM. steps. rewrite nonnull_Some. steps.
        fold (is_free pb). rewrite Hfree. steps. rewrite Hcur. steps.
        fold (set_next_node (hd_addr l2 None) s).
        rewrite (bind_ok _ _ _ _ _ Heq). reflexivity.
      * destruct (merge_prev_dll s l1 pb b l2 base lim Hd Ht Hlim)
          as (s' & Heq & Hd' & Ht' & (G1 & G2 & G3 & G4 & G5) & Hm).
        exists s'. repeat (split; [first [assumption|reflexivity]|]).
        intros B k. unfold andM. steps. rewrite nonnull_Some. steps.
        fold (is_free pb). rewrite Hfree. steps. rewrite Hcur. steps.
        rewrite (bind_ok _ _ _ _ _ Heq). reflexivity.
    + exists s. rewrite <- app_assoc. cbn [app].
      repeat (split; [first [assumption|reflexivity]|]).
      intros B k. unfold andM. steps. rewrite nonnull_Some. steps.
      fold (is_free pb). rewrite Hfree. steps. reflexivity.
Qed.

Lemma stage_next s l1 b l2 base lim :
  dll (heap s) None (l1 ++ b :: l2) None →
  tiles base (l1 ++ b :: l2) lim →
  lim - base < 2 ^ 64 →
  let p := Some (addr b) in
  ∃ s',
    dll (heap s') None (l1 ++ coalesce_next b l2) None
    ∧ tiles base (l1 ++ coalesce_next b l2) lim
    ∧ next_node s' = cursor_next (next_node s) l2
    ∧ linked_list s' = linked_list s ∧ heap_size s' = heap_size s
    ∧ allocate s' = allocate s ∧ stderr s' = stderr s ∧ mem s' = mem s
    ∧ (pnext <- rd next p ;;
       c <- andM (ret (nonnull pnext))
                 (f <- rd free pnext ;; ret (truthy f)) ;;
       if c then
         nn <- get next_node ;;
         pnext <- rd next p ;;
         (if bool_decide (nn = pnext) then
            nnext <- rd next pnext ;; modify (set_next_node nnext)
          else ret tt) ;;;
         merge_next p ;;;
         ret tt
       else ret tt) s = Ok (tt, s').
Proof.
  intros Hd Ht Hlim p. subst p.
  pose proof (dll_mid _ _ _ _ Hd) as Hb.
  destruct l2 as [|nb l2]; cbn [coalesce_next cursor_next hd_addr] in *.
  - exists s. repeat (split; [first [assumption|reflexivity]|]).
    unfold andM. steps. rewrite nonnull_None. steps. reflexivity.
  - pose proof (dll_mid _ (l1 ++ [b]) _ _
                  ltac:(rewrite <- app_assoc; exact Hd)) as Hnb.
    rewrite last_addr_snoc in Hnb.
    destruct (is_free nb) eqn:Hfree; cbn [andb].
    + destruct (bool_decide (next_node s = Some (addr nb))) eqn:Hcur.
      * destruct (merge_next_dll (set_next_node (hd_addr l2 None) s)
                    l1 b nb l2 base lim Hd Ht Hlim)
          as (s' & Heq & Hd' & Ht' & (G1 & G2 & G3 & G4 & G5) & Hm).
        exists s'. repeat (split; [first [assumption|reflexivity]|]).
        unfold andM. steps. rewrite nonnull_Some. steps.
        fold (is_free nb). rewrite Hfree. steps. rewrite Hcur. steps.
        fold (set_next_node (hd_addr l2 None) s).
        rewrite (bind_ok _ _ _ _ _ Heq). reflexivity.
      * destruct (merge_next_dll s l1 b nb l2 base lim Hd Ht Hlim)
          as (s' & Heq & Hd' & Ht' & (G1 & G2 & G3 & G4 & G5) & Hm).
        exists s'. repeat (split; [first [assumption|reflexivity]|]).
        unfold andM. steps. rewrite nonnull_Some. steps.
        fold (is_free nb). rewrite Hfree. steps. rewrite Hcur. steps.
        rewrite (bind_ok _ _ _ _ _ Heq). reflexivity.
    + exists s. repeat (split; [first [assumption|reflexivity]|]).
      unfold andM. steps. rewrite nonnull_Some. steps.
      fold (is_free nb). rewrite Hfree. steps. reflexivity.
Qed.

(** * Release, on the sequence *)

Lemma coalesce_next_shape r l2 :
  ∃ r' tl, coalesce_next r l2 = r' :: tl
           ∧ is_free r' = is_free r ∧ addr r' = addr r.
Proof.
  destruct l2 as [|nb l2]; cbn [coalesce_next]; [eauto|].
  destruct (is_free nb); eauto.
Qed.

Lemma coalesce_prev_shape l1 b pre r :
  coalesce_prev l1 b = (pre, r) →
  (pre = l1 ∧ r = b ∧ prev_free l1 = false)
  ∨ ∃ pb, l1 = pre ++ [pb] ∧ r = merged pb b
          ∧ is_free pb = true ∧ prev_free l1 = true.
Proof.
  unfold coalesce_prev, prev_free.
  induction l1 as [|pb l1 _] using rev_ind; [intros [= <- <-]; left; auto|].
  rewrite last_snoc. destruct (is_free pb) eqn:E; intros [= <- <-]; [right|left; auto].
  exists pb. rewrite removelast_last. auto.
Qed.

Lemma coalesced_prev l1 b :
  coalesced l1 → 
  coalesced ((coalesce_prev l1 b).1 ++ [(coalesce_prev l1 b).2]).
Proof.
  intros Hc. unfold coalesce_prev.
  induction l1 as [|pb l1 _] using rev_ind; [cbn; tauto|].
  rewrite last_snoc. destruct (is_free pb) eqn:E; cbn [fst snd].
  - rewrite removelast_last. revert Hc. apply coalesced_snoc_mono.
    intros _. exact E.
  - rewrite <- app_assoc. cbn [app]. apply coalesced_app_cons. split; [exact Hc|].
    cbn [coalesced]. rewrite E. repeat split.
Qed.

Lemma coalesced_next r l2 : coalesced l2 → coalesced (coalesce_next r l2).
Proof.
  intros Hc. destruct l2 as [|nb l2]; cbn [coalesce_next]; [cbn; tauto|].
  destruct (is_free nb) eqn:E.
  - revert Hc. apply coalesced_cons_mono. intros _. exact E.
  - apply coalesced_app_cons with (l1 := [r]). split; [|exact Hc].
    cbn [app coalesced]. rewrite E, andb_false_r. repeat split.
Qed.

Lemma coalesced_release l1 b l2 :
  coalesced (l1 ++ b :: l2) → coalesced (release l1 b l2).
Proof.
  intros H. apply coalesced_app_cons in H as [H1 H2].
  apply coalesced_init in H1. apply coalesced_tail in H2.
  unfold release.
  destruct (coalesce_next_shape (coalesce_prev l1 (freed b)).2 l2)
    as (r' & tl & Heq & Hf & _).
  pose proof (coalesced_next (coalesce_prev l1 (freed b)).2 l2 H2) as Hn.
  rewrite Heq in *. apply coalesced_app_cons. split; [|exact Hn].
  pose proof (coalesced_prev l1 (freed b) H1) as Hp.
  revert Hp. apply coalesced_snoc_mono. rewrite Hf. tauto.
Qed.

Lemma on_list_nil p : on_list p [] ↔ False.
Proof. split; [|tauto]. intros (b & Hb & _). inversion Hb. Qed.

Lemma on_list_cons p x l :
  on_list p (x :: l) ↔ p = Some (addr x) ∨ on_list p l.
Proof.
  unfold on_list. split.
  - intros (b & Hb & ->). apply elem_of_cons in Hb as [->|Hb]; eauto.
  - intros [->|(b & Hb & ->)].
    + exists x. split; [left|reflexivity].
    + exists b. split; [right; exact Hb|reflexivity].
Qed.

Lemma on_list_app p l1 l2 :
  on_list p (l1 ++ l2) ↔ on_list p l1 ∨ on_list p l2.
Proof.
  induction l1 as [|x l1 IH]; cbn [app].
  - rewrite on_list_nil. tauto.
  - rewrite !on_list_cons, IH. tauto.
Qed.

Lemma cursor_ok_hd l : cursor_ok (hd_addr l None) l.
Proof.
  destruct l as [|x l]; [left; reflexivity|].
  right. apply on_list_cons. left. reflexivity.
Qed.

Lemma hd_addr_release l1 b l2 :
  hd_addr (release l1 b l2) None = hd_addr (l1 ++ b :: l2) None.
Proof.
  unfold release.
  destruct (coalesce_prev l1 (freed b)) as [pre r] eqn:E. cbn [fst snd].
  destruct (coalesce_next_shape r l2) as (r' & tl & -> & _ & Ha).
  rewrite !hd_addr_app. cbn [hd_addr]. rewrite Ha.
  destruct (coalesce_prev_shape _ _ _ _ E)
    as [(-> & -> & _)|(pb & -> & -> & _)].
  - reflexivity.
  - rewrite hd_addr_app. reflexivity.
Qed.

Lemma release_nonempty l1 b l2 : release l1 b l2 ≠ [].
Proof.
  unfold release.
  destruct (coalesce_prev l1 (freed b)) as [pre r]. cbn [fst snd].
  destruct (coalesce_next_shape r l2) as (r' & tl & -> & _ & _).
  intros H. apply app_eq_nil in H as [_ H]. discriminate.
Qed.

Lemma cursor_ok_release c l1 b l2 :
  cursor_ok c (l1 ++ b :: l2) →
  cursor_ok (release_cursor c l1 b l2) (release l1 b l2).
Proof.
  unfold release, release_cursor, cursor_ok.
  destruct (coalesce_prev l1 (freed b)) as [pre r] eqn:E. cbn [fst snd].
  intros [->|Hc].
  { rewrite andb_false_r. destruct l2 as [|nb l2]; cbn [cursor_next]; [auto|].
    rewrite andb_false_r. auto. }
  apply on_list_app in Hc. rewrite on_list_cons in Hc.
  destruct (coalesce_prev_shape _ _ _ _ E)
    as [(-> & -> & ->)|(pb & -> & -> & Hpb & ->)]; cbn [andb].
  - destruct l2 as [|nb l2]; cbn [cursor_next coalesce_next].
    + right. rewrite on_list_app, on_list_cons. tauto.
    + destruct (is_free nb); cbn [andb].
      * case_bool_decide as Hnb.
        -- destruct (cursor_ok_hd l2) as [->|H]; [auto|right].
           rewrite on_list_app, on_list_cons. tauto.
        -- right. rewrite on_list_app, on_list_cons.
           rewrite on_list_cons in Hc. cbn [merged freed addr]. tauto.
      * right. rewrite on_list_app, !on_list_cons.
        rewrite on_list_cons in Hc. cbn [freed addr]. tauto.
  - rewrite on_list_app, on_list_cons, on_list_nil in Hc.
    destruct l2 as [|nb l2]; cbn [cursor_next coalesce_next hd_addr].
    + case_bool_decide as Hb; [auto|right].
      rewrite on_list_app, on_list_cons, on_list_nil. cbn [merged addr].
      rewrite on_list_nil in Hc. tauto.
    + rewrite on_list_cons in Hc.
      destruct (decide (c = Some (addr b))) as [Hb|Hb];
        [rewrite (bool_decide_eq_true_2 _ Hb)
        |rewrite (bool_decide_eq_false_2 _ Hb)].
      * rewrite bool_decide_eq_true_2 by reflexivity.
        destruct (is_free nb); cbn [andb].
        -- destruct (cursor_ok_hd l2) as [->|H]; [auto|right].
           rewrite on_list_app, on_list_cons. tauto.
        -- right. rewrite on_list_app, !on_list_cons. tauto.
      * destruct (is_free nb); cbn [andb].
        -- case_bool_decide as Hnb.
           ++ destruct (cursor_ok_hd l2) as [->|H]; [auto|right].
              rewrite on_list_app, on_list_cons. tauto.
           ++ right. rewrite on_list_app, on_list_cons.
              cbn [merged addr]. tauto.
        -- right. rewrite on_list_app, !on_list_cons.
           cbn [merged addr]. tauto.
Qed.

(** * deallocate on a busy block *)

Lemma truthy_false z : truthy z = false → z = 0.
Proof. unfold truthy. intros H. apply negb_false_iff, Z.eqb_eq in H. exact H. Qed.

Lemma Inv_base s l :
  Inv s l → linked_list s = Some (uintptr (linked_list s)).
Proof.
  intros [Hh Hne _ _ _ _ _ _]. rewrite Hh. destruct l; [congruence|reflexivity].
Qed.

Lemma deallocate_busy s l1 b l2 :
  Inv s (l1 ++ b :: l2) → is_free b = false →
  ∃ s', deallocate (Some (addr b + sizeof_node_t)) s = Ok (tt, s')
    ∧ Inv s' (release l1 b l2)
    ∧ next_node s' = release_cursor (next_node s) l1 b l2
    ∧ linked_list s' = linked_list s ∧ heap_size s' = heap_size s
    ∧ allocate s' = allocate s ∧ stderr s' = stderr s ∧ mem s' = mem s.
Proof.
  intros HI Hbusy. pose proof (Inv_base _ _ HI) as Hll.
  destruct HI as [Hh Hne Hd Ht Hbase Hlim Hco Hcur].
  set (base := uintptr (linked_list s)) in *.
  pose proof (tiles_split _ _ _ _ _ Ht) as (Hlo & Hhi & Hpos & _).
  pose proof (dll_mid _ _ _ _ Hd) as Hb.
  apply truthy_false in Hbusy as Hfree0.
  destruct (dll_set_free _ _ _ _ _ _ 1 Hd Ht) as [Hd1 Ht1].
  set (s1 := set_heap (<[addr b := Node (hd_addr l2 None) (last_addr None l1)
                                        1 (bsize b)]> (heap s)) s).
  assert (Hlim' : base + heap_size s - base < 2 ^ 64) by lia.
  destruct (stage_prev s1 l1 (freed b) l2 base _ Hd1 Ht1 Hlim')
    as (s2 & Hd2 & Ht2 & Hc2 & L2 & S2 & A2 & E2 & M2 & Hk).
  unfold release, release_cursor.
  destruct (coalesce_prev l1 (freed b)) as [pre r] eqn:E. cbn [fst snd] in *.
  destruct (stage_next s2 pre r l2 base _ Hd2 Ht2 Hlim')
    as (s3 & Hd3 & Ht3 & Hc3 & L3 & S3 & A3 & E3 & M3 & Hk3).
  exists s3. split.
  { unfold deallocate. rewrite bind_get, Hll. repeat step0.
    rewrite nonnull_Some. repeat step0.
    rewrite bind_assert.
    2:{ cbn [uintptr default id].
        rewrite wrap_small by (consts; lia). apply andb_true_iff.
        split; [apply Z.leb_le|apply Z.ltb_lt]; consts; lia. }
    replace (header_of (Some (addr b + sizeof_node_t))) with (Some (addr b))
      by (unfold header_of; cbn; f_equal; lia).
    repeat step0. cbn [free]. rewrite Hfree0. cbn [truthy Z.eqb negb].
    erewrite bind_wr by eassumption.
    etransitivity; [apply Hk|]. exact Hk3. }
  split.
  { constructor.
    - rewrite L3, L2. cbn [s1 set_heap linked_list]. rewrite Hh.
      pose proof (hd_addr_release l1 b l2) as Hr. unfold release in Hr.
      rewrite E in Hr. symmetry. exact Hr.
    - pose proof (release_nonempty l1 b l2) as Hr. unfold release in Hr.
      rewrite E in Hr. exact Hr.
    - exact Hd3.
    - rewrite L3, L2, S3, S2. exact Ht3.
    - rewrite L3, L2. exact Hbase.
    - rewrite L3, L2, S3, S2. exact Hlim.
    - pose proof (coalesced_release l1 b l2 Hco) as Hr. unfold release in Hr.
      rewrite E in Hr. exact Hr.
    - rewrite Hc3, Hc2.
      pose proof (cursor_ok_release _ l1 b l2 Hcur) as Hr.
      unfold release, release_cursor in Hr. rewrite E in Hr. exact Hr. }
  rewrite Hc3, Hc2, L3, L2, S3, S2, A3, A2, E3, E2, M3, M2.
  repeat split.
Qed.

(** * Allocation keeps the invariant *)

Lemma split_block_shape b n :
  ∃ tl, split_block b n = Block (addr b) 0 (zeroed_len b n) :: tl
        ∧ Forall (λ c, is_free c = true) tl.
Proof.
  unfold split_block, zeroed_len.
  destruct (sizeof_node_t + MINIMUM_FREE_BLOCK <=? bsize b - n); eauto.
Qed.

Lemma coalesced_split l1 b l2 n :
  coalesced (l1 ++ b :: l2) → is_free b = true →
  coalesced (l1 ++ split_block b n ++ l2).
Proof.
  intros H Hfree. apply coalesced_app_cons in H as [H1 H2].
  unfold split_block.
  destruct (sizeof_node_t + MINIMUM_FREE_BLOCK <=? bsize b - n);
    cbn [app]; apply coalesced_app_cons; split.
  - revert H1. apply coalesced_snoc_mono. discriminate.
  - apply coalesced_cons_busy; [reflexivity|].
    revert H2. apply coalesced_cons_mono. intros _. exact Hfree.
  - revert H1. apply coalesced_snoc_mono. discriminate.
  - revert H2. apply coalesced_cons_mono. discriminate.
Qed.

Lemma on_list_split p l1 b l2 n :
  on_list p (l1 ++ b :: l2) → on_list p (l1 ++ split_block b n ++ l2).
Proof.
  destruct (split_block_shape b n) as (tl & -> & _).
  cbn [app]. rewrite !on_list_app, !on_list_cons, on_list_app. cbn [addr]. tauto.
Qed.

Lemma hd_addr_split l1 b l2 n :
  hd_addr (l1 ++ split_block b n ++ l2) None = hd_addr (l1 ++ b :: l2) None.
Proof.
  destruct (split_block_shape b n) as (tl & -> & _).
  rewrite !hd_addr_app. reflexivity.
Qed.

Lemma Inv_allocate_node s l1 b l2 n :
  Inv s (l1 ++ b :: l2) → is_free b = true → 0 < n → n ≤ bsize b →
  ∃ s', allocate_node (Some (addr b)) n s = Ok (Some (addr b), s')
    ∧ Inv s' (l1 ++ split_block b n ++ l2)
    ∧ same_globals s s'
    ∧ mem s' = fill (addr b + sizeof_node_t) 0 (zeroed_len b n) (mem s).
Proof.
  intros [Hh Hne Hd Ht Hbase Hlim Hco Hcur] Hfree Hn Hle.
  destruct (allocate_node_dll s l1 b l2 _ _ n Hd Ht ltac:(lia) Hn Hle)
    as (s' & Heq & Hd' & Ht' & HG & Hm).
  exists s'. split; [exact Heq|]. split; [|split; assumption].
  destruct HG as (G1 & G2 & G3 & G4 & G5).
  constructor.
  - rewrite G1, hd_addr_split. exact Hh.
  - destruct (split_block_shape b n) as (tl & -> & _).
    intros H. apply app_eq_nil in H as [_ H]. discriminate.
  - exact Hd'.
  - rewrite G1, G3. exact Ht'.
  - rewrite G1. exact Hbase.
  - rewrite G1, G3. exact Hlim.
  - apply coalesced_split; assumption.
  - rewrite G2. destruct Hcur as [->|Hc]; [left; reflexivity|right].
    apply on_list_split. exact Hc.
Qed.

(** * First fit *)

Lemma fits_ok s a nd n (b : block) :
  heap s !! a = Some nd → free nd = bfree b → size nd = bsize b →
  fits (Some a) n s = Ok (fits_block n b, s).
Proof.
  intros H Hf Hs. unfold fits, andM, fits_block, is_free.
  repeat step0. cbn [free size]. rewrite Hf.
  destruct (truthy (bfree b)); repeat step0; cbn [andb size];
    rewrite ?Hs; reflexivity.
Qed.

Lemma first_fit_loop_miss s pv l n fuel :
  dll (heap s) pv l None →
  Forall (λ b, fits_block n b = false) l →
  (length l < fuel)%nat →
  first_fit_loop fuel (hd_addr l None) n s = Ok (None, s).
Proof.
  revert pv fuel. induction l as [|b l IH]; intros pv fuel Hd Hall Hfuel;
    (destruct fuel as [|fuel]; [cbn in Hfuel; lia|]); cbn [first_fit_loop hd_addr].
  - reflexivity.
  - destruct Hd as [Hb Hd]. apply Forall_cons in Hall as [Hb' Hall].
    rewrite nonnull_Some.
    erewrite bind_ok by (eapply fits_ok with (b := b); [exact Hb|reflexivity..]).
    rewrite Hb'. repeat step0. cbn [next].
    eapply IH; [exact Hd|exact Hall|cbn in Hfuel; lia].
Qed.

Lemma first_fit_loop_hit s pv la b lb n fuel :
  dll (heap s) pv (la ++ b :: lb) None →
  Forall (λ b, fits_block n b = false) la →
  fits_block n b = true →
  (length la < fuel)%nat →
  first_fit_loop fuel (hd_addr (la ++ b :: lb) None) n s =
  (allocate_node (Some (addr b)) n ;;; ret (memory_at (Some (addr b)) 0)) s.
Proof.
  revert pv fuel. induction la as [|x la IH]; intros pv fuel Hd Hall Hfit Hfuel;
    (destruct fuel as [|fuel]; [cbn in Hfuel; lia|]);
    cbn [first_fit_loop hd_addr app]; destruct Hd as [Hb Hd];
    rewrite nonnull_Some.
  - erewrite bind_ok by (eapply fits_ok with (b := b); [exact Hb|reflexivity..]).
    rewrite Hfit. reflexivity.
  - apply Forall_cons in Hall as [Hx Hall].
    erewrite bind_ok by (eapply fits_ok with (b := x); [exact Hb|reflexivity..]).
    rewrite Hx. repeat step0. cbn [next].
    eapply IH; [exact Hd|exact Hall|exact Hfit|cbn in Hfuel; lia].
Qed.

Lemma fits_block_true n b :
  fits_block n b = true ↔ is_free b = true ∧ n ≤ bsize b.
Proof.
  unfold fits_block. rewrite andb_true_iff, Z.leb_le. tauto.
Qed.

Lemma Inv_nonnull s l : Inv s l → nonnull (linked_list s) = true.
Proof. intros H. rewrite (Inv_base _ _ H). reflexivity. Qed.

Lemma allocate_first_fit_miss s l n fuel :
  Inv s l → 0 < n →
  Forall (λ b, fits_block n b = false) l →
  (length l < fuel)%nat →
  allocate_first_fit fuel n s = Ok (None, s).
Proof.
  intros HI Hn Hall Hfuel. unfold allocate_first_fit.
  rewrite bind_assert by (apply Z.ltb_lt; lia).
  rewrite bind_get, (bind_assert _ _ _ (Inv_nonnull _ _ HI)).
  rewrite (inv_head _ _ HI).
  eapply first_fit_loop_miss; eauto using inv_dll.
Qed.

Lemma allocate_first_fit_hit s l1 b l2 n fuel :
  Inv s (l1 ++ b :: l2) → 0 < n →
  Forall (λ b, fits_block n b = false) l1 →
  fits_block n b = true →
  (length l1 < fuel)%nat →
  ∃ s', allocate_first_fit fuel n s = Ok (Some (addr b + sizeof_node_t), s')
    ∧ Inv s' (l1 ++ split_block b n ++ l2)
    ∧ same_globals s s'
    ∧ mem s' = fill (addr b + sizeof_node_t) 0 (zeroed_len b n) (mem s).
Proof.
  intros HI Hn Hall Hfit Hfuel.
  apply fits_block_true in Hfit as Hfit'. destruct Hfit' as [Hfree Hle].
  destruct (Inv_allocate_node s l1 b l2 n HI Hfree Hn Hle)
    as (s' & Heq & HI' & HG & Hm).
  exists s'. split; [|auto].
  unfold allocate_first_fit.
  rewrite bind_assert by (apply Z.ltb_lt; lia).
  rewrite bind_get, (bind_assert _ _ _ (Inv_nonnull _ _ HI)).
  rewrite (inv_head _ _ HI).
  erewrite first_fit_loop_hit; eauto using inv_dll.
  rewrite (bind_ok _ _ _ _ _ Heq). unfold memory_at, ret. cbn.
  rewrite Z.add_0_r. reflexivity.
Qed.

(** * Next fit *)

Lemma dll_ring h ll pv l nx e :
  dll h pv l nx → wrap_to ll nx = e → ring h ll l e.
Proof.
  revert pv. induction l as [|b l IH]; intros pv Hd He; [exact I|].
  destruct Hd as [Hb Hd]. split; [|eapply IH; eauto].
  eexists. split; [exact Hb|]. cbn [free size next]. repeat split.
  destruct l as [|c l]; cbn [hd_addr]; [exact He|reflexivity].
Qed.

Lemma ring_app h ll l1 l2 e :
  ring h ll l1 (hd_addr l2 e) → ring h ll l2 e → ring h ll (l1 ++ l2) e.
Proof.
  induction l1 as [|b l1 IH]; cbn [app ring]; [tauto|].
  intros [Hb H1] H2. rewrite hd_addr_app. split; [exact Hb|auto].
Qed.

Lemma ring_rotation h l1 l2 :
  dll h None (l1 ++ l2) None → l2 ≠ [] →
  ring h (hd_addr (l1 ++ l2) None) (l2 ++ l1) (hd_addr l2 None).
Proof.
  intros Hd Hne. apply dll_app in Hd as [Hd1 Hd2].
  apply ring_app.
  - eapply dll_ring; [exact Hd2|]. unfold wrap_to. cbn.
    rewrite hd_addr_app. destruct l1; [|reflexivity].
    destruct l2; [congruence|reflexivity].
  - eapply dll_ring; [exact Hd1|]. unfold wrap_to.
    destruct l2; [congruence|reflexivity].
Qed.

Lemma next_fit_loop_miss s l posn n fuel :
  ring (heap s) (linked_list s) l posn →
  l ≠ [] →
  Forall (λ b, fits_block n b = false) l →
  (∀ c, c ∈ tail l → Some (addr c) ≠ posn) →
  (length l ≤ fuel)%nat →
  next_fit_loop fuel (hd_addr l posn) posn n s = Ok (None, s).
Proof.
  revert fuel. induction l as [|b l IH]; intros fuel Hr Hne Hall Hfresh Hfuel;
    [congruence|].
  destruct fuel as [|fuel]; [cbn in Hfuel; lia|].
  destruct Hr as [(nd & Hb & Hf & Hs & Hnx) Hr].
  apply Forall_cons in Hall as [Hb' Hall].
  cbn [next_fit_loop hd_addr].
  erewrite bind_ok by (eapply fits_ok; eassumption).
  rewrite Hb'. repeat step0. fold (wrap_to (linked_list s) (next nd)).
  rewrite Hnx. destruct l as [|c l]; cbn [hd_addr].
  - rewrite bool_decide_eq_false_2 by (intros H; apply H; reflexivity).
    reflexivity.
  - rewrite bool_decide_eq_true_2 by (apply Hfresh; left).
    apply (IH fuel Hr); [discriminate|exact Hall| |cbn in *; lia].
    intros x Hx. apply Hfresh. right. exact Hx.
Qed.

Lemma next_fit_loop_hit s la b lb posn n fuel :
  ring (heap s) (linked_list s) (la ++ b :: lb) posn →
  Forall (λ b, fits_block n b = false) la →
  fits_block n b = true →
  (∀ c, c ∈ tail (la ++ [b]) → Some (addr c) ≠ posn) →
  (length la < fuel)%nat →
  next_fit_loop fuel (hd_addr (la ++ b :: lb) posn) posn n s =
  (allocate_node (Some (addr b)) n ;;;
   pnext <- rd next (Some (addr b)) ;;
   modify (set_next_node pnext) ;;;
   ret (memory_at (Some (addr b)) 0)) s.
Proof.
  revert fuel. induction la as [|x la IH]; intros fuel Hr Hall Hfit Hfresh Hfuel;
    (destruct fuel as [|fuel]; [cbn in Hfuel; lia|]);
    cbn [next_fit_loop hd_addr app];
    destruct Hr as [(nd & Hb & Hf & Hs & Hnx) Hr].
  - erewrite bind_ok by (eapply fits_ok; eassumption).
    rewrite Hfit. reflexivity.
  - apply Forall_cons in Hall as [Hx Hall].
    erewrite bind_ok by (eapply fits_ok; eassumption).
    rewrite Hx. repeat step0. fold (wrap_to (linked_list s) (next nd)).
    rewrite Hnx.
    assert (Hhd : hd_addr (la ++ b :: lb) posn
                  = Some (addr (default b (head (la ++ [b]))))).
    { destruct la; reflexivity. }
    rewrite bool_decide_eq_true_2.
    + apply (IH fuel Hr Hall Hfit); [|cbn in *; lia].
      intros c Hc. apply Hfresh. cbn [app tail].
      destruct la; cbn [app tail] in *; right; exact Hc.
    + rewrite Hhd. apply Hfresh. cbn [app tail]. destruct la; left.
Qed.

Lemma Inv_set_next_node s l p :
  Inv s l → cursor_ok p l → Inv (set_next_node p s) l.
Proof.
  intros [Hh Hne Hd Ht Hbase Hlim Hco Hcur] Hp.
  constructor; assumption.
Qed.

Lemma rotation_fresh base l1 l2 lim c :
  tiles base (l1 ++ l2) lim → c ∈ tail (l2 ++ l1) →
  Some (addr c) ≠ hd_addr l2 None.
Proof.
  intros Ht Hc. destruct l2 as [|b0 l2].
  - discriminate.
  - cbn [app tail hd_addr] in *.
    pose proof (tiles_split _ _ _ _ _ Ht) as (_ & _ & Hpos & _ & _ & Hb & Ha).
    intros [= Heq]. apply elem_of_app in Hc as [Hc|Hc].
    + specialize (Ha c Hc). consts. lia.
    + specialize (Hb c Hc). lia.
Qed.

Lemma tail_prefix_elem (ra : list block) b rb c :
  c ∈ tail (ra ++ [b]) → c ∈ tail (ra ++ b :: rb).
Proof.
  destruct ra as [|x ra]; cbn [app tail].
  - intros H. inversion H.
  - rewrite !elem_of_app, !elem_of_cons. intros [H|[H|H]]; auto.
    inversion H.
Qed.

Lemma starts_at_wrap s l1 l2 :
  Inv s (l1 ++ l2) → starts_at s l1 l2 →
  wrap_to (linked_list s) (next_node s) = hd_addr l2 None.
Proof.
  intros HI [Hne [Hc|[Hc ->]]]; rewrite Hc; unfold wrap_to.
  - destruct l2; [congruence|reflexivity].
  - cbn. rewrite (inv_head _ _ HI). reflexivity.
Qed.

Lemma allocate_next_fit_miss s l1 l2 n fuel :
  Inv s (l1 ++ l2) → starts_at s l1 l2 → 0 < n →
  Forall (λ b, fits_block n b = false) (l1 ++ l2) →
  (length (l1 ++ l2) ≤ fuel)%nat →
  allocate_next_fit fuel n s = Ok (None, s).
Proof.
  intros HI Hst Hn Hall Hfuel. unfold allocate_next_fit.
  rewrite bind_assert by (apply Z.ltb_lt; lia).
  rewrite !bind_get. cbv zeta.
  fold (wrap_to (linked_list s) (next_node s)).
  rewrite (starts_at_wrap _ _ _ HI Hst). destruct Hst as [Hne _].
  rewrite bind_assert by (destruct l2; [congruence|reflexivity]).
  pose proof (ring_rotation _ _ _ (inv_dll _ _ HI) Hne) as Hr.
  rewrite <- (inv_head _ _ HI) in Hr.
  replace (hd_addr l2 None) with (hd_addr (l2 ++ l1) (hd_addr l2 None)) at 1
    by (destruct l2; [congruence|reflexivity]).
  apply next_fit_loop_miss; try assumption.
  - destruct l2; [congruence|discriminate].
  - apply Forall_app in Hall as [H1 H2]. apply Forall_app. tauto.
  - intros c Hc. eapply rotation_fresh; [exact (inv_tiles _ _ HI)|exact Hc].
  - rewrite length_app in *. lia.
Qed.

Lemma allocate_next_fit_hit s l1 l2 la b lb ra rb n fuel :
  Inv s (l1 ++ l2) → starts_at s l1 l2 → 0 < n →
  l1 ++ l2 = la ++ b :: lb →
  l2 ++ l1 = ra ++ b :: rb →
  Forall (λ b, fits_block n b = false) ra →
  fits_block n b = true →
  (length ra < fuel)%nat →
  ∃ s', allocate_next_fit fuel n s = Ok (Some (addr b + sizeof_node_t), s')
    ∧ Inv s' (la ++ split_block b n ++ lb)
    ∧ next_node s' = hd_addr (tail (split_block b n) ++ lb) None
    ∧ linked_list s' = linked_list s ∧ heap_size s' = heap_size s
    ∧ allocate s' = allocate s ∧ stderr s' = stderr s
    ∧ mem s' = fill (addr b + sizeof_node_t) 0 (zeroed_len b n) (mem s).
Proof.
  intros HI Hst Hn Hl Hrot Hall Hfit Hfuel.
  apply fits_block_true in Hfit as Hfit'. destruct Hfit' as [Hfree Hle].
  pose proof HI as HI0. rewrite Hl in HI.
  destruct (Inv_allocate_node s la b lb n HI Hfree Hn Hle)
    as (s' & Heq & HI' & (G1 & G2 & G3 & G4 & G5) & Hm).
  destruct (split_block_shape b n) as (tl & Hsh & _).
  rewrite Hsh in *. cbn [app tail] in *.
  pose proof (dll_mid _ _ _ _ (inv_dll _ _ HI')) as Hb'. cbn [addr] in Hb'.
  exists (set_next_node (hd_addr (tl ++ lb) None) s'). split.
  { unfold allocate_next_fit.
    rewrite bind_assert by (apply Z.ltb_lt; lia).
    rewrite !bind_get. cbv zeta.
    fold (wrap_to (linked_list s) (next_node s)).
    rewrite (starts_at_wrap _ _ _ HI0 Hst). destruct Hst as [Hne _].
    rewrite bind_assert by (destruct l2; [congruence|reflexivity]).
    pose proof (ring_rotation _ _ _ (inv_dll _ _ HI0) Hne) as Hr.
    rewrite <- (inv_head _ _ HI0), Hrot in Hr.
    replace (hd_addr l2 None) with (hd_addr (ra ++ b :: rb) (hd_addr l2 None))
      at 1 by (rewrite <- Hrot; destruct l2; [congruence|reflexivity]).
    rewrite next_fit_loop_hit; try assumption.
    - rewrite (bind_ok _ _ _ _ _ Heq). repeat step0. cbn [next].
      unfold memory_at, ret. cbn. rewrite Z.add_0_r. reflexivity.
    - intros c Hc. apply (rotation_fresh _ l1 l2 _ c (inv_tiles _ _ HI0)).
      rewrite Hrot. apply tail_prefix_elem. exact Hc. }
  split.
  { apply Inv_set_next_node; [exact HI'|].
    destruct (cursor_ok_hd (tl ++ lb)) as [->|H]; [left; reflexivity|right].
    rewrite on_list_app, on_list_cons. tauto. }
  cbn [set_next_node next_node linked_list heap_size allocate stderr mem heap].
  repeat split; assumption.
Qed.

(** * Best fit and worst fit *)

Lemma best_fit_loop_scan s pv l n sz cur fuel :
  dll (heap s) pv l None →
  (length l < fuel)%nat →
  best_fit_loop fuel (hd_addr l None) n sz (addr <$> cur) s =
  Ok (addr <$> best_scan n sz cur l, s).
Proof.
  revert pv fuel sz cur.
  induction l as [|b l IH]; intros pv fuel sz cur Hd Hfuel;
    (destruct fuel as [|fuel]; [cbn in Hfuel; lia|]);
    cbn [best_fit_loop best_scan hd_addr].
  - reflexivity.
  - destruct Hd as [Hb Hd]. rewrite nonnull_Some. unfold andM at 1.
    rewrite bind_assoc.
    erewrite bind_ok by (eapply fits_ok with (b := b); [exact Hb|reflexivity..]).
    destruct (fits_block n b); cbn [andb]; repeat step0; cbn [size next].
    + destruct (bsize b <? sz); repeat step0; cbn [size next].
      * apply (IH (Some (addr b)) fuel (bsize b) (Some b) Hd).
        cbn in Hfuel. lia.
      * apply (IH (Some (addr b)) fuel sz cur Hd). cbn in Hfuel. lia.
    + apply (IH (Some (addr b)) fuel sz cur Hd). cbn in Hfuel. lia.
Qed.

Lemma worst_fit_loop_scan s pv l sz cur fuel :
  dll (heap s) pv l None →
  (length l < fuel)%nat →
  worst_fit_loop fuel (hd_addr l None) sz (addr <$> cur) s =
  Ok (addr <$> worst_scan sz cur l, s).
Proof.
  revert pv fuel sz cur.
  induction l as [|b l IH]; intros pv fuel sz cur Hd Hfuel;
    (destruct fuel as [|fuel]; [cbn in Hfuel; lia|]);
    cbn [worst_fit_loop worst_scan hd_addr].
  - reflexivity.
  - destruct Hd as [Hb Hd]. rewrite nonnull_Some. unfold andM at 1.
    repeat step0. cbn [free size next]. fold (is_free b).
    destruct (is_free b); cbn [andb]; repeat step0; cbn [size next].
    + destruct (sz <? bsize b); repeat step0; cbn [size next].
      * apply (IH (Some (addr b)) fuel (bsize b) (Some b) Hd).
        cbn in Hfuel. lia.
      * apply (IH (Some (addr b)) fuel sz cur Hd). cbn in Hfuel. lia.
    + apply (IH (Some (addr b)) fuel sz cur Hd). cbn in Hfuel. lia.
Qed.

Lemma best_scan_None n sz cur l :
  best_scan n sz cur l = None →
  cur = None ∧ ∀ c, c ∈ l → fits_block n c = true → sz ≤ bsize c.
Proof.
  revert sz cur. induction l as [|b l IH]; intros sz cur; cbn [best_scan].
  - intros ->. split; [reflexivity|]. intros c Hc. inversion Hc.
  - destruct (fits_block n b) eqn:Hf; cbn [andb].
    + destruct (Z.ltb_spec (bsize b) sz) as [Hlt|Hge]; intros H.
      * apply IH in H as [[=] _].
      * apply IH in H as [-> H]. split; [reflexivity|].
        intros c Hc Hfc. apply elem_of_cons in Hc as [->|Hc]; auto.
    + intros H. apply IH in H as [-> H]. split; [reflexivity|].
      intros c Hc Hfc. apply elem_of_cons in Hc as [->|Hc]; [congruence|auto].
Qed.

Lemma best_scan_Some n sz cur l b :
  best_scan n sz cur l = Some b →
  (cur = Some b ∧ ∀ c, c ∈ l → fits_block n c = true → sz ≤ bsize c)
  ∨ ∃ l1 l2, l = l1 ++ b :: l2 ∧ fits_block n b = true ∧ bsize b < sz
      ∧ (∀ c, c ∈ l1 → fits_block n c = true → bsize b < bsize c)
      ∧ (∀ c, c ∈ l2 → fits_block n c = true → bsize b ≤ bsize c).
Proof.
  revert sz cur. induction l as [|x l IH]; intros sz cur; cbn [best_scan].
  - intros ->. left. split; [reflexivity|]. intros c Hc. inversion Hc.
  - destruct (fits_block n x) eqn:Hf; cbn [andb].
    + destruct (Z.ltb_spec (bsize x) sz) as [Hlt|Hge]; intros H.
      * apply IH in H as [[[= ->] H]|(l1 & l2 & -> & Hfb & Hlt' & H1 & H2)];
          right.
        -- exists [], l. repeat split; auto. intros c Hc. inversion Hc.
        -- exists (x :: l1), l2. repeat split; auto; [lia|].
           intros c Hc Hfc. apply elem_of_cons in Hc as [->|Hc]; auto.
      * apply IH in H as [[-> H]|(l1 & l2 & -> & Hfb & Hlt' & H1 & H2)].
        -- left. split; [reflexivity|]. intros c Hc Hfc.
           apply elem_of_cons in Hc as [->|Hc]; auto.
        -- right. exists (x :: l1), l2. repeat split; auto.
           intros c Hc Hfc. apply elem_of_cons in Hc as [->|Hc]; [lia|auto].
    + intros H.
      apply IH in H as [[-> H]|(l1 & l2 & -> & Hfb & Hlt' & H1 & H2)].
      * left. split; [reflexivity|]. intros c Hc Hfc.
        apply elem_of_cons in Hc as [->|Hc]; [congruence|auto].
      * right. exists (x :: l1), l2. repeat split; auto.
        intros c Hc Hfc. apply elem_of_cons in Hc as [->|Hc]; [congruence|auto].
Qed.

Lemma worst_scan_None sz cur l :
  worst_scan sz cur l = None →
  cur = None ∧ ∀ c, c ∈ l → is_free c = true → bsize c ≤ sz.
Proof.
  revert sz cur. induction l as [|b l IH]; intros sz cur; cbn [worst_scan].
  - intros ->. split; [reflexivity|]. intros c Hc. inversion Hc.
  - destruct (is_free b) eqn:Hf; cbn [andb].
    + destruct (Z.ltb_spec sz (bsize b)) as [Hlt|Hge]; intros H.
      * apply IH in H as [[=] _].
      * apply IH in H as [-> H]. split; [reflexivity|].
        intros c Hc Hfc. apply elem_of_cons in Hc as [->|Hc]; auto.
    + intros H. apply IH in H as [-> H]. split; [reflexivity|].
      intros c Hc Hfc. apply elem_of_cons in Hc as [->|Hc]; [congruence|auto].
Qed.

Lemma worst_scan_Some sz cur l b :
  worst_scan sz cur l = Some b →
  (cur = Some b ∧ ∀ c, c ∈ l → is_free c = true → bsize c ≤ sz)
  ∨ ∃ l1 l2, l = l1 ++ b :: l2 ∧ is_free b = true ∧ sz < bsize b
      ∧ (∀ c, c ∈ l1 → is_free c = true → bsize c < bsize b)
      ∧ (∀ c, c ∈ l2 → is_free c = true → bsize c ≤ bsize b).
Proof.
  revert sz cur. induction l as [|x l IH]; intros sz cur; cbn [worst_scan].
  - intros ->. left. split; [reflexivity|]. intros c Hc. inversion Hc.
  - destruct (is_free x) eqn:Hf; cbn [andb].
    + destruct (Z.ltb_spec sz (bsize x)) as [Hlt|Hge]; intros H.
      * apply IH in H as [[[= ->] H]|(l1 & l2 & -> & Hfb & Hlt' & H1 & H2)];
          right.
        -- exists [], l. repeat split; auto. intros c Hc. inversion Hc.
        -- exists (x :: l1), l2. repeat split; auto; [lia|].
           intros c Hc Hfc. apply elem_of_cons in Hc as [->|Hc]; auto.
      * apply IH in H as [[-> H]|(l1 & l2 & -> & Hfb & Hlt' & H1 & H2)].
        -- left. split; [reflexivity|]. intros c Hc Hfc.
           apply elem_of_cons in Hc as [->|Hc]; auto.
        -- right. exists (x :: l1), l2. repeat split; auto.
           intros c Hc Hfc. apply elem_of_cons in Hc as [->|Hc]; [lia|auto].
    + intros H.
      apply IH in H as [[-> H]|(l1 & l2 & -> & Hfb & Hlt' & H1 & H2)].
      * left. split; [reflexivity|]. intros c Hc Hfc.
        apply elem_of_cons in Hc as [->|Hc]; [congruence|auto].
      * right. exists (x :: l1), l2. repeat split; auto.
        intros c Hc Hfc. apply elem_of_cons in Hc as [->|Hc]; [congruence|auto].
Qed.

(** * What each allocator returns *)

Lemma first_fit_decide n l :
  Forall (λ b, fits_block n b = false) l
  ∨ ∃ l1 b l2, l = l1 ++ b :: l2
      ∧ Forall (λ b, fits_block n b = false) l1 ∧ fits_block n b = true.
Proof.
  induction l as [|x l IH]; [left; constructor|].
  destruct (fits_block n x) eqn:Hx.
  - right. exists [], x, l. repeat split; [constructor|exact Hx].
  - destruct IH as [IH|(l1 & b & l2 & -> & H1 & Hb)].
    + left. constructor; assumption.
    + right. exists (x :: l1), b, l2. repeat split; [constructor|]; assumption.
Qed.

Lemma Inv_size_lt s l b :
  Inv s l → b ∈ l → 0 < bsize b ∧ bsize b + sizeof_node_t ≤ heap_size s.
Proof.
  intros HI Hb.
  destruct (tiles_bounds _ _ _ (inv_tiles _ _ HI)) as [_ H].
  specialize (H b Hb). lia.
Qed.

Lemma allocate_first_fit_spec s l n fuel :
  Inv s l → 0 < n → (length l < fuel)%nat →
  (Forall (λ b, fits_block n b = false) l
   ∧ allocate_first_fit fuel n s = Ok (None, s))
  ∨ ∃ l1 b l2 s',
      l = l1 ++ b :: l2
      ∧ Forall (λ b, fits_block n b = false) l1 ∧ fits_block n b = true
      ∧ allocate_first_fit fuel n s = Ok (Some (addr b + sizeof_node_t), s')
      ∧ Inv s' (l1 ++ split_block b n ++ l2)
      ∧ same_globals s s'
      ∧ mem s' = fill (addr b + sizeof_node_t) 0 (zeroed_len b n) (mem s).
Proof.
  intros HI Hn Hfuel.
  destruct (first_fit_decide n l) as [Hall|(l1 & b & l2 & -> & H1 & Hb)].
  - left. split; [exact Hall|]. eapply allocate_first_fit_miss; eauto.
  - right.
    destruct (allocate_first_fit_hit s l1 b l2 n fuel HI Hn H1 Hb)
      as (s' & Heq & HI' & HG & Hm).
    { rewrite length_app in Hfuel. lia. }
    exists l1, b, l2, s'. auto 10.
Qed.

Lemma allocate_next_fit_spec s l1 l2 n fuel :
  Inv s (l1 ++ l2) → starts_at s l1 l2 → 0 < n →
  (length (l1 ++ l2) ≤ fuel)%nat →
  (Forall (λ b, fits_block n b = false) (l1 ++ l2)
   ∧ allocate_next_fit fuel n s = Ok (None, s))
  ∨ ∃ ra b rb la lb s',
      l2 ++ l1 = ra ++ b :: rb
      ∧ Forall (λ b, fits_block n b = false) ra ∧ fits_block n b = true
      ∧ l1 ++ l2 = la ++ b :: lb
      ∧ allocate_next_fit fuel n s = Ok (Some (addr b + sizeof_node_t), s')
      ∧ Inv s' (la ++ split_block b n ++ lb)
      ∧ next_node s' = hd_addr (tail (split_block b n) ++ lb) None
      ∧ linked_list s' = linked_list s ∧ heap_size s' = heap_size s
      ∧ allocate s' = allocate s ∧ stderr s' = stderr s
      ∧ mem s' = fill (addr b + sizeof_node_t) 0 (zeroed_len b n) (mem s).
Proof.
  intros HI Hst Hn Hfuel.
  destruct (first_fit_decide n (l2 ++ l1)) as [Hall|(ra & b & rb & Hrot & H1 & Hb)].
  - left. assert (Hall' : Forall (λ b, fits_block n b = false) (l1 ++ l2)).
    { apply Forall_app in Hall as [H1 H2]. apply Forall_app. tauto. }
    split; [exact Hall'|]. eapply allocate_next_fit_miss; eauto.
  - right.
    assert (Hin : b ∈ l1 ++ l2).
    { apply elem_of_app. assert (H : b ∈ l2 ++ l1).
      { rewrite Hrot. apply elem_of_app. right. left. }
      apply elem_of_app in H. tauto. }
    apply list_elem_of_split in Hin as (la & lb & Hl).
    destruct (allocate_next_fit_hit s l1 l2 la b lb ra rb n fuel
                HI Hst Hn Hl Hrot H1 Hb) as (s' & H).
    { assert (Hlen : length (l2 ++ l1) = length (ra ++ b :: rb))
        by (rewrite Hrot; reflexivity).
      rewrite !length_app in *. cbn [length] in Hlen. lia. }
    exists ra, b, rb, la, lb, s'. tauto.
Qed.

Lemma allocate_best_fit_spec s l n fuel :
  Inv s l → 0 < n → (length l < fuel)%nat →
  (Forall (λ b, fits_block n b = false) l
   ∧ allocate_best_fit fuel n s = Ok (None, s))
  ∨ ∃ l1 b l2 s',
      l = l1 ++ b :: l2 ∧ fits_block n b = true
      ∧ (∀ c, c ∈ l1 → fits_block n c = true → bsize b < bsize c)
      ∧ (∀ c, c ∈ l2 → fits_block n c = true → bsize b ≤ bsize c)
      ∧ allocate_best_fit fuel n s = Ok (Some (addr b + sizeof_node_t), s')
      ∧ Inv s' (l1 ++ split_block b n ++ l2)
      ∧ same_globals s s'
      ∧ mem s' = fill (addr b + sizeof_node_t) 0 (zeroed_len b n) (mem s).
Proof.
  intros HI Hn Hfuel.
  assert (Hrun : ∀ k : ptr → M ptr,
                   (smallest <- best_fit_loop fuel (linked_list s) n
                                  (heap_size s) None ;; k smallest) s
                      = k (addr <$> best_scan n (heap_size s) None l) s).
  { intros k. apply bind_ok. rewrite (inv_head _ _ HI).
    apply (best_fit_loop_scan s None l n (heap_size s) None fuel);
      [exact (inv_dll _ _ HI)|exact Hfuel]. }
  unfold allocate_best_fit.
  rewrite bind_assert by (apply Z.ltb_lt; lia).
  rewrite bind_get, (bind_assert _ _ _ (Inv_nonnull _ _ HI)), bind_get, Hrun.
  destruct (best_scan n (heap_size s) None l) as [b|] eqn:Hscan.
  - right.
    apply best_scan_Some in Hscan
      as [[[=] _]|(l1 & l2 & -> & Hb & Hlt & H1 & H2)].
    apply fits_block_true in Hb as Hb'. destruct Hb' as [Hfree Hle].
    destruct (Inv_allocate_node s l1 b l2 n HI Hfree Hn Hle)
      as (s' & Heq & HI' & HG & Hm).
    exists l1, b, l2, s'.
    split; [reflexivity|]. split; [exact Hb|]. split; [exact H1|].
    split; [exact H2|]. split; [|auto].
    cbn [fmap option_fmap option_map]. rewrite nonnull_Some.
    rewrite (bind_ok _ _ _ _ _ Heq). unfold memory_at, ret. cbn.
    rewrite Z.add_0_r. reflexivity.
  - left. apply best_scan_None in Hscan as [_ H]. split; [|reflexivity].
    apply Forall_forall. intros c Hc.
    destruct (fits_block n c) eqn:Hf; [exfalso|reflexivity].
    specialize (H c Hc Hf). pose proof (Inv_size_lt _ _ _ HI Hc). consts. lia.
Qed.

Lemma allocate_worst_fit_spec s l n fuel :
  Inv s l → 0 < n → n < 2 ^ 64 → (length l < fuel)%nat →
  (Forall (λ b, fits_block n b = false) l
   ∧ allocate_worst_fit fuel n s = Ok (None, s))
  ∨ ∃ l1 b l2 s',
      l = l1 ++ b :: l2 ∧ fits_block n b = true
      ∧ (∀ c, c ∈ l1 → fits_block n c = true → bsize c < bsize b)
      ∧ (∀ c, c ∈ l2 → fits_block n c = true → bsize c ≤ bsize b)
      ∧ allocate_worst_fit fuel n s = Ok (Some (addr b + sizeof_node_t), s')
      ∧ Inv s' (l1 ++ split_block b n ++ l2)
      ∧ same_globals s s'
      ∧ mem s' = fill (addr b + sizeof_node_t) 0 (zeroed_len b n) (mem s).
Proof.
  intros HI Hn Hmax Hfuel.
  assert (Hrun : ∀ k : ptr → M ptr,
                   (largest <- worst_fit_loop fuel (linked_list s)
                                 (n - 1) None ;; k largest) s
                      = k (addr <$> worst_scan (n - 1) None l) s).
  { intros k. apply bind_ok. rewrite (inv_head _ _ HI).
    apply (worst_fit_loop_scan s None l (n - 1) None fuel);
      [exact (inv_dll _ _ HI)|exact Hfuel]. }
  unfold allocate_worst_fit.
  rewrite bind_assert by (apply Z.ltb_lt; lia).
  rewrite bind_get. cbv zeta. rewrite (wrap_small (n - 1)) by lia.
  rewrite (bind_assert _ _ _ (Inv_nonnull _ _ HI)), Hrun.
  destruct (worst_scan (n - 1) None l) as [b|] eqn:Hscan.
  - right.
    apply worst_scan_Some in Hscan
      as [[[=] _]|(l1 & l2 & -> & Hfree & Hlt & H1 & H2)].
    assert (Hle : n ≤ bsize b) by lia.
    destruct (Inv_allocate_node s l1 b l2 n HI Hfree Hn Hle)
      as (s' & Heq & HI' & HG & Hm).
    exists l1, b, l2, s'.
    split; [reflexivity|]. split; [|split; [|split; [|split; [|auto]]]].
    + apply fits_block_true. auto.
    + intros c Hc Hf. apply fits_block_true in Hf as [Hf _]. auto.
    + intros c Hc Hf. apply fits_block_true in Hf as [Hf _]. auto.
    + cbn [fmap option_fmap option_map]. rewrite nonnull_Some.
      rewrite (bind_ok _ _ _ _ _ Heq). unfold memory_at, ret. cbn.
      rewrite Z.add_0_r. reflexivity.
  - left. apply worst_scan_None in Hscan as [_ H]. split; [|reflexivity].
    apply Forall_forall. intros c Hc.
    destruct (fits_block n c) eqn:Hf; [exfalso|reflexivity].
    apply fits_block_true in Hf as [Hf Hle]. specialize (H c Hc Hf). lia.
Qed.

(** * initialise installs the invariant *)

Lemma initialise_ok s m sz algorithm f :
  MINIMUM_HEAP_SIZE < sz → sz < 2 ^ 64 →
  allocator_of algorithm = Some f →
  initialise (Some m) sz algorithm s =
  Ok (tt, State (Some m) None sz (Some f)
            (<[m := Node None None 1 (sz - sizeof_node_t)]> (heap s))
            (mem s) (stderr s)).
Proof.
  intros Hsz Hmax Hf. destruct s as [ll nn hs al h me er].
  unfold initialise, create_node. steps. consts.
  rewrite (wrap_small (sz - 32)) by lia.
  unfold allocator_of in Hf.
  destruct algorithm as [a|].
  - destruct (streq a FIRSTFIT); [injection Hf as <-; reflexivity|].
    destruct (streq a NEXTFIT); [injection Hf as <-; reflexivity|].
    destruct (streq a BESTFIT); [injection Hf as <-; reflexivity|].
    destruct (streq a WORSTFIT); [injection Hf as <-; reflexivity|].
    discriminate.
  - injection Hf as <-. reflexivity.
Qed.

Lemma initialise_Inv s m sz algorithm f :
  0 < m → m + sz < 2 ^ 64 → MINIMUM_HEAP_SIZE < sz →
  allocator_of algorithm = Some f →
  ∃ s', initialise (Some m) sz algorithm s = Ok (tt, s')
    ∧ Inv s' [Block m 1 (sz - sizeof_node_t)]
    ∧ next_node s' = None ∧ allocate s' = Some f ∧ heap_size s' = sz
    ∧ stderr s' = stderr s.
Proof.
  intros Hm Hlim Hsz Hf. eexists. split.
  { apply initialise_ok; [exact Hsz|lia|exact Hf]. }
  split; [|repeat split].
  constructor; cbn [linked_list heap_size heap next_node uintptr default id
                    hd_addr dll tiles addr bfree bsize coalesced].
  - reflexivity.
  - discriminate.
  - split; [apply lookup_insert_eq|exact I].
  - consts. repeat split; lia.
  - exact Hm.
  - exact Hlim.
  - auto.
  - left. reflexivity.
Qed.

Lemma initialise_unknown s m sz a :
  MINIMUM_HEAP_SIZE < sz →
  allocator_of (Some a) = None →
  initialise (Some m) sz (Some a) s = Err ExitFailure.
Proof.
  intros Hsz Hf. destruct s as [ll nn hs al h me er].
  unfold initialise, create_node. steps. unfold allocator_of in Hf.
  destruct (streq a FIRSTFIT); [discriminate|].
  destruct (streq a NEXTFIT); [discriminate|].
  destruct (streq a BESTFIT); [discriminate|].
  destruct (streq a WORSTFIT); [discriminate|].
  reflexivity.
Qed.

(** * Release of a free block and of NULL *)

Lemma deallocate_free s base m nd :
  linked_list s = Some base →
  base ≤ m → m < wrap (base + heap_size s) →
  heap s !! (m - sizeof_node_t) = Some nd →
  truthy (free nd) = true →
  deallocate (Some m) s = Ok (tt, set_stderr (stderr s ++ [already_free]) s).
Proof.
  intros Hll Hlo Hhi Hnd Hfree.
  unfold deallocate. rewrite bind_get, Hll. repeat step0.
  rewrite nonnull_Some. repeat step0.
  rewrite bind_assert.
  2:{ cbn [uintptr default id]. apply andb_true_iff.
      split; [apply Z.leb_le|apply Z.ltb_lt]; lia. }
  unfold header_of. cbn [fmap option_fmap option_map].
  repeat step0. rewrite Hfree. reflexivity.
Qed.

Lemma deallocate_NULL s :
  nonnull (linked_list s) = true → deallocate None s = Ok (tt, s).
Proof.
  intros H. unfold deallocate. rewrite bind_get, bind_assert by exact H.
  reflexivity.
Qed.

(** * More fuel changes no result *)

Lemma first_fit_loop_mono fuel fuel' p n s r :
  first_fit_loop fuel p n s = Ok r → (fuel ≤ fuel')%nat →
  first_fit_loop fuel' p n s = Ok r.
Proof.
  revert fuel' p s. induction fuel as [|fuel IH]; intros fuel' p s H Hle;
    [discriminate|].
  destruct fuel' as [|fuel']; [lia|]. cbn [first_fit_loop] in *.
  destruct (nonnull p); [|exact H]. unfold bind in *.
  destruct (fits p n s) as [[c s1]|e]; [|discriminate].
  destruct c; [exact H|].
  destruct (rd next p s1) as [[pn s2]|e]; [|discriminate].
  apply IH; [exact H|lia].
Qed.

Lemma next_fit_loop_mono fuel fuel' p posn n s r :
  next_fit_loop fuel p posn n s = Ok r → (fuel ≤ fuel')%nat →
  next_fit_loop fuel' p posn n s = Ok r.
Proof.
  revert fuel' p s. induction fuel as [|fuel IH]; intros fuel' p s H Hle;
    [discriminate|].
  destruct fuel' as [|fuel']; [lia|]. cbn [next_fit_loop] in *.
  unfold bind in *.
  destruct (fits p n s) as [[c s1]|e]; [|discriminate].
  destruct c; [exact H|].
  destruct (rd next p s1) as [[pn s2]|e]; [|discriminate].
  unfold get in *.
  destruct (bool_decide _); [|exact H].
  apply IH; [exact H|lia].
Qed.

Lemma best_fit_loop_mono fuel fuel' p n sz cur s r :
  best_fit_loop fuel p n sz cur s = Ok r → (fuel ≤ fuel')%nat →
  best_fit_loop fuel' p n sz cur s = Ok r.
Proof.
  revert fuel' p sz cur s.
  induction fuel as [|fuel IH]; intros fuel' p sz cur s H Hle; [discriminate|].
  destruct fuel' as [|fuel']; [lia|]. cbn [best_fit_loop] in *.
  destruct (nonnull p); [|exact H]. unfold bind in *.
  destruct (andM _ _ s) as [[c s1]|e]; [|discriminate].
  destruct c.
  - destruct (rd size p s1) as [[psz s2]|e]; [|discriminate].
    destruct (rd next p s2) as [[pn s3]|e]; [|discriminate].
    apply IH; [exact H|lia].
  - destruct (rd next p s1) as [[pn s2]|e]; [|discriminate].
    apply IH; [exact H|lia].
Qed.

Lemma worst_fit_loop_mono fuel fuel' p sz cur s r :
  worst_fit_loop fuel p sz cur s = Ok r → (fuel ≤ fuel')%nat →
  worst_fit_loop fuel' p sz cur s = Ok r.
Proof.
  revert fuel' p sz cur s.
  induction fuel as [|fuel IH]; intros fuel' p sz cur s H Hle; [discriminate|].
  destruct fuel' as [|fuel']; [lia|]. cbn [worst_fit_loop] in *.
  destruct (nonnull p); [|exact H]. unfold bind in *.
  destruct (andM _ _ s) as [[c s1]|e]; [|discriminate].
  destruct c.
  - destruct (rd size p s1) as [[psz s2]|e]; [|discriminate].
    destruct (rd next p s2) as [[pn s3]|e]; [|discriminate].
    apply IH; [exact H|lia].
  - destruct (rd next p s1) as [[pn s2]|e]; [|discriminate].
    apply IH; [exact H|lia].
Qed.

Lemma call_allocate_mono fuel fuel' n s r :
  call_allocate fuel n s = Ok r → (fuel ≤ fuel')%nat →
  call_allocate fuel' n s = Ok r.
Proof.
  intros H Hle. unfold call_allocate in *. rewrite bind_get in *.
  destruct (allocate s) as [[]|]; [| | | |exact H].
  - unfold allocate_first_fit, bind in *.
    destruct (assert _ s) as [[[] s1]|e]; [|discriminate].
    unfold get in *.
    destruct (assert _ s1) as [[[] s2]|e]; [|discriminate].
    eapply first_fit_loop_mono; eauto.
  - unfold allocate_next_fit, bind in *.
    destruct (assert _ s) as [[[] s1]|e]; [|discriminate].
    unfold get in *. cbv zeta in *.
    destruct (assert _ s1) as [[[] s2]|e]; [|discriminate].
    eapply next_fit_loop_mono; eauto.
  - unfold allocate_best_fit, bind in *.
    destruct (assert _ s) as [[[] s1]|e]; [|discriminate].
    unfold get in *.
    destruct (assert _ s1) as [[[] s2]|e]; [|discriminate].
    destruct (best_fit_loop fuel _ _ _ _ s2) as [[sm s3]|e] eqn:E;
      [|discriminate].
    rewrite (best_fit_loop_mono _ _ _ _ _ _ _ _ E Hle). exact H.
  - unfold allocate_worst_fit, bind in *.
    destruct (assert _ s) as [[[] s1]|e]; [|discriminate].
    unfold get in *. cbv zeta in *.
    destruct (assert _ s1) as [[[] s2]|e]; [|discriminate].
    destruct (worst_fit_loop fuel _ _ _ s2) as [[sm s3]|e] eqn:E;
      [|discriminate].
    rewrite (worst_fit_loop_mono _ _ _ _ _ _ _ E Hle). exact H.
Qed.

(** * From the sequence to the headers *)

Lemma chain_functional h p l l' : chain h p l → chain h p l' → l = l'.
Proof.
  revert p l'. induction l as [|[a nd] l IH]; intros p [|[a' nd'] l'];
    cbn [chain fst snd].
  - reflexivity.
  - intros -> [[=] _].
  - intros [-> _] [=].
  - intros (-> & Ha & Hl) ([= <-] & Ha' & Hl').
    rewrite Ha in Ha'. injection Ha' as <-. f_equal. eapply IH; eauto.
Qed.

Lemma dll_chain h pv l :
  dll h pv l None → chain h (hd_addr l None) (cells pv l).
Proof.
  revert pv. induction l as [|b l IH]; intros pv; cbn [dll cells chain hd_addr].
  - reflexivity.
  - intros [Hb Hl]. cbn [fst snd next]. repeat split; [exact Hb|eauto].
Qed.

Lemma cells_elem pv l a nd :
  (a, nd) ∈ cells pv l →
  ∃ b, b ∈ l ∧ a = addr b ∧ free nd = bfree b ∧ size nd = bsize b.
Proof.
  revert pv. induction l as [|b l IH]; intros pv; cbn [cells].
  - intros H. inversion H.
  - intros H. apply elem_of_cons in H as [[= -> ->]|H].
    + exists b. repeat split. left.
    + destruct (IH _ H) as (c & Hc & ?). exists c. split; [right|]; auto.
Qed.

Lemma elem_cells pv l b :
  b ∈ l → ∃ nd, (addr b, nd) ∈ cells pv l.
Proof.
  revert pv. induction l as [|c l IH]; intros pv H; [inversion H|].
  apply elem_of_cons in H as [->|H]; cbn [cells].
  - eexists. left.
  - destruct (IH (Some (addr c)) H) as [nd Hnd]. exists nd. right. exact Hnd.
Qed.

Lemma dll_linked h pv l :
  dll h pv l None →
  (∀ b l', l = b :: l' →
           pv = None ∨ next <$> deref h pv = Some (Some (addr b))) →
  ∀ a nd, (a, nd) ∈ cells pv l → linked h a nd.
Proof.
  revert pv. induction l as [|b l IH]; intros pv Hd Hpv a nd Hin;
    [inversion Hin|].
  destruct Hd as [Hb Hl]. cbn [cells] in Hin.
  apply elem_of_cons in Hin as [[= -> ->]|Hin].
  - split; cbn [next prev].
    + destruct l as [|c l]; [left; reflexivity|right].
      destruct Hl as [Hc _]. cbn [hd_addr deref mbind option_bind].
      rewrite Hc. reflexivity.
    + eapply Hpv. reflexivity.
  - apply (IH (Some (addr b)) Hl); [|exact Hin].
    intros c l' ->. right. cbn [deref mbind option_bind]. rewrite Hb.
    reflexivity.
Qed.

Lemma tiles_total a l e pv :
  tiles a l e → total_bytes (cells pv l) = e - a.
Proof.
  revert a pv. induction l as [|b l IH]; intros a pv; cbn [tiles cells].
  - intros ->. cbn. lia.
  - intros (Hb & Hpos & Ht). cbn [total_bytes foldr snd size].
    fold (total_bytes (cells (Some (addr b)) l)).
    rewrite (IH _ _ Ht). lia.
Qed.

Lemma coalesced_adjacent_free pv l :
  coalesced l → adjacent_free (cells pv l) = false.
Proof.
  revert pv. induction l as [|b l IH]; intros pv; [reflexivity|].
  intros [Hb Hl]. cbn [cells adjacent_free]. rewrite (IH _ Hl), orb_false_r.
  destruct l as [|c l]; [reflexivity|]. exact Hb.
Qed.

Lemma Inv_block_list s l : Inv s l → block_list s (cells None l).
Proof.
  intros HI. unfold block_list. rewrite (inv_head _ _ HI).
  apply dll_chain, (inv_dll _ _ HI).
Qed.

Lemma Inv_structural s l :
  Inv s l → structural_invariants s (cells None l).
Proof.
  intros HI. constructor.
  - apply dll_linked; [exact (inv_dll _ _ HI)|]. intros; left; reflexivity.
  - rewrite (tiles_total _ _ _ _ (inv_tiles _ _ HI)). lia.
  - intros a nd Hin. apply cells_elem in Hin as (b & Hb & _ & _ & ->).
    apply (Inv_size_lt _ _ _ HI Hb).
  - apply coalesced_adjacent_free, (inv_coalesced _ _ HI).
Qed.

(** * Reachable states keep the invariant *)

Lemma Inv_set_stderr s l e : Inv s l → Inv (set_stderr e s) l.
Proof.
  intros [Hh Hne Hd Ht Hbase Hlim Hco Hcur]. constructor; assumption.
Qed.

Lemma starts_at_exists s l :
  Inv s l → ∃ l1 l2, l = l1 ++ l2 ∧ starts_at s l1 l2.
Proof.
  intros HI. destruct (inv_cursor _ _ HI) as [Hc|(b & Hb & Hc)].
  - exists [], l. split; [reflexivity|]. split; [exact (inv_nonempty _ _ HI)|].
    right. auto.
  - apply list_elem_of_split in Hb as (l1 & l2 & ->).
    exists l1, (b :: l2). split; [reflexivity|]. split; [discriminate|].
    left. exact Hc.
Qed.

Lemma initialise_Ok_inv s0 m sz algorithm s :
  initialise (Some m) sz algorithm s0 = Ok (tt, s) →
  MINIMUM_HEAP_SIZE < sz ∧ ∃ f, allocator_of algorithm = Some f.
Proof.
  intros H. destruct (Z.ltb_spec MINIMUM_HEAP_SIZE sz) as [Hsz|Hsz].
  - split; [exact Hsz|].
    destruct (allocator_of algorithm) as [f|] eqn:Hf; [eauto|].
    destruct algorithm as [a|]; [|discriminate].
    rewrite (initialise_unknown _ _ _ _ Hsz Hf) in H. discriminate.
  - exfalso. unfold initialise in H. rewrite bind_assert in H by reflexivity.
    unfold bind, assert in H.
    replace (MINIMUM_HEAP_SIZE <? sz) with false in H
      by (symmetry; apply Z.ltb_ge; lia).
    discriminate.
Qed.

Lemma call_allocate_positive fuel n s r :
  call_allocate fuel n s = Ok r → 0 ≤ n → 0 < n.
Proof.
  intros H Hn. destruct (Z.eq_dec n 0) as [->|]; [exfalso|lia].
  unfold call_allocate in H. rewrite bind_get in H.
  destruct (allocate s) as [[]|]; discriminate.
Qed.

Lemma call_allocate_Inv s l fuel n p s' :
  Inv s l → 0 ≤ n → n < 2 ^ 64 →
  call_allocate fuel n s = Ok (p, s') →
  ∃ l', Inv s' l'.
Proof.
  intros HI Hn0 Hmax H.
  pose proof (call_allocate_positive _ _ _ _ H Hn0) as Hn.
  set (fuel' := (fuel `max` S (length l))%nat).
  apply call_allocate_mono with (fuel' := fuel') in H; [|lia].
  assert (Hfuel : (length l < fuel')%nat) by lia.
  unfold call_allocate in H. rewrite bind_get in H.
  destruct (allocate s) as [[]|]; [| | | |discriminate].
  - destruct (allocate_first_fit_spec s l n fuel' HI Hn Hfuel)
      as [[_ Heq]|(l1 & b & l2 & s1 & -> & _ & _ & Heq & HI' & _)];
      rewrite Heq in H; injection H as <- <-; eauto.
  - destruct (starts_at_exists _ _ HI) as (l1 & l2 & -> & Hst).
    destruct (allocate_next_fit_spec s l1 l2 n fuel' HI Hst Hn ltac:(lia))
      as [[_ Heq]|(ra & b & rb & la & lb & s1 & _ & _ & _ & _ & Heq & HI' & _)];
      rewrite Heq in H; injection H as <- <-; eauto.
  - destruct (allocate_best_fit_spec s l n fuel' HI Hn Hfuel)
      as [[_ Heq]|(l1 & b & l2 & s1 & -> & _ & _ & _ & Heq & HI' & _)];
      rewrite Heq in H; injection H as <- <-; eauto.
  - destruct (allocate_worst_fit_spec s l n fuel' HI Hn Hmax Hfuel)
      as [[_ Heq]|(l1 & b & l2 & s1 & -> & _ & _ & _ & Heq & HI' & _)];
      rewrite Heq in H; injection H as <- <-; eauto.
Qed.

Lemma deallocate_Inv s l memory s' :
  Inv s l → releasable s memory →
  deallocate memory s = Ok (tt, s') →
  ∃ l', Inv s' l'.
Proof.
  intros HI [->|(lc & a & nd & Hlc & Hin & ->)] H.
  - rewrite (deallocate_NULL _ (Inv_nonnull _ _ HI)) in H.
    injection H as <-. eauto.
  - pose proof (chain_functional _ _ _ _ Hlc (Inv_block_list _ _ HI)) as ->.
    apply cells_elem in Hin as (b & Hb & -> & Hf & Hs).
    apply list_elem_of_split in Hb as (l1 & l2 & ->).
    destruct (is_free b) eqn:Hfree.
    + pose proof (tiles_split _ _ _ _ _ (inv_tiles _ _ HI))
        as (Hlo & Hhi & Hpos & _).
      pose proof (inv_base _ _ HI) as Hbase.
      pose proof (inv_limit _ _ HI) as Hlim.
      erewrite deallocate_free in H.
      * injection H as <-. eexists. apply Inv_set_stderr. exact HI.
      * exact (Inv_base _ _ HI).
      * consts. lia.
      * rewrite wrap_small by (consts; lia). consts. lia.
      * replace (addr b + sizeof_node_t - sizeof_node_t) with (addr b) by lia.
        exact (dll_mid _ _ _ _ (inv_dll _ _ HI)).
      * exact Hfree.
    + destruct (deallocate_busy s l1 b l2 HI Hfree) as (s1 & Heq & HI' & _).
      rewrite Heq in H. injection H as <-. eauto.
Qed.

Lemma reachable_Inv s : reachable s → ∃ l, Inv s l.
Proof.
  induction 1 as [s0 m sz alg s Hm Hlim Hinit
                 |s fuel n p s' _ [l HI] Hn0 Hmax Hal
                 |s memory s' _ [l HI] Hrel Hde].
  - destruct (initialise_Ok_inv _ _ _ _ _ Hinit) as [Hsz [f Hf]].
    destruct (initialise_Inv s0 m sz alg f Hm Hlim Hsz Hf)
      as (s1 & Heq & HI & _).
    rewrite Heq in Hinit. injection Hinit as <-. eauto.
  - eapply call_allocate_Inv; eauto.
  - eapply deallocate_Inv; eauto.
Qed.

(** * memset *)

Lemma lookup_fill d v n m x :
  fill d v n m !! x = if decide (d ≤ x < d + n) then Some v else m !! x.
Proof.
  unfold fill.
  assert (H : ∀ l, foldr (λ a m', <[a := v]> m') m l !! x
                   = if decide (x ∈ l) then Some v else m !! x).
  { induction l as [|a l IH]; cbn [foldr].
    - destruct (decide (x ∈ [])) as [H|_]; [inversion H|reflexivity].
    - destruct (decide (a = x)) as [->|Hne].
      + rewrite lookup_insert_eq.
        destruct (decide (x ∈ x :: l)) as [_|H]; [reflexivity|].
        exfalso. apply H. left.
      + rewrite lookup_insert_ne by exact Hne. rewrite IH.
        destruct (decide (x ∈ l)) as [Hin|Hin];
          destruct (decide (x ∈ a :: l)) as [Hin'|Hin']; try reflexivity.
        * exfalso. apply Hin'. right. exact Hin.
        * exfalso. apply elem_of_cons in Hin' as [->|?]; auto. }
  rewrite H.
  destruct (decide (x ∈ seqZ d n)) as [Hin|Hin];
    destruct (decide (d ≤ x < d + n)) as [Hr|Hr]; try reflexivity.
  - exfalso. apply elem_of_seqZ in Hin. lia.
  - exfalso. apply Hin, elem_of_seqZ. lia.
Qed.

(** * validate, header by header *)

Lemma bind_rd_None {A B} (f : node_t → A) (k : A → M B) a s :
  heap s !! a = None → bind (rd f (Some a)) k s = Err BadAccess.
Proof. intros H. unfold bind, rd. rewrite H. reflexivity. Qed.

Lemma validate_node_cases s a nd :
  heap s !! a = Some nd →
  (validate_node (Some a) s = Ok (tt, s)
   ∧ linked (heap s) a nd ∧ 0 < size nd)
  ∨ (∃ e, validate_node (Some a) s = Err e ∧ e ≠ OutOfFuel
          ∧ ¬ (linked (heap s) a nd ∧ 0 < size nd)).
Proof.
  intros Ha. unfold validate_node, orM, linked.
  repeat step0.
  destruct (next nd) as [q|] eqn:Hq; [rewrite nonnull_Some|rewrite nonnull_None];
    cbn [negb]; repeat step0.
  - destruct (heap s !! q) as [ndq|] eqn:Hndq.
    2:{ rewrite (bind_rd_None _ _ _ _ Hndq). right. eexists. split; [reflexivity|]. split; [discriminate|].
        intros [[[[=]|H] _] _]. cbn in H. rewrite Hndq in H. discriminate. }
    repeat step0. case_bool_decide as Hp.
    2:{ right. eexists. split; [reflexivity|]. split; [discriminate|].
        intros [[[[=]|H] _] _]. cbn in H. rewrite Hndq in H. cbn in H.
        congruence. }
    repeat step0.
    assert (Hnext : Some q = None ∨ prev <$> deref (heap s) (Some q) = Some (Some a)).
    { right. cbn. rewrite Hndq. cbn. congruence. }
    revert Hnext. generalize (Some q). intros nq Hnext.
    destruct (prev nd) as [r|] eqn:Hr;
      [rewrite nonnull_Some|rewrite nonnull_None]; cbn [negb]; repeat step0.
    + destruct (heap s !! r) as [ndr|] eqn:Hndr.
      2:{ rewrite (bind_rd_None _ _ _ _ Hndr). right. eexists. split; [reflexivity|]. split; [discriminate|].
          intros [[_ [[=]|H]] _]. cbn in H. rewrite Hndr in H. discriminate. }
      repeat step0. case_bool_decide as Hn.
      2:{ right. eexists. split; [reflexivity|]. split; [discriminate|].
          intros [[_ [[=]|H]] _]. cbn in H. rewrite Hndr in H. cbn in H.
          congruence. }
      repeat step0. unfold assert.
      destruct (Z.ltb_spec 0 (size nd)) as [Hpos|Hpos].
      * left. split; [reflexivity|]. split; [|exact Hpos].
        split; [exact Hnext|]. right. cbn. rewrite Hndr. cbn. congruence.
      * right. eexists. split; [reflexivity|]. split; [discriminate|]. lia.
    + unfold assert.
      destruct (Z.ltb_spec 0 (size nd)) as [Hpos|Hpos].
      * left. split; [reflexivity|]. split; [|exact Hpos].
        split; [exact Hnext|]. left. reflexivity.
      * right. eexists. split; [reflexivity|]. split; [discriminate|]. lia.
  - destruct (prev nd) as [r|] eqn:Hr;
      [rewrite nonnull_Some|rewrite nonnull_None]; cbn [negb]; repeat step0.
    + destruct (heap s !! r) as [ndr|] eqn:Hndr.
      2:{ rewrite (bind_rd_None _ _ _ _ Hndr). right. eexists. split; [reflexivity|]. split; [discriminate|].
          intros [[_ [[=]|H]] _]. cbn in H. rewrite Hndr in H. discriminate. }
      repeat step0. case_bool_decide as Hn.
      2:{ right. eexists. split; [reflexivity|]. split; [discriminate|].
          intros [[_ [[=]|H]] _]. cbn in H. rewrite Hndr in H. cbn in H.
          congruence. }
      repeat step0. unfold assert.
      destruct (Z.ltb_spec 0 (size nd)) as [Hpos|Hpos].
      * left. split; [reflexivity|]. split; [|exact Hpos].
        split; [left; reflexivity|]. right. cbn. rewrite Hndr. cbn. congruence.
      * right. eexists. split; [reflexivity|]. split; [discriminate|]. lia.
    + unfold assert.
      destruct (Z.ltb_spec 0 (size nd)) as [Hpos|Hpos].
      * left. split; [reflexivity|]. split; [|exact Hpos].
        split; left; reflexivity.
      * right. eexists. split; [reflexivity|]. split; [discriminate|]. lia.
Qed.

Lemma wrap_add_r a b : wrap (a + wrap b) = wrap (a + b).
Proof. unfold wrap. apply Zplus_mod_idemp_r. Qed.

Lemma wrap_add_l a b : wrap (wrap a + b) = wrap (a + b).
Proof. unfold wrap. apply Zplus_mod_idemp_l. Qed.

Lemma validate_loop_cases s l p c fuel :
  chain (heap s) p l → (length l < fuel)%nat →
  (validate_loop fuel p (wrap c) s = Ok (wrap (c + total_bytes l), s)
   ∧ ∀ a nd, (a, nd) ∈ l → linked (heap s) a nd ∧ 0 < size nd)
  ∨ (∃ e, validate_loop fuel p (wrap c) s = Err e ∧ e ≠ OutOfFuel
          ∧ ¬ ∀ a nd, (a, nd) ∈ l → linked (heap s) a nd ∧ 0 < size nd).
Proof.
  revert p c fuel. induction l as [|[a nd] l IH]; intros p c fuel Hc Hfuel;
    (destruct fuel as [|fuel]; [cbn in Hfuel; lia|]); cbn [validate_loop].
  - cbn in Hc. subst p. left. cbn [total_bytes foldr]. rewrite Z.add_0_r.
    split; [reflexivity|]. intros a nd H. inversion H.
  - destruct Hc as (-> & Ha & Hc). cbn [fst snd] in *. rewrite nonnull_Some.
    destruct (validate_node_cases s a nd Ha)
      as [(Heq & Hlk & Hpos)|(e & Heq & He & Hno)].
    + rewrite (bind_ok _ _ _ _ _ Heq). repeat step0. cbv zeta.
      rewrite wrap_add_r, wrap_add_l.
      destruct (IH (next nd) (c + (size nd + sizeof_node_t)) fuel Hc
                  ltac:(cbn in Hfuel; lia))
        as [[Hl Hall]|(e & Hl & He & Hno)].
      * left. rewrite Hl. split.
        -- cbn [total_bytes foldr snd]. fold (total_bytes l).
           do 3 f_equal. lia.
        -- intros a' nd' Hin. apply elem_of_cons in Hin as [[= -> ->]|Hin];
             auto.
      * right. exists e. split; [exact Hl|]. split; [exact He|].
        intros Hall. apply Hno. intros a' nd' Hin. apply Hall. right.
        exact Hin.
    + right. exists e. unfold bind at 1. rewrite Heq.
      split; [reflexivity|]. split; [exact He|].
      intros Hall. apply Hno, Hall. left.
Qed.

Lemma validate_cases s l fuel :
  block_list s l → (length l < fuel)%nat →
  (validate fuel s = Ok (tt, s) ∧ passes s l)
  ∨ (∃ e, validate fuel s = Err e ∧ e ≠ OutOfFuel ∧ ¬ passes s l).
Proof.
  intros Hc Hfuel. unfold validate, passes. rewrite bind_get.
  destruct (validate_loop_cases s l (linked_list s) 0 fuel Hc Hfuel)
    as [[Hl Hall]|(e & Hl & He & Hno)]; change (wrap 0) with 0 in Hl.
  - rewrite (bind_ok _ _ _ _ _ Hl), bind_get. rewrite Z.add_0_l.
    unfold assert.
    destruct (Z.eqb_spec (wrap (total_bytes l)) (heap_size s)) as [Heq|Hne].
    + left. auto.
    + right. eexists. split; [reflexivity|]. split; [discriminate|]. tauto.
  - right. exists e. unfold bind at 1. rewrite Hl.
    split; [reflexivity|]. split; [exact He|]. tauto.
Qed.

Lemma Inv_validate s l :
  Inv s l → validate (S (length (cells None l))) s = Ok (tt, s).
Proof.
  intros HI.
  destruct (validate_cases s (cells None l) (S (length (cells None l)))
              (Inv_block_list _ _ HI) ltac:(lia))
    as [[Heq _]|(e & _ & _ & Hno)]; [exact Heq|exfalso].
  apply Hno. destruct (Inv_structural _ _ HI) as [Hlk Htot Hpos _].
  split; [intros a nd Hin; split; eauto|].
  rewrite Htot. apply wrap_small.
  pose proof (inv_base _ _ HI). pose proof (inv_limit _ _ HI).
  destruct (tiles_bounds _ _ _ (inv_tiles _ _ HI)) as [Hle _]. lia.
Qed.

(** * The worked region *)

Lemma example_Inv cursor :
  cursor_ok cursor example_blocks →
  Inv (example_state cursor) example_blocks.
Proof.
  intros Hc. constructor.
  - reflexivity.
  - discriminate.
  - vm_compute. repeat split.
  - vm_compute. repeat split.
  - reflexivity.
  - reflexivity.
  - vm_compute. repeat split.
  - exact Hc.
Qed.

Lemma example_cursor_C : cursor_ok (Some 4324) example_blocks.
Proof.
  right. exists (Block 4324 1 200). split; [|reflexivity].
  apply list_elem_of_lookup_2 with (i := 2%nat). reflexivity.
Qed.

(** The policy laws of the specification on the worked region, request 40:
    first fit serves A, best fit E, worst fit C, and next fit with the
    cursor on C serves C and leaves the cursor on the remainder of C. *)
Example first_fit_serves_A :
  fst <$> (match allocate_first_fit 6 40 (example_state None) with
           | Ok r => Some r | Err _ => None end) = Some (Some 4128).
Proof. vm_compute. reflexivity. Qed.

Example best_fit_serves_E :
  fst <$> (match allocate_best_fit 6 40 (example_state None) with
           | Ok r => Some r | Err _ => None end) = Some (Some 4684).
Proof. vm_compute. reflexivity. Qed.

Example worst_fit_serves_C :
  fst <$> (match allocate_worst_fit 6 40 (example_state None) with
           | Ok r => Some r | Err _ => None end) = Some (Some 4356).
Proof. vm_compute. reflexivity. Qed.

Example next_fit_serves_C :
  (λ r, (r.1, next_node r.2))
    <$> (match allocate_next_fit 5 40 (example_state (Some 4324)) with
         | Ok r => Some r | Err _ => None end)
  = Some (Some 4356, Some 4396).
Proof. vm_compute. reflexivity. Qed.

Example loops_need_fuel :
  allocate_best_fit 5 40 (example_state None) = Err OutOfFuel.
Proof. vm_compute. reflexivity. Qed.

(** * Lemmas for the statements below *)

Lemma length_release l1 b l2 :
  (length (release l1 b l2) + (if prev_free l1 then 1 else 0)
   + (if next_free l2 then 1 else 0) = length (l1 ++ b :: l2))%nat.
Proof.
  unfold release.
  destruct (coalesce_prev l1 (freed b)) as [pre r] eqn:E. cbn [fst snd].
  destruct (coalesce_prev_shape _ _ _ _ E)
    as [(-> & -> & ->)|(pb & -> & -> & _ & ->)];
    destruct l2 as [|nb l2]; cbn [coalesce_next next_free];
    try destruct (is_free nb); rewrite !length_app; cbn [length]; lia.
Qed.

Lemma reachable_cursor s :
  reachable s →
  ∃ l, block_list s l
       ∧ (next_node s = None ∨ ∃ a nd, (a, nd) ∈ l ∧ next_node s = Some a).
Proof.
  intros Hr. destruct (reachable_Inv s Hr) as [l HI].
  exists (cells None l). split; [exact (Inv_block_list _ _ HI)|].
  destruct (inv_cursor _ _ HI) as [Hc|(b & Hb & Hc)]; [left; exact Hc|right].
  destruct (elem_cells None l b Hb) as [nd Hnd]. eauto.
Qed.

Lemma example_starts_at_C :
  starts_at (example_state (Some 4324))
    [Block 4096 1 100; Block 4228 0 64]
    [Block 4324 1 200; Block 4556 0 64; Block 4652 1 50].
Proof. split; [discriminate|left; reflexivity]. Qed.

Lemma in_order_choice s l1 b l2 :
  Inv s (l1 ++ b :: l2) →
  ∀ c, c ∈ l1 ++ b :: l2 →
       (c ∈ l1 ∧ addr c < addr b) ∨ c = b ∨ (c ∈ l2 ∧ addr b < addr c).
Proof.
  intros HI c Hc.
  pose proof (tiles_split _ _ _ _ _ (inv_tiles _ _ HI))
    as (_ & _ & Hpos & _ & _ & Hb & Ha).
  apply elem_of_app in Hc as [Hc|Hc]; [left; auto|].
  apply elem_of_cons in Hc as [->|Hc]; [right; left; reflexivity|].
  right. right. split; [exact Hc|]. specialize (Ha c Hc). consts. lia.
Qed.

Lemma allocate_first_fit_serves s l1 b l2 n fuel s1 :
  Inv s (l1 ++ b :: l2) → 0 < n →
  Forall (λ b, fits_block n b = false) l1 →
  fits_block n b = true →
  (length l1 < fuel)%nat →
  allocate_node (Some (addr b)) n s = Ok (Some (addr b), s1) →
  allocate_first_fit fuel n s = Ok (Some (addr b + sizeof_node_t), s1).
Proof.
  intros HI Hn Hall Hfit Hfuel Heq.
  unfold allocate_first_fit.
  rewrite bind_assert by (apply Z.ltb_lt; lia).
  rewrite bind_get, (bind_assert _ _ _ (Inv_nonnull _ _ HI)).
  rewrite (inv_head _ _ HI).
  erewrite first_fit_loop_hit; eauto using inv_dll.
  rewrite (bind_ok _ _ _ _ _ Heq). unfold memory_at, ret. cbn.
  rewrite Z.add_0_r. reflexivity.
Qed.

Lemma allocate_next_fit_serves s l1 b l2 n fuel s1 nd :
  Inv s (l1 ++ b :: l2) → next_node s = None → 0 < n →
  Forall (λ b, fits_block n b = false) l1 →
  fits_block n b = true →
  (length l1 < fuel)%nat →
  allocate_node (Some (addr b)) n s = Ok (Some (addr b), s1) →
  heap s1 !! addr b = Some nd →
  allocate_next_fit fuel n s =
  Ok (Some (addr b + sizeof_node_t), set_next_node (next nd) s1).
Proof.
  intros HI Hcur Hn Hall Hfit Hfuel Heq Hnd.
  assert (Hst : starts_at s [] (l1 ++ b :: l2)).
  { split; [destruct l1; discriminate|right; auto]. }
  unfold allocate_next_fit.
  rewrite bind_assert by (apply Z.ltb_lt; lia).
  rewrite !bind_get. cbv zeta.
  fold (wrap_to (linked_list s) (next_node s)).
  rewrite (starts_at_wrap s [] _ HI Hst).
  rewrite bind_assert by (destruct l1; reflexivity).
  pose proof (ring_rotation (heap s) [] (l1 ++ b :: l2) (inv_dll _ _ HI)
                ltac:(destruct l1; discriminate)) as Hr.
  cbn [app] in Hr. rewrite app_nil_r in Hr.
  rewrite <- (inv_head _ _ HI) in Hr at 1.
  replace (hd_addr (l1 ++ b :: l2) None)
    with (hd_addr (l1 ++ b :: l2) (hd_addr (l1 ++ b :: l2) None)) at 1
    by (destruct l1; reflexivity).
  rewrite next_fit_loop_hit; try assumption.
  - rewrite (bind_ok _ _ _ _ _ Heq). repeat step0.
    unfold memory_at, ret. cbn. rewrite Z.add_0_r. reflexivity.
  - intros c Hc.
    apply (rotation_fresh _ [] (l1 ++ b :: l2) _ c (inv_tiles _ _ HI)).
    rewrite app_nil_r. apply tail_prefix_elem. exact Hc.
Qed.

Lemma demo_reachable : reachable demo_2.
Proof.
  apply (reach_deallocate demo_1 (Some 4128)).
  - apply (reach_allocate demo_0 4 100 (Some 4128)).
    + apply (reach_initialise uninitialised 4096 2048 (Some NEXTFIT));
        reflexivity.
    + discriminate.
    + reflexivity.
    + reflexivity.
  - right.
    exists [(4096, Node (Some 4228) None 0 100);
            (4228, Node None (Some 4096) 1 1884)],
      4096, (Node (Some 4228) None 0 100).
    split; [vm_compute; repeat split|]. split; [left|reflexivity].
  - reflexivity.
Qed.

(** * The claims of the specification *)

(** C1 (structural invariants).  In every state reached from [initialise]
    by completed allocations and releases, the headers met from
    [linked_list] along [next] form a list [l] ending at [NULL] such that:
    every header's [next] is [NULL] or leads to a header whose [prev] is
    this one, and symmetrically for [prev]; the headers and payload sizes
    add up to [heap_size]; every size is positive; no two neighbours are
    both free; and [validate] passes. *)
Theorem reachable_structural_invariants s :
  reachable s →
  ∃ l, block_list s l
       ∧ (∀ a nd, (a, nd) ∈ l → linked (heap s) a nd)
       ∧ total_bytes l = heap_size s
       ∧ (∀ a nd, (a, nd) ∈ l → 0 < size nd)
       ∧ adjacent_free l = false
       ∧ validate (S (length l)) s = Ok (tt, s).
Proof.
  intros Hr. destruct (reachable_Inv s Hr) as [l HI].
  destruct (Inv_structural s l HI) as [H1 H2 H3 H4].
  exists (cells None l). split; [exact (Inv_block_list _ _ HI)|].
  repeat (split; [assumption|]). exact (Inv_validate s l HI).
Qed.

Lemma reachable_structural_invariants_witness :
  reachable demo_2
  ∧ ∃ l, block_list demo_2 l
         ∧ (∀ a nd, (a, nd) ∈ l → linked (heap demo_2) a nd)
         ∧ total_bytes l = heap_size demo_2
         ∧ (∀ a nd, (a, nd) ∈ l → 0 < size nd)
         ∧ adjacent_free l = false
         ∧ validate (S (length l)) demo_2 = Ok (tt, demo_2).
Proof.
  split; [exact demo_reachable|].
  exact (reachable_structural_invariants demo_2 demo_reachable).
Defined.

(** C2, as stated, fails: [validate] passes on a state whose list has two
    adjacent free blocks out of address order and whose cursor is on no
    block, and on a state whose head is [NULL]. *)
Lemma validate_misses_invariants :
  block_list scrambled scrambled_list
  ∧ validate 3 scrambled = Ok (tt, scrambled)
  ∧ adjacent_free scrambled_list = true
  ∧ 8000 + sizeof_node_t + 100 ≠ 4096
  ∧ next_node scrambled = Some 1
  ∧ (∀ x, x ∈ scrambled_list → x.1 ≠ 1)
  ∧ linked_list uninitialised = None
  ∧ validate 1 uninitialised = Ok (tt, uninitialised).
Proof.
  split; [vm_compute; repeat split|]. split; [reflexivity|].
  split; [reflexivity|]. split; [discriminate|]. split; [reflexivity|].
  split; [|split; reflexivity].
  intros x H. apply elem_of_cons in H as [->|H]; [discriminate|].
  apply elem_of_cons in H as [->|H]; [discriminate|]. inversion H.
Qed.

(** C2, amended.  On a state whose headers from [linked_list] along [next]
    are [l], [validate] ends within [length l + 1] steps of its loop; it
    passes exactly when every header of [l] has consistent links and a
    positive size and the headers and sizes add up, modulo [2^64], to
    [heap_size]; otherwise it aborts. *)
Theorem validate_checks s l fuel :
  block_list s l → (length l < fuel)%nat →
  (validate fuel s = Ok (tt, s)
   ∧ (∀ a nd, (a, nd) ∈ l → linked (heap s) a nd ∧ 0 < size nd)
   ∧ wrap (total_bytes l) = heap_size s)
  ∨ (∃ e, validate fuel s = Err e ∧ e ≠ OutOfFuel
          ∧ ¬ ((∀ a nd, (a, nd) ∈ l → linked (heap s) a nd ∧ 0 < size nd)
               ∧ wrap (total_bytes l) = heap_size s)).
Proof.
  intros Hl Hfuel.
  destruct (validate_cases s l fuel Hl Hfuel) as [[H1 [H2 H3]]|H];
    [left; auto|right; exact H].
Qed.

Lemma validate_checks_witness :
  block_list (example_state None) (cells None example_blocks)
  ∧ (length (cells None example_blocks) < 6)%nat
  ∧ validate 6 (example_state None) = Ok (tt, example_state None)
  ∧ wrap (total_bytes (cells None example_blocks))
    = heap_size (example_state None).
Proof.
  assert (Hl : block_list (example_state None) (cells None example_blocks))
    by (vm_compute; repeat split).
  split; [exact Hl|]. split; [vm_compute; lia|].
  destruct (validate_checks (example_state None) (cells None example_blocks)
              6 Hl ltac:(vm_compute; lia))
    as [(H1 & _ & H3)|(e & He & _)].
  - split; [exact H1|exact H3].
  - exfalso. vm_compute in He. discriminate.
Defined.

(** C3 (splitting law).  A free block [b] of payload size [bsize b] that
    serves a request of [n ≤ bsize b] bytes is split when
    [bsize b - n ≥ sizeof_node_t + MINIMUM_FREE_BLOCK]: [b] becomes busy with
    size exactly [n], a new free block of size [bsize b - n - sizeof_node_t]
    stands at [addr b + sizeof_node_t + n] between [b] and the old
    successor, with [prev]/[next] wired on both sides.  Otherwise [b] is
    consumed whole: busy, size and links unchanged, no block inserted.  In
    both cases every byte of the allocated payload reads zero. *)
Theorem allocate_node_split_law s l1 b l2 n :
  Inv s (l1 ++ b :: l2) → is_free b = true → 0 < n → n ≤ bsize b →
  ∃ s', allocate_node (Some (addr b)) n s = Ok (Some (addr b), s')
    ∧ Inv s' (l1 ++ split_block b n ++ l2)
    ∧ if sizeof_node_t + MINIMUM_FREE_BLOCK <=? bsize b - n then
        let new := addr b + sizeof_node_t + n in
        split_block b n =
          [Block (addr b) 0 n; Block new 1 (bsize b - n - sizeof_node_t)]
        ∧ heap s' !! addr b = Some (Node (Some new) (last_addr None l1) 0 n)
        ∧ heap s' !! new =
            Some (Node (hd_addr l2 None) (Some (addr b)) 1
                    (bsize b - n - sizeof_node_t))
        ∧ (∀ c, head l2 = Some c →
                prev <$> heap s' !! addr c = Some (Some new))
        ∧ ∀ i, 0 ≤ i < n → mem s' !! (addr b + sizeof_node_t + i) = Some 0
      else
        split_block b n = [Block (addr b) 0 (bsize b)]
        ∧ heap s' !! addr b =
            Some (Node (hd_addr l2 None) (last_addr None l1) 0 (bsize b))
        ∧ ∀ i, 0 ≤ i < bsize b →
               mem s' !! (addr b + sizeof_node_t + i) = Some 0.
Proof.
  intros HI Hfree Hn Hle.
  destruct (Inv_allocate_node s l1 b l2 n HI Hfree Hn Hle)
    as (s' & Heq & HI' & _ & Hm).
  exists s'. split; [exact Heq|]. split; [exact HI'|].
  pose proof (inv_dll _ _ HI') as Hd. revert Hd Hm.
  unfold split_block, zeroed_len.
  destruct (sizeof_node_t + MINIMUM_FREE_BLOCK <=? bsize b - n);
    cbn [app]; intros Hd Hm.
  - split; [reflexivity|].
    pose proof (dll_mid _ _ _ _ Hd) as Hb. cbn [addr bfree bsize hd_addr] in Hb.
    pose proof (dll_mid _ (l1 ++ [_]) _ _
                  ltac:(rewrite <- app_assoc; exact Hd)) as Hnew.
    rewrite last_addr_snoc in Hnew. cbn [addr bfree bsize] in Hnew.
    split; [exact Hb|]. split; [exact Hnew|]. split.
    + intros c Hc. destruct l2 as [|c' l2]; [discriminate|].
      injection Hc as ->.
      pose proof (dll_mid _ ((l1 ++ [_]) ++ [_]) _ _
                    ltac:(rewrite <- !app_assoc; exact Hd)) as Hc.
      rewrite Hc. cbn. rewrite last_addr_snoc. reflexivity.
    + intros i Hi. rewrite Hm, lookup_fill.
      destruct (decide _) as [_|Hno]; [reflexivity|lia].
  - split; [reflexivity|].
    pose proof (dll_mid _ _ _ _ Hd) as Hb. cbn [addr bfree bsize hd_addr] in Hb.
    split; [exact Hb|].
    intros i Hi. rewrite Hm, lookup_fill.
    destruct (decide _) as [_|Hno]; [reflexivity|lia].
Qed.

Lemma allocate_node_split_law_witness :
  Inv (example_state None) ([Block 4096 1 100; Block 4228 0 64]
                             ++ Block 4324 1 200
                             :: [Block 4556 0 64; Block 4652 1 50])
  ∧ is_free (Block 4324 1 200) = true ∧ 0 < 40 ∧ 40 ≤ bsize (Block 4324 1 200)
  ∧ ∃ s', allocate_node (Some 4324) 40 (example_state None) = Ok (Some 4324, s')
      ∧ heap s' !! 4324 = Some (Node (Some 4396) (Some 4228) 0 40)
      ∧ heap s' !! 4396 = Some (Node (Some 4556) (Some 4324) 1 128).
Proof.
  assert (HI : Inv (example_state None) example_blocks)
    by (apply example_Inv; left; reflexivity).
  split; [exact HI|]. split; [reflexivity|]. split; [reflexivity|].
  split; [discriminate|].
  destruct (allocate_node_split_law (example_state None)
              [Block 4096 1 100; Block 4228 0 64] (Block 4324 1 200)
              [Block 4556 0 64; Block 4652 1 50] 40 HI eq_refl eq_refl
              ltac:(discriminate))
    as (s' & Heq & _ & _ & Hb & Hnew & _).
  exists s'. split; [exact Heq|]. split; [exact Hb|exact Hnew].
Defined.

(** C4 (coalescing law).  Releasing a busy block [b] marks it free; when
    the block before it is free, that block absorbs [b] (its size grows by
    [sizeof_node_t + bsize b], [b] leaves the list and the result is the
    block before); when the block after the result is free, the result
    absorbs it in the same way.  So the list loses two blocks when both
    neighbours are free, one when exactly one is, none otherwise. *)
Theorem deallocate_coalesces s l1 b l2 :
  Inv s (l1 ++ b :: l2) → is_free b = false →
  ∃ s', deallocate (Some (addr b + sizeof_node_t)) s = Ok (tt, s')
    ∧ Inv s' (release l1 b l2)
    ∧ release l1 b l2 =
        (coalesce_prev l1 (Block (addr b) 1 (bsize b))).1
        ++ coalesce_next (coalesce_prev l1 (Block (addr b) 1 (bsize b))).2 l2
    ∧ (length (release l1 b l2) + (if prev_free l1 then 1 else 0)
       + (if next_free l2 then 1 else 0) = length (l1 ++ b :: l2))%nat.
Proof.
  intros HI Hbusy.
  destruct (deallocate_busy s l1 b l2 HI Hbusy) as (s' & Heq & HI' & _).
  exists s'. split; [exact Heq|]. split; [exact HI'|].
  split; [reflexivity|apply length_release].
Qed.

Lemma deallocate_coalesces_witness :
  Inv (example_state None) ([Block 4096 1 100] ++ Block 4228 0 64
                             :: [Block 4324 1 200; Block 4556 0 64;
                                 Block 4652 1 50])
  ∧ is_free (Block 4228 0 64) = false
  ∧ ∃ s', deallocate (Some (4228 + sizeof_node_t)) (example_state None)
          = Ok (tt, s')
      ∧ Inv s' [Block 4096 1 428; Block 4556 0 64; Block 4652 1 50].
Proof.
  assert (HI : Inv (example_state None) example_blocks)
    by (apply example_Inv; left; reflexivity).
  split; [exact HI|]. split; [reflexivity|].
  destruct (deallocate_coalesces (example_state None)
              [Block 4096 1 100] (Block 4228 0 64)
              [Block 4324 1 200; Block 4556 0 64; Block 4652 1 50]
              HI eq_refl)
    as (s' & Heq & HI' & _).
  exists s'. split; [exact Heq|exact HI'].
Defined.

(** C5 (cursor under coalescing).  When [deallocate] frees [b]: if the
    block before [b] is free and the cursor is [b], the cursor moves to
    [b]'s successor; then, if the block after the result is free and the
    cursor is that block, the cursor moves to that block's successor; it is
    unchanged otherwise.  The cursor that results is unset or a block of the
    resulting list.  And in every state the engine reaches, the cursor is
    unset or the address of a block on the list. *)
Theorem cursor_follows_coalescing :
  (∀ s l1 b l2,
     Inv s (l1 ++ b :: l2) → is_free b = false →
     ∃ s', deallocate (Some (addr b + sizeof_node_t)) s = Ok (tt, s')
       ∧ next_node s' =
           cursor_next
             (if prev_free l1 && bool_decide (next_node s = Some (addr b))
              then hd_addr l2 None else next_node s) l2
       ∧ block_list s' (cells None (release l1 b l2))
       ∧ cursor_ok (next_node s') (release l1 b l2))
  ∧ (∀ s, reachable s →
          ∃ l, block_list s l
               ∧ (next_node s = None
                  ∨ ∃ a nd, (a, nd) ∈ l ∧ next_node s = Some a)).
Proof.
  split; [|exact reachable_cursor].
  intros s l1 b l2 HI Hbusy.
  destruct (deallocate_busy s l1 b l2 HI Hbusy) as (s' & Heq & HI' & Hc & _).
  exists s'. split; [exact Heq|]. split; [exact Hc|].
  split; [exact (Inv_block_list _ _ HI')|exact (inv_cursor _ _ HI')].
Qed.

(** With the cursor on B (busy, between the free A and C), releasing B
    merges A, B and C, and the cursor, whose block is absorbed, moves on to
    D. *)
Lemma cursor_follows_coalescing_witness :
  Inv (example_state (Some 4228))
      ([Block 4096 1 100] ++ Block 4228 0 64
       :: [Block 4324 1 200; Block 4556 0 64; Block 4652 1 50])
  ∧ is_free (Block 4228 0 64) = false
  ∧ ∃ s', deallocate (Some (4228 + sizeof_node_t)) (example_state (Some 4228))
          = Ok (tt, s')
      ∧ next_node s' = Some 4556
      ∧ cursor_ok (next_node s')
          [Block 4096 1 428; Block 4556 0 64; Block 4652 1 50].
Proof.
  assert (HI : Inv (example_state (Some 4228)) example_blocks).
  { apply example_Inv. right. exists (Block 4228 0 64).
    split; [|reflexivity].
    apply list_elem_of_lookup_2 with (i := 1%nat). reflexivity. }
  split; [exact HI|]. split; [reflexivity|].
  destruct (proj1 cursor_follows_coalescing (example_state (Some 4228))
              [Block 4096 1 100] (Block 4228 0 64)
              [Block 4324 1 200; Block 4556 0 64; Block 4652 1 50]
              HI eq_refl)
    as (s' & Heq & Hc & _ & Hok).
  exists s'. split; [exact Heq|]. split; [exact Hc|exact Hok].
Defined.

(** C6 (next fit).  Let the list be [l1 ++ l2] with the cursor on the first
    block of [l2], or the cursor unset and [l1] empty, so that the walk
    starts at the head.  The walk meets the blocks in the order [l2 ++ l1],
    each once: as many iterations as there are blocks are enough.  When no
    block is free with size at least [n], the call returns [NULL] and the
    state, cursor included, is unchanged.  Otherwise it serves the first
    such block [b] of [l2 ++ l1], and the cursor becomes the successor of
    [b] in the resulting list, which is what [b]'s [next] field holds. *)
Theorem next_fit_selects s l1 l2 n fuel :
  Inv s (l1 ++ l2) → starts_at s l1 l2 → 0 < n →
  (length (l1 ++ l2) ≤ fuel)%nat →
  (Forall (λ b, fits_block n b = false) (l1 ++ l2)
   ∧ allocate_next_fit fuel n s = Ok (None, s))
  ∨ ∃ ra b rb la lb s',
      l2 ++ l1 = ra ++ b :: rb
      ∧ Forall (λ b, fits_block n b = false) ra ∧ fits_block n b = true
      ∧ l1 ++ l2 = la ++ b :: lb
      ∧ allocate_next_fit fuel n s = Ok (Some (addr b + sizeof_node_t), s')
      ∧ Inv s' (la ++ split_block b n ++ lb)
      ∧ next_node s' = hd_addr (tail (split_block b n) ++ lb) None
      ∧ next <$> heap s' !! addr b = Some (next_node s').
Proof.
  intros HI Hst Hn Hfuel.
  destruct (allocate_next_fit_spec s l1 l2 n fuel HI Hst Hn Hfuel)
    as [H|(ra & b & rb & la & lb & s' & Hrot & Hra & Hb & Hl & Heq & HI' & Hc
           & _)]; [left; exact H|right].
  exists ra, b, rb, la, lb, s'. repeat (split; [assumption|]).
  rewrite Hc. destruct (split_block_shape b n) as (tl & Hsh & _).
  revert HI'. rewrite Hsh. cbn [app tail]. intros HI'.
  pose proof (dll_mid _ _ _ _ (inv_dll _ _ HI')) as Hb'.
  cbn [addr] in Hb'. rewrite Hb'. reflexivity.
Qed.

Lemma next_fit_selects_witness :
  Inv (example_state (Some 4324))
    ([Block 4096 1 100; Block 4228 0 64]
     ++ [Block 4324 1 200; Block 4556 0 64; Block 4652 1 50])
  ∧ starts_at (example_state (Some 4324))
      [Block 4096 1 100; Block 4228 0 64]
      [Block 4324 1 200; Block 4556 0 64; Block 4652 1 50]
  ∧ 0 < 40
  ∧ (length example_blocks ≤ 5)%nat
  ∧ ∃ s', allocate_next_fit 5 40 (example_state (Some 4324))
          = Ok (Some (4324 + sizeof_node_t), s')
         ∧ next_node s' = Some 4396.
Proof.
  assert (HI : Inv (example_state (Some 4324)) example_blocks)
    by exact (example_Inv _ example_cursor_C).
  split; [exact HI|]. split; [exact example_starts_at_C|].
  split; [reflexivity|]. split; [vm_compute; lia|].
  destruct (next_fit_selects (example_state (Some 4324))
              [Block 4096 1 100; Block 4228 0 64]
              [Block 4324 1 200; Block 4556 0 64; Block 4652 1 50] 40 5
              HI example_starts_at_C eq_refl ltac:(vm_compute; lia))
    as [[Hall _]|(ra & b & rb & la & lb & s' & Hrot & Hra & Hb & _ & Heq & _
                  & Hc & _)].
  - exfalso. apply Forall_cons in Hall as [H _]. discriminate.
  - destruct ra as [|x ra].
    + injection Hrot as <- <-. exists s'. split; [exact Heq|exact Hc].
    + exfalso. injection Hrot as <- _.
      apply Forall_cons in Hra as [H _]. discriminate.
Defined.

(** C7 (best fit).  The whole list is scanned, in as many iterations as
    there are blocks.  When no block is free with size at least [n] the
    call returns [NULL] and changes nothing.  Otherwise the block [b] it
    serves is free with size at least [n], and every other such block is
    strictly larger, or as large and at a higher address. *)
Theorem best_fit_selects s l n fuel :
  Inv s l → 0 < n → (length l < fuel)%nat →
  (Forall (λ b, fits_block n b = false) l
   ∧ allocate_best_fit fuel n s = Ok (None, s))
  ∨ ∃ l1 b l2 s',
      l = l1 ++ b :: l2 ∧ fits_block n b = true
      ∧ (∀ c, c ∈ l → fits_block n c = true →
              bsize b < bsize c ∨ (bsize b = bsize c ∧ addr b ≤ addr c))
      ∧ allocate_best_fit fuel n s = Ok (Some (addr b + sizeof_node_t), s')
      ∧ Inv s' (l1 ++ split_block b n ++ l2).
Proof.
  intros HI Hn Hfuel.
  destruct (allocate_best_fit_spec s l n fuel HI Hn Hfuel)
    as [H|(l1 & b & l2 & s' & -> & Hb & H1 & H2 & Heq & HI' & _)];
    [left; exact H|right].
  exists l1, b, l2, s'. repeat (split; [try assumption; try reflexivity|]);
    [|exact HI'].
  intros c Hc Hf.
  destruct (in_order_choice s l1 b l2 HI c Hc)
    as [[Hc1 _]|[->|[Hc2 Hlt]]].
  - left. exact (H1 c Hc1 Hf).
  - right. lia.
  - specialize (H2 c Hc2 Hf). lia.
Qed.

Lemma best_fit_selects_witness :
  Inv (example_state None) example_blocks ∧ 0 < 40
  ∧ (length example_blocks < 6)%nat
  ∧ ((Forall (λ b, fits_block 40 b = false) example_blocks
      ∧ allocate_best_fit 6 40 (example_state None)
        = Ok (None, example_state None))
     ∨ ∃ l1 b l2 s',
         example_blocks = l1 ++ b :: l2 ∧ fits_block 40 b = true
         ∧ (∀ c, c ∈ example_blocks → fits_block 40 c = true →
                 bsize b < bsize c ∨ (bsize b = bsize c ∧ addr b ≤ addr c))
         ∧ allocate_best_fit 6 40 (example_state None)
           = Ok (Some (addr b + sizeof_node_t), s')
         ∧ Inv s' (l1 ++ split_block b 40 ++ l2)).
Proof.
  assert (HI : Inv (example_state None) example_blocks)
    by (apply example_Inv; left; reflexivity).
  split; [exact HI|]. split; [reflexivity|]. split; [vm_compute; lia|].
  exact (best_fit_selects (example_state None) example_blocks 40 6 HI
           eq_refl ltac:(vm_compute; lia)).
Defined.

(** C8 (worst fit).  The whole list is scanned, in as many iterations as
    there are blocks.  When no block is free with size at least [n] the
    call returns [NULL] and changes nothing.  Otherwise the block [b] it
    serves is free with size at least [n], and every other such block is
    strictly smaller, or as large and at a higher address. *)
Theorem worst_fit_selects s l n fuel :
  Inv s l → 0 < n → n < 2 ^ 64 → (length l < fuel)%nat →
  (Forall (λ b, fits_block n b = false) l
   ∧ allocate_worst_fit fuel n s = Ok (None, s))
  ∨ ∃ l1 b l2 s',
      l = l1 ++ b :: l2 ∧ fits_block n b = true
      ∧ (∀ c, c ∈ l → fits_block n c = true →
              bsize c < bsize b ∨ (bsize c = bsize b ∧ addr b ≤ addr c))
      ∧ allocate_worst_fit fuel n s = Ok (Some (addr b + sizeof_node_t), s')
      ∧ Inv s' (l1 ++ split_block b n ++ l2).
Proof.
  intros HI Hn Hmax Hfuel.
  destruct (allocate_worst_fit_spec s l n fuel HI Hn Hmax Hfuel)
    as [H|(l1 & b & l2 & s' & -> & Hb & H1 & H2 & Heq & HI' & _)];
    [left; exact H|right].
  exists l1, b, l2, s'. repeat (split; [try assumption; try reflexivity|]);
    [|exact HI'].
  intros c Hc Hf.
  destruct (in_order_choice s l1 b l2 HI c Hc)
    as [[Hc1 _]|[->|[Hc2 Hlt]]].
  - left. exact (H1 c Hc1 Hf).
  - right. lia.
  - specialize (H2 c Hc2 Hf). lia.
Qed.

Lemma worst_fit_selects_witness :
  Inv (example_state None) example_blocks ∧ 0 < 40 ∧ 40 < 2 ^ 64
  ∧ (length example_blocks < 6)%nat
  ∧ ((Forall (λ b, fits_block 40 b = false) example_blocks
      ∧ allocate_worst_fit 6 40 (example_state None)
        = Ok (None, example_state None))
     ∨ ∃ l1 b l2 s',
         example_blocks = l1 ++ b :: l2 ∧ fits_block 40 b = true
         ∧ (∀ c, c ∈ example_blocks → fits_block 40 c = true →
                 bsize c < bsize b ∨ (bsize c = bsize b ∧ addr b ≤ addr c))
         ∧ allocate_worst_fit 6 40 (example_state None)
           = Ok (Some (addr b + sizeof_node_t), s')
         ∧ Inv s' (l1 ++ split_block b 40 ++ l2)).
Proof.
  assert (HI : Inv (example_state None) example_blocks)
    by (apply example_Inv; left; reflexivity).
  split; [exact HI|]. split; [reflexivity|]. split; [reflexivity|].
  split; [vm_compute; lia|].
  exact (worst_fit_selects (example_state None) example_blocks 40 6 HI
           eq_refl eq_refl ltac:(vm_compute; lia)).
Defined.

(** C9 (double release).  When the payload reference [m] lies in the region
    and the header before it says free, [deallocate] appends the message
    [already_free] to the error stream and returns; the list head, the
    cursor, the recorded size, the installed allocator, every header and
    every payload byte are as they were. *)
Theorem deallocate_free_block s base m nd :
  linked_list s = Some base →
  base ≤ m → m < wrap (base + heap_size s) →
  heap s !! (m - sizeof_node_t) = Some nd →
  truthy (free nd) = true →
  deallocate (Some m) s =
  Ok (tt, State (linked_list s) (next_node s) (heap_size s) (allocate s)
            (heap s) (mem s) (stderr s ++ [already_free])).
Proof. apply deallocate_free. Qed.

Lemma deallocate_free_block_witness :
  linked_list (example_state None) = Some 4096
  ∧ 4096 ≤ 4128 ∧ 4128 < wrap (4096 + heap_size (example_state None))
  ∧ heap (example_state None) !! (4128 - sizeof_node_t)
    = Some (Node (Some 4228) None 1 100)
  ∧ truthy (free (Node (Some 4228) None 1 100)) = true
  ∧ deallocate (Some 4128) (example_state None) =
    Ok (tt, State (Some 4096) None 638 (Some first_fit) example_heap ∅
              [already_free]).
Proof.
  split; [reflexivity|]. split; [discriminate|]. split; [reflexivity|].
  split; [reflexivity|]. split; [reflexivity|].
  exact (deallocate_free_block (example_state None) 4096 4128
           (Node (Some 4228) None 1 100) eq_refl ltac:(discriminate) eq_refl
           eq_refl eq_refl).
Defined.

(** C10 (next fit with no cursor is first fit).  With the cursor unset,
    [allocate_next_fit] and [allocate_first_fit] fail on the same states,
    leaving them unchanged; and when they succeed they return the same
    payload reference, and the state after next fit is the state after first
    fit with the cursor set to the successor of the chosen block, nothing
    else being different. *)
Theorem next_fit_unset_is_first_fit s l n fuel :
  Inv s l → next_node s = None → 0 < n → (length l < fuel)%nat →
  (allocate_first_fit fuel n s = Ok (None, s)
   ∧ allocate_next_fit fuel n s = Ok (None, s))
  ∨ ∃ a s1 nd,
      allocate_first_fit fuel n s = Ok (Some a, s1)
      ∧ heap s1 !! (a - sizeof_node_t) = Some nd
      ∧ allocate_next_fit fuel n s = Ok (Some a, set_next_node (next nd) s1).
Proof.
  intros HI Hcur Hn Hfuel.
  destruct (first_fit_decide n l) as [Hall|(l1 & b & l2 & -> & H1 & Hb)].
  - left. split; [eapply allocate_first_fit_miss; eauto|].
    apply (allocate_next_fit_miss s [] l n fuel HI); try assumption.
    + split; [exact (inv_nonempty _ _ HI)|right; auto].
    + cbn [app]. lia.
  - right.
    apply fits_block_true in Hb as Hb'. destruct Hb' as [Hfree Hle].
    destruct (Inv_allocate_node s l1 b l2 n HI Hfree Hn Hle)
      as (s1 & Heq & HI' & _).
    destruct (split_block_shape b n) as (tl & Hsh & _).
    rewrite Hsh in HI'. cbn [app] in HI'.
    pose proof (dll_mid _ _ _ _ (inv_dll _ _ HI')) as Hnd. cbn [addr] in Hnd.
    assert (Hlen : (length l1 < fuel)%nat) by (rewrite length_app in Hfuel; lia).
    eexists (addr b + sizeof_node_t), s1, _. split; [|split].
    + eapply allocate_first_fit_serves; eauto.
    + replace (addr b + sizeof_node_t - sizeof_node_t) with (addr b) by lia.
      exact Hnd.
    + eapply allocate_next_fit_serves; eauto.
Qed.

Lemma next_fit_unset_is_first_fit_witness :
  Inv (example_state None) example_blocks
  ∧ next_node (example_state None) = None ∧ 0 < 40
  ∧ (length example_blocks < 6)%nat
  ∧ ((allocate_first_fit 6 40 (example_state None)
      = Ok (None, example_state None)
      ∧ allocate_next_fit 6 40 (example_state None)
        = Ok (None, example_state None))
     ∨ ∃ a s1 nd,
         allocate_first_fit 6 40 (example_state None) = Ok (Some a, s1)
         ∧ heap s1 !! (a - sizeof_node_t) = Some nd
         ∧ allocate_next_fit 6 40 (example_state None)
           = Ok (Some a, set_next_node (next nd) s1)).
Proof.
  assert (HI : Inv (example_state None) example_blocks)
    by (apply example_Inv; left; reflexivity).
  split; [exact HI|]. split; [reflexivity|]. split; [reflexivity|].
  split; [vm_compute; lia|].
  exact (next_fit_unset_is_first_fit (example_state None) example_blocks 40 6
           HI eq_refl eq_refl ltac:(vm_compute; lia)).
Defined.

(** * Beyond the claims

    Lemmas for the further properties of the code: the call through the
    pointer [allocate] for the four algorithms at once, the blocks in use,
    what each statement leaves as it is, and the loops of the tests. *)

(** ** The call through the pointer *)

Lemma call_allocate_spec s l f n fuel :
  Inv s l → allocate s = Some f → 0 < n → n < 2 ^ 64 →
  (length l < fuel)%nat →
  (Forall (λ b, fits_block n b = false) l
   ∧ call_allocate fuel n s = Ok (None, s))
  ∨ ∃ l1 b l2 s',
      l = l1 ++ b :: l2 ∧ fits_block n b = true
      ∧ call_allocate fuel n s = Ok (Some (payload b), s')
      ∧ Inv s' (l1 ++ split_block b n ++ l2)
      ∧ linked_list s' = linked_list s ∧ heap_size s' = heap_size s
      ∧ allocate s' = allocate s ∧ stderr s' = stderr s
      ∧ mem s' = fill (payload b) 0 (zeroed_len b n) (mem s).
Proof.
  intros HI Hf Hn Hmax Hfuel. unfold call_allocate, payload.
  rewrite bind_get, Hf. destruct f.
  - destruct (allocate_first_fit_spec s l n fuel HI Hn Hfuel)
      as [H|(l1 & b & l2 & s' & Hl & _ & Hb & Heq & HI' & HG & Hm)];
      [left; exact H|right].
    destruct HG as (G1 & G2 & G3 & G4 & G5).
    exists l1, b, l2, s'. repeat (split; [first [assumption|congruence]|]); assumption.
  - destruct (starts_at_exists s l HI) as (l1 & l2 & -> & Hst).
    destruct (allocate_next_fit_spec s l1 l2 n fuel HI Hst Hn ltac:(lia))
      as [H|(ra & b & rb & la & lb & s' & _ & _ & Hb & Hl & Heq & HI' & _
             & G1 & G3 & G4 & G5 & Hm)];
      [left; exact H|right].
    exists la, b, lb, s'. repeat (split; [first [assumption|congruence]|]); assumption.
  - destruct (allocate_best_fit_spec s l n fuel HI Hn Hfuel)
      as [H|(l1 & b & l2 & s' & Hl & Hb & _ & _ & Heq & HI' & HG & Hm)];
      [left; exact H|right].
    destruct HG as (G1 & G2 & G3 & G4 & G5).
    exists l1, b, l2, s'. repeat (split; [first [assumption|congruence]|]); assumption.
  - destruct (allocate_worst_fit_spec s l n fuel HI Hn Hmax Hfuel)
      as [H|(l1 & b & l2 & s' & Hl & Hb & _ & _ & Heq & HI' & HG & Hm)];
      [left; exact H|right].
    destruct HG as (G1 & G2 & G3 & G4 & G5).
    exists l1, b, l2, s'. repeat (split; [first [assumption|congruence]|]); assumption.
Qed.

(** ** The blocks in use *)

Lemma busy_app l1 l2 : busy (l1 ++ l2) = busy l1 ++ busy l2.
Proof. apply filter_app. Qed.

Lemma busy_cons_free b l : is_free b = true → busy (b :: l) = busy l.
Proof.
  intros H. unfold busy. rewrite filter_cons.
  destruct (decide _) as [E|_]; [congruence|reflexivity].
Qed.

Lemma busy_cons_busy b l : is_free b = false → busy (b :: l) = b :: busy l.
Proof.
  intros H. unfold busy. rewrite filter_cons.
  destruct (decide _) as [_|E]; [reflexivity|congruence].
Qed.

Lemma busy_all_free l : Forall (λ c, is_free c = true) l → busy l = [].
Proof.
  induction 1 as [|c l Hc _ IH]; [reflexivity|].
  rewrite busy_cons_free by exact Hc. exact IH.
Qed.

Lemma elem_of_busy c l : c ∈ busy l ↔ c ∈ l ∧ is_free c = false.
Proof. unfold busy. rewrite list_elem_of_filter. tauto. Qed.

Lemma busy_split b n :
  busy (split_block b n) = [Block (addr b) 0 (zeroed_len b n)].
Proof.
  destruct (split_block_shape b n) as (tl & -> & Htl).
  rewrite busy_cons_busy by reflexivity.
  rewrite (busy_all_free _ Htl). reflexivity.
Qed.

Lemma busy_release l1 b l2 : busy (release l1 b l2) = busy l1 ++ busy l2.
Proof.
  unfold release.
  destruct (coalesce_prev l1 (freed b)) as [pre r] eqn:E. cbn [fst snd].
  assert (Hr : is_free r = true ∧ busy pre = busy l1).
  { destruct (coalesce_prev_shape _ _ _ _ E)
      as [(-> & -> & _)|(pb & -> & -> & Hpb & _)].
    - split; reflexivity.
    - split; [exact Hpb|]. rewrite busy_app, (busy_cons_free pb) by exact Hpb.
      cbn. rewrite app_nil_r. reflexivity. }
  destruct Hr as [Hr Hpre]. rewrite busy_app, Hpre. f_equal.
  destruct l2 as [|nb l2]; cbn [coalesce_next].
  - apply busy_cons_free. exact Hr.
  - destruct (is_free nb) eqn:Hnb.
    + rewrite busy_cons_free by exact Hr.
      rewrite busy_cons_free by exact Hnb. reflexivity.
    + apply busy_cons_free. exact Hr.
Qed.

(** Between two blocks in use there is at most one free block. *)
Lemma coalesced_length_head l :
  coalesced l →
  (length l ≤ 2 * length (busy l) + (if next_free l then 1 else 0))%nat.
Proof.
  induction l as [|b l IH]; intros Hc; [cbn; lia|].
  specialize (IH (coalesced_tail _ _ Hc)).
  cbn [next_free length]. destruct (is_free b) eqn:Hb.
  - rewrite busy_cons_free by exact Hb.
    destruct l as [|c l]; [cbn; lia|].
    destruct Hc as [Hbc _]. rewrite Hb in Hbc. cbn in Hbc.
    cbn [next_free] in IH. rewrite Hbc in IH. cbn [length] in *. lia.
  - rewrite busy_cons_busy by exact Hb. cbn [length].
    destruct (next_free l); lia.
Qed.

Lemma coalesced_length l :
  coalesced l → (length l ≤ 2 * length (busy l) + 1)%nat.
Proof.
  intros Hc. pose proof (coalesced_length_head l Hc).
  destruct (next_free l); lia.
Qed.

Lemma Inv_all_free s l :
  Inv s l → busy l = [] →
  ∃ b, l = [b] ∧ is_free b = true ∧ Some (addr b) = linked_list s
       ∧ bsize b = heap_size s - sizeof_node_t.
Proof.
  intros HI Hb.
  pose proof (coalesced_length l (inv_coalesced _ _ HI)) as Hlen.
  rewrite Hb in Hlen. cbn [length] in Hlen.
  pose proof (inv_nonempty _ _ HI) as Hne.
  destruct l as [|b [|c l]]; [congruence| |cbn [length] in Hlen; lia].
  exists b. split; [reflexivity|].
  destruct (is_free b) eqn:Hf.
  - split; [reflexivity|].
    pose proof (inv_tiles _ _ HI) as (Ha & _ & He). cbn [tiles] in He.
    pose proof (inv_head _ _ HI) as Hh. cbn [hd_addr] in Hh.
    split; [congruence|lia].
  - rewrite busy_cons_busy in Hb by exact Hf. discriminate.
Qed.

Lemma length_in_use pv l : length (in_use (cells pv l)) = length (busy l).
Proof.
  revert pv. induction l as [|b l IH]; intros pv; [reflexivity|].
  cbn [cells]. unfold in_use, busy. rewrite !filter_cons. cbn [snd free].
  fold (is_free b). destruct (decide (is_free b = false)); cbn [length];
    unfold in_use, busy in IH; rewrite IH; reflexivity.
Qed.

Lemma length_release_le l1 b l2 :
  (length (release l1 b l2) ≤ length (l1 ++ b :: l2))%nat.
Proof. pose proof (length_release l1 b l2). lia. Qed.

(** ** Where the blocks lie *)

(** The blocks of a tiling do not overlap. *)
Lemma tiles_apart a l1 b l2 e c :
  tiles a (l1 ++ b :: l2) e → c ∈ l1 ++ l2 →
  block_end c ≤ addr b ∨ block_end b ≤ addr c.
Proof.
  intros Ht Hc. unfold block_end.
  destruct (tiles_split _ _ _ _ _ Ht) as (_ & _ & _ & H1 & _ & _ & H2).
  apply elem_of_app in Hc as [Hc|Hc].
  - left. destruct (tiles_bounds _ _ _ H1) as [_ H]. specialize (H c Hc). lia.
  - right. auto.
Qed.

Lemma zeroed_len_bounds b n :
  n ≤ bsize b →
  n ≤ zeroed_len b n ≤ bsize b
  ∧ zeroed_len b n < n + sizeof_node_t + MINIMUM_FREE_BLOCK.
Proof.
  intros H. unfold zeroed_len.
  destruct (sizeof_node_t + MINIMUM_FREE_BLOCK <=? bsize b - n) eqn:E;
    [apply Z.leb_le in E|apply Z.leb_gt in E]; consts; lia.
Qed.

Lemma elem_of_middle {A} (x : A) l1 l2 : x ∈ l1 ++ x :: l2.
Proof. apply elem_of_app. right. left. Qed.

Lemma lookup_fill_outside d v n m x :
  ¬ (d ≤ x < d + n) → fill d v n m !! x = m !! x.
Proof.
  intros H. rewrite lookup_fill. destruct (decide _); [contradiction|reflexivity].
Qed.

Lemma release_covers a l1 b l2 e :
  tiles a (l1 ++ b :: l2) e →
  ∃ r, r ∈ release l1 b l2 ∧ is_free r = true
       ∧ addr r ≤ addr b ∧ block_end b ≤ block_end r.
Proof.
  intros Ht. unfold release.
  destruct (coalesce_prev l1 (freed b)) as [pre r] eqn:E. cbn [fst snd].
  assert (Hr : is_free r = true ∧ addr r ≤ addr b
               ∧ block_end b ≤ block_end r).
  { destruct (coalesce_prev_shape _ _ _ _ E)
      as [(-> & -> & _)|(pb & -> & -> & Hpb & _)].
    - unfold block_end. cbn. split; [reflexivity|lia].
    - split; [exact Hpb|]. rewrite <- app_assoc in Ht.
      apply tiles_app in Ht as (m & _ & Ht). cbn [app tiles] in Ht.
      unfold block_end. cbn. consts. lia. }
  destruct Hr as (Hf & Ha & He).
  assert (Hl2 : ∀ c, c ∈ l2 → 0 < bsize c).
  { intros c Hc. destruct (tiles_bounds _ _ _ Ht) as [_ H].
    apply (H c). apply elem_of_app. right. right. exact Hc. }
  destruct l2 as [|nb l2]; cbn [coalesce_next].
  - exists r. split; [apply elem_of_app; right; left|auto].
  - destruct (is_free nb).
    + exists (merged r nb). split; [apply elem_of_app; right; left|].
      split; [exact Hf|]. split; [exact Ha|].
      specialize (Hl2 nb ltac:(left)). unfold block_end in *. cbn. consts. lia.
    + exists r. split; [apply elem_of_app; right; left|auto].
Qed.

(** ** Alignment *)

Lemma aligned_split a b n :
  (a | sizeof_node_t) → (a | n) → (a | addr b) → (a | bsize b) →
  aligned a (split_block b n).
Proof.
  intros Hh Hn Ha Hs. unfold split_block, aligned.
  destruct (sizeof_node_t + MINIMUM_FREE_BLOCK <=? bsize b - n);
    repeat constructor; cbn [addr bsize]; try assumption.
  - apply Z.divide_add_r; [apply Z.divide_add_r|]; assumption.
  - apply Z.divide_sub_r; [apply Z.divide_sub_r|]; assumption.
Qed.

Lemma aligned_merged a x y :
  (a | sizeof_node_t) → (a | addr x) ∧ (a | bsize x) →
  (a | addr y) ∧ (a | bsize y) →
  (a | addr (merged x y)) ∧ (a | bsize (merged x y)).
Proof.
  intros Hh [Hx1 Hx2] [_ Hy]. split; [exact Hx1|]. cbn [merged bsize].
  apply Z.divide_add_r; [apply Z.divide_add_r|]; assumption.
Qed.

Lemma aligned_release a l1 b l2 :
  (a | sizeof_node_t) → aligned a (l1 ++ b :: l2) →
  aligned a (release l1 b l2).
Proof.
  intros Hh Hal. unfold aligned in *.
  apply Forall_app in Hal as [H1 H2]. apply Forall_cons in H2 as [Hb H2].
  unfold release.
  destruct (coalesce_prev l1 (freed b)) as [pre r] eqn:E. cbn [fst snd].
  assert (Hr : Forall (λ b, (a | addr b) ∧ (a | bsize b)) pre
               ∧ (a | addr r) ∧ (a | bsize r)).
  { destruct (coalesce_prev_shape _ _ _ _ E)
      as [(-> & -> & _)|(pb & -> & -> & _ & _)].
    - split; [exact H1|exact Hb].
    - apply Forall_app in H1 as [Hpre Hpb]. apply Forall_cons in Hpb as [Hpb _].
      split; [exact Hpre|]. apply aligned_merged; assumption. }
  destruct Hr as [Hpre Hr]. apply Forall_app. split; [exact Hpre|].
  destruct l2 as [|nb l2]; cbn [coalesce_next].
  - repeat constructor; apply Hr.
  - apply Forall_cons in H2 as [Hnb H2]. destruct (is_free nb).
    + constructor; [apply aligned_merged; assumption|exact H2].
    + constructor; [exact Hr|]. constructor; assumption.
Qed.

(** ** What the statements leave as it is *)

Section Keeps.
Context (R : state → state → Prop) `{!PreOrder R}.

Lemma keeps_ret {A} (a : A) : keeps R (ret a).
Proof. intros s x s' [= _ <-]. reflexivity. Qed.

Lemma keeps_get {A} (f : state → A) : keeps R (get f).
Proof. intros s x s' [= _ <-]. reflexivity. Qed.

Lemma keeps_fail {A} e : keeps R (fail (A := A) e).
Proof. intros s x s' [=]. Qed.

Lemma keeps_assert b : keeps R (assert b).
Proof. destruct b; [apply keeps_ret|apply keeps_fail]. Qed.

Lemma keeps_rd {A} (f : node_t → A) p : keeps R (rd f p).
Proof.
  intros s x s'. unfold rd. destruct p as [a|]; [|discriminate].
  destruct (heap s !! a); [|discriminate]. intros [= _ <-]. reflexivity.
Qed.

Lemma keeps_bind {A B} (m : M A) (k : A → M B) :
  keeps R m → (∀ a, keeps R (k a)) → keeps R (bind m k).
Proof.
  intros Hm Hk s b s'. unfold bind.
  destruct (m s) as [[a s1]|e] eqn:E; [|discriminate].
  intros H. transitivity s1; [exact (Hm _ _ _ E)|exact (Hk _ _ _ _ H)].
Qed.

Lemma keeps_modify (f : state → state) :
  (∀ s, R s (f s)) → keeps R (modify f).
Proof. intros H s x s' [= _ <-]. apply H. Qed.

Lemma keeps_wr (u : node_t → node_t) p :
  (∀ s a nd, heap s !! a = Some nd →
             R s (set_heap (<[a := u nd]> (heap s)) s)) →
  keeps R (wr u p).
Proof.
  intros H s x s'. unfold wr. destruct p as [a|]; [|discriminate].
  destruct (heap s !! a) as [nd|] eqn:E; [|discriminate].
  intros [= _ <-]. apply H. exact E.
Qed.
End Keeps.

#[local] Instance same_flags_preorder : PreOrder same_flags.
Proof.
  split; [intros s a; reflexivity|].
  intros s1 s2 s3 H1 H2 a. rewrite H2. apply H1.
Qed.

Lemma same_flags_wr (u : node_t → node_t) p :
  (∀ nd, free (u nd) = free nd) → keeps same_flags (wr u p).
Proof.
  intros Hu. apply keeps_wr; try apply _. intros s a nd Hnd x.
  cbn [set_heap heap]. destruct (decide (x = a)) as [->|Hne].
  - rewrite lookup_insert_eq, Hnd. cbn. f_equal. apply Hu.
  - rewrite lookup_insert_ne by congruence. reflexivity.
Qed.

Ltac keeps_step :=
  first
    [ match goal with |- PreOrder _ => apply _ end
    | match goal with |- ∀ _, keeps _ _ => intros ? end
    | match goal with |- keeps _ (if ?c then _ else _) => destruct c end
    | match goal with |- keeps _ (match ?c with _ => _ end) => destruct c end
    | apply keeps_ret
    | apply keeps_get
    | apply keeps_rd
    | apply keeps_assert
    | apply keeps_fail
    | apply keeps_bind ].

Ltac keeps_flags :=
  repeat first
    [ apply same_flags_wr; intros ?; reflexivity
    | apply keeps_modify; [..|intros ? ?; reflexivity]
    | keeps_step ].

(** After [p->free = 1], nothing in [deallocate] clears a flag. *)
Lemma deallocate_flag s l1 b l2 s' :
  Inv s (l1 ++ b :: l2) → is_free b = false →
  deallocate (Some (payload b)) s = Ok (tt, s') →
  free <$> heap s' !! addr b = Some 1.
Proof.
  intros HI Hbusy. pose proof (Inv_base _ _ HI) as Hll.
  destruct HI as [Hh Hne Hd Ht Hbase Hlim Hco Hcur].
  set (base := uintptr (linked_list s)) in *.
  pose proof (tiles_split _ _ _ _ _ Ht) as (Hlo & Hhi & Hpos & _).
  pose proof (dll_mid _ _ _ _ Hd) as Hb.
  apply truthy_false in Hbusy as Hfree0.
  unfold deallocate, payload. rewrite bind_get, Hll. repeat step0.
  rewrite nonnull_Some. repeat step0.
  rewrite bind_assert.
  2:{ cbn [uintptr default id].
      rewrite wrap_small by (consts; lia). apply andb_true_iff.
      split; [apply Z.leb_le|apply Z.ltb_lt]; consts; lia. }
  replace (header_of (Some (addr b + sizeof_node_t))) with (Some (addr b))
    by (unfold header_of; cbn; f_equal; lia).
  repeat step0. cbn [free]. rewrite Hfree0. cbn [truthy Z.eqb negb].
  erewrite bind_wr by eassumption.
  intros H.
  assert (Hk : same_flags
                 (set_heap (<[addr b := with_free 1
                     (Node (hd_addr l2 None) (last_addr None l1) (bfree b)
                        (bsize b))]> (heap s)) s) s').
  { revert H. match goal with |- ?m ?s1 = _ → _ =>
      apply (λ K : keeps same_flags m, K s1 tt s') end.
    unfold andM. keeps_flags. }
  rewrite (Hk (addr b)). cbn [set_heap heap]. rewrite lookup_insert_eq.
  reflexivity.
Qed.

Section Frame.
Context (R : state → state → Prop) `{!PreOrder R}.
Hypothesis R_heap : ∀ s h, R s (set_heap h s).
Hypothesis R_cursor : ∀ s p, R s (set_next_node p s).

Lemma keeps_wr_frame u p : keeps R (wr u p).
Proof. apply keeps_wr; try apply _. intros s a nd _. apply R_heap. Qed.

Lemma keeps_cursor p : keeps R (modify (set_next_node p)).
Proof. apply keeps_modify; try apply _. intros s. apply R_cursor. Qed.

Lemma fits_keeps p n : keeps R (fits p n).
Proof. unfold fits, andM. repeat keeps_step. Qed.

Lemma best_fit_loop_keeps fuel p n sz cur :
  keeps R (best_fit_loop fuel p n sz cur).
Proof.
  revert p sz cur. induction fuel as [|fuel IH]; intros p sz cur;
    cbn [best_fit_loop]; unfold andM;
    repeat first [apply fits_keeps | apply IH | keeps_step].
Qed.

Lemma worst_fit_loop_keeps fuel p sz cur :
  keeps R (worst_fit_loop fuel p sz cur).
Proof.
  revert p sz cur. induction fuel as [|fuel IH]; intros p sz cur;
    cbn [worst_fit_loop]; unfold andM;
    repeat first [apply IH | keeps_step].
Qed.

Section Allocate.
Hypothesis R_mem : ∀ s m, R s (set_mem m s).

Lemma allocate_node_keeps p n : keeps R (allocate_node p n).
Proof.
  unfold allocate_node, create_node, memset.
  repeat first [apply keeps_wr_frame
               | apply keeps_modify; [..|intros ?; first [apply R_heap|apply R_mem]]
               | keeps_step].
Qed.

Lemma first_fit_loop_keeps fuel p n : keeps R (first_fit_loop fuel p n).
Proof.
  revert p. induction fuel as [|fuel IH]; intros p; cbn [first_fit_loop];
    repeat first [apply allocate_node_keeps | apply fits_keeps | apply IH
                 | keeps_step].
Qed.

Lemma next_fit_loop_keeps fuel p posn n :
  keeps R (next_fit_loop fuel p posn n).
Proof.
  revert p. induction fuel as [|fuel IH]; intros p; cbn [next_fit_loop];
    repeat first [apply allocate_node_keeps | apply fits_keeps | apply IH
                 | apply keeps_cursor | keeps_step].
Qed.

Lemma call_allocate_keeps fuel n : keeps R (call_allocate fuel n).
Proof.
  unfold call_allocate, allocate_first_fit, allocate_next_fit,
    allocate_best_fit, allocate_worst_fit.
  repeat first [apply allocate_node_keeps | apply first_fit_loop_keeps
               | apply next_fit_loop_keeps | apply best_fit_loop_keeps
               | apply worst_fit_loop_keeps | keeps_step].
Qed.
End Allocate.

Section Deallocate.
Hypothesis R_stderr : ∀ s e, R s (set_stderr e s).

Lemma deallocate_keeps memory : keeps R (deallocate memory).
Proof.
  unfold deallocate, fprintf_stderr, andM, merge_prev, merge_next.
  repeat first [apply keeps_wr_frame | apply keeps_cursor
               | apply keeps_modify; [..|intros ?; apply R_stderr]
               | keeps_step].
Qed.
End Deallocate.
End Frame.



#[local] Instance allocate_frame_preorder : PreOrder allocate_frame.
Proof.
  split; [intros s; repeat split|].
  intros s1 s2 s3 (A1 & A2 & A3 & A4) (B1 & B2 & B3 & B4).
  repeat split; congruence.
Qed.

#[local] Instance deallocate_frame_preorder : PreOrder deallocate_frame.
Proof.
  split; [intros s; repeat split|].
  intros s1 s2 s3 (A1 & A2 & A3 & A4) (B1 & B2 & B3 & B4).
  repeat split; congruence.
Qed.

(** ** print_all_nodes *)

Section PrintingLoop.
Variable pointer_text : ptr → string.

Lemma print_all_nodes_loop_lines s pv l i fuel :
  dll (heap s) pv l None → (length l < fuel)%nat →
  print_all_nodes_loop pointer_text fuel (hd_addr l None) i s
  = Ok (node_lines pointer_text (next_node s) i l, s).
Proof.
  revert pv i fuel. induction l as [|b l IH]; intros pv i fuel Hd Hfuel;
    (destruct fuel as [|fuel]; [cbn in Hfuel; lia|]).
  - reflexivity.
  - destruct Hd as [Hb Hd]. cbn [print_all_nodes_loop hd_addr].
    rewrite nonnull_Some. cbv zeta. unfold print_node. cbv zeta.
    repeat step0. cbn [size free next].
    erewrite bind_ok; [|apply (IH (Some (addr b))); [exact Hd|cbn in Hfuel; lia]].
    reflexivity.
Qed.
End PrintingLoop.

(** ** The loops of the tests *)

Lemma for_loop_inv {A} (I : Z → A → state → Prop) body stop step :
  0 < step →
  (∀ i a s, I i a s → i < stop →
            ∃ a' s', body i a s = Ok (a', s') ∧ I (i + step) a' s') →
  ∀ fuel n a s,
    I n a s → (Z.to_nat (stop - n) < fuel)%nat →
    ∃ i a' s', for_loop fuel n stop step body a s = Ok (a', s')
               ∧ I i a' s' ∧ stop ≤ i.
Proof.
  intros Hstep Hbody. induction fuel as [|fuel IH]; intros n a s HI Hfuel;
    [lia|].
  cbn [for_loop]. destruct (n <? stop) eqn:E.
  - apply Z.ltb_lt in E.
    destruct (Hbody n a s HI E) as (a' & s' & Hb & HI').
    rewrite (bind_ok _ _ _ _ _ Hb). apply IH; [exact HI'|lia].
  - apply Z.ltb_ge in E. exists n, a, s. auto.
Qed.

Lemma length_cells pv l : length (cells pv l) = length l.
Proof.
  revert pv. induction l as [|b l IH]; intros pv; [reflexivity|].
  cbn. rewrite IH. reflexivity.
Qed.

Lemma Inv_validate_fuel s l fuel :
  Inv s l → (length l < fuel)%nat → validate fuel s = Ok (tt, s).
Proof.
  intros HI Hfuel.
  destruct (validate_cases s (cells None l) fuel (Inv_block_list _ _ HI)
              ltac:(rewrite length_cells; exact Hfuel))
    as [[Heq _]|(e & _ & _ & Hno)]; [exact Heq|exfalso].
  apply Hno. destruct (Inv_structural _ _ HI) as [Hlk Htot Hpos _].
  split; [intros a nd Hin; split; eauto|].
  rewrite Htot. apply wrap_small.
  pose proof (inv_base _ _ HI). pose proof (inv_limit _ _ HI).
  destruct (tiles_bounds _ _ _ (inv_tiles _ _ HI)) as [Hle _]. lia.
Qed.

(** ** The blocks a caller holds *)

Lemma held_length (ps : list Z) s l :
  Inv s l → ps ≡ₚ payload <$> busy l → (length l ≤ 2 * length ps + 1)%nat.
Proof.
  intros HI Hp. pose proof (coalesced_length l (inv_coalesced _ _ HI)) as H.
  apply Permutation_length in Hp. rewrite length_fmap in Hp. lia.
Qed.

Lemma held_validate g ps s fuel :
  held g ps s → (2 * length ps + 1 < fuel)%nat →
  validate fuel s = Ok (tt, s).
Proof.
  intros (l & HI & Hp & _) Hfuel. apply (Inv_validate_fuel s l); [exact HI|].
  pose proof (held_length ps s l HI Hp). lia.
Qed.

Lemma held_null g ps s : held g ps s → deallocate None s = Ok (tt, s).
Proof.
  intros (l & HI & _). apply deallocate_NULL. exact (Inv_nonnull _ _ HI).
Qed.

Lemma held_release g m ps s :
  held g (m :: ps) s →
  ∃ s', deallocate (Some m) s = Ok (tt, s') ∧ held g ps s'.
Proof.
  intros (l & HI & Hp & G1 & G2 & G3 & G4).
  assert (Hm : m ∈ payload <$> busy l) by (rewrite <- Hp; left).
  apply list_elem_of_fmap in Hm as (b & -> & Hb).
  apply elem_of_busy in Hb as [Hb Hbusy].
  apply list_elem_of_split in Hb as (l1 & l2 & ->).
  destruct (deallocate_busy s l1 b l2 HI Hbusy)
    as (s' & Heq & HI' & _ & H1 & H2 & H3 & H4 & _).
  exists s'. split; [exact Heq|]. exists (release l1 b l2).
  split; [exact HI'|]. split; [|repeat split; congruence].
  rewrite busy_release. rewrite busy_app, busy_cons_busy in Hp by exact Hbusy.
  rewrite fmap_app, fmap_cons in Hp. rewrite fmap_app.
  exact (Permutation_cons_app_inv _ _ Hp).
Qed.

Lemma held_allocate g f ps s n fuel :
  held g ps s → allocate g = Some f → 0 < n → n < 2 ^ 64 →
  (2 * length ps + 1 < fuel)%nat →
  ∃ p s', call_allocate fuel n s = Ok (p, s')
    ∧ held g (match p with Some m => m :: ps | None => ps end) s'.
Proof.
  intros (l & HI & Hp & G1 & G2 & G3 & G4) Hf Hn Hmax Hfuel.
  pose proof (held_length ps s l HI Hp) as Hlen.
  destruct (call_allocate_spec s l f n fuel HI ltac:(congruence) Hn Hmax
              ltac:(lia))
    as [[_ Heq]|(l1 & b & l2 & s' & -> & Hb & Heq & HI' & H1 & H2 & H3 & H4
                 & _)].
  - exists None, s. split; [exact Heq|]. exists l. auto 10.
  - exists (Some (payload b)), s'. split; [exact Heq|].
    exists (l1 ++ split_block b n ++ l2). split; [exact HI'|].
    split; [|repeat split; congruence].
    apply fits_block_true in Hb as [Hfree _].
    rewrite busy_app, busy_cons_free in Hp by exact Hfree.
    rewrite !busy_app, busy_split, !fmap_app. cbn [fmap list_fmap].
    fold (payload b). unfold payload at 2. cbn [addr].
    fold (payload b). rewrite fmap_app in Hp.
    rewrite Hp. apply Permutation_middle.
Qed.

#[local] Instance held_perm g : Proper ((≡ₚ) ==> (=) ==> iff) (held g).
Proof.
  intros ps ps' Hp s ? <-. unfold held.
  split; intros (l & HI & H & G); exists l; (split; [exact HI|]);
    (split; [|exact G]); [rewrite <- Hp|rewrite Hp]; exact H.
Qed.

(** ** The array of pointers *)

Lemma omap_id_cons (p : ptr) (l : list ptr) :
  omap id (p :: l) = option_list p ++ omap id l.
Proof. destruct p; reflexivity. Qed.

Lemma omap_id_swap (blocks : list ptr) i p q :
  blocks !! i = Some p →
  omap id (q :: blocks) ≡ₚ omap id (p :: <[i := q]> blocks).
Proof.
  intros Hi. rewrite insert_take_drop by (eapply lookup_lt_Some; exact Hi).
  rewrite <- (take_drop_middle _ _ _ Hi) at 1.
  rewrite !omap_id_cons, !omap_app, !omap_id_cons.
  rewrite (Permutation_app_swap_app (option_list q)). 
  rewrite (Permutation_app_swap_app (option_list p) (omap id (take i blocks))).
  apply Permutation_app_head. apply Permutation_app_swap_app.
Qed.

Lemma length_omap_id (l : list ptr) : (length (omap id l) ≤ length l)%nat.
Proof.
  induction l as [|p l IH]; [reflexivity|].
  rewrite omap_id_cons, length_app. destruct p; cbn in *; lia.
Qed.

Lemma omap_id_replicate n : omap id (replicate n (None : ptr)) = [].
Proof. induction n as [|n IH]; [reflexivity|exact IH]. Qed.

Lemma load_ok (blocks : list ptr) n p s :
  0 ≤ n → blocks !! Z.to_nat n = Some p → load blocks n s = Ok (p, s).
Proof.
  intros Hn Hp. unfold load. destruct (0 <=? n) eqn:E;
    [|apply Z.leb_gt in E; lia].
  rewrite Hp. reflexivity.
Qed.

Lemma store_ok (blocks : list ptr) n p s :
  0 ≤ n < Z.of_nat (length blocks) →
  store blocks n p s = Ok (<[Z.to_nat n := p]> blocks, s).
Proof.
  intros Hn. unfold store.
  replace ((0 <=? n) && (n <? Z.of_nat (length blocks))) with true;
    [reflexivity|].
  symmetry. apply andb_true_iff. split; [apply Z.leb_le|apply Z.ltb_lt]; lia.
Qed.

Lemma held_free_slot g (blocks : list ptr) i p s :
  held g (omap id blocks) s → blocks !! i = Some p →
  ∃ s', deallocate p s = Ok (tt, s')
        ∧ held g (omap id (<[i := None]> blocks)) s'.
Proof.
  intros Hh Hi. destruct p as [m|].
  - pose proof (omap_id_swap blocks i (Some m) None Hi) as Hp.
    cbn [omap list_omap id] in Hp. rewrite Hp in Hh.
    exact (held_release g m _ s Hh).
  - exists s. split; [exact (held_null g _ s Hh)|].
    rewrite list_insert_id by exact Hi. exact Hh.
Qed.

Lemma held_fill_slot g f (blocks : list ptr) i s n fuel :
  held g (omap id blocks) s → blocks !! i = Some None →
  allocate g = Some f → 0 < n → n < 2 ^ 64 →
  (2 * length blocks + 1 < fuel)%nat →
  ∃ q s', call_allocate fuel n s = Ok (q, s')
          ∧ held g (omap id (<[i := q]> blocks)) s'.
Proof.
  intros Hh Hi Hf Hn Hmax Hfuel.
  pose proof (length_omap_id blocks) as Hlen.
  destruct (held_allocate g f _ s n fuel Hh Hf Hn Hmax ltac:(lia))
    as (q & s' & Heq & Hh').
  exists q, s'. split; [exact Heq|].
  pose proof (omap_id_swap blocks i None q Hi) as Hp.
  cbn [omap list_omap id] in Hp. fold (omap id (<[i := q]> blocks)) in Hp.
  rewrite <- Hp. destruct q; exact Hh'.
Qed.

Lemma held_start s l blocks : Inv s l → owns blocks l → held s (omap id blocks) s.
Proof. intros HI Ho. exists l. auto 10. Qed.

Lemma held_nil_inv g s :
  held g [] s →
  ∃ b, Inv s [b] ∧ is_free b = true ∧ Some (addr b) = linked_list g
       ∧ bsize b = heap_size g - sizeof_node_t ∧ stderr s = stderr g.
Proof.
  intros (l & HI & Hp & G1 & G2 & G3 & G4).
  apply Permutation_nil_l in Hp. symmetry in Hp. apply fmap_nil_inv in Hp.
  destruct (Inv_all_free s l HI Hp) as (b & -> & Hf & Ha & Hs).
  exists b. split; [exact HI|]. split; [exact Hf|].
  split; [congruence|]. split; [congruence|exact G4].
Qed.

Lemma deallocate_blocks_held g blocks s fuel :
  held g (omap id blocks) s →
  Z.of_nat (length blocks) = NUMBER_OF_BLOCKS → (1000 < fuel)%nat →
  ∃ s', deallocate_blocks fuel blocks s = Ok (blocks, s') ∧ held g [] s'.
Proof.
  intros Hh Hlen Hfuel. unfold deallocate_blocks.
  destruct (for_loop_inv
              (λ i a st, a = blocks ∧ 0 ≤ i
                         ∧ held g (omap id (drop (Z.to_nat i) blocks)) st)
              (λ n blocks, p <- load blocks n ;; deallocate p ;;; ret blocks)
              NUMBER_OF_BLOCKS 1 ltac:(lia)) with (fuel := fuel) (n := 0)
              (a := blocks) (s := s)
    as (i & a' & s' & Heq & (-> & Hi & Hh') & Hstop).
  - intros i a st (-> & Hi & Hst) Hlt.
    destruct (lookup_lt_is_Some_2 blocks (Z.to_nat i)) as [p Hp];
      [unfold NUMBER_OF_BLOCKS in *; lia|].
    rewrite (bind_ok _ _ _ _ _ (load_ok _ _ _ _ Hi Hp)).
    rewrite (drop_S _ _ _ Hp) in Hst.
    replace (Z.to_nat (i + 1)) with (S (Z.to_nat i)) by lia.
    destruct p as [m|].
    + destruct (held_release g m _ st Hst) as (s' & Heq & Hh').
      exists blocks, s'. rewrite (bind_ok _ _ _ _ _ Heq).
      split; [reflexivity|]. split; [reflexivity|]. split; [lia|exact Hh'].
    + exists blocks, st. rewrite (bind_ok _ _ _ _ _ (held_null g _ st Hst)).
      split; [reflexivity|]. split; [reflexivity|]. split; [lia|exact Hst].
  - split; [reflexivity|]. split; [lia|exact Hh].
  - unfold NUMBER_OF_BLOCKS. lia.
  - exists s'. split; [exact Heq|].
    rewrite drop_ge in Hh' by (unfold NUMBER_OF_BLOCKS in *; lia). exact Hh'.
Qed.

Lemma merg_test_held g f s fuel :
  held g [] s → allocate g = Some f → (2001 < fuel)%nat →
  ∃ s', merg_test fuel s = Ok (tt, s') ∧ held g [] s'.
Proof.
  intros Hh Hf Hfuel. unfold merg_test. cbv zeta.
  assert (Hbound : ∀ blocks : list ptr,
            Z.of_nat (length blocks) = NUMBER_OF_BLOCKS →
            (2 * length (omap id blocks) + 1 < fuel)%nat).
  { intros blocks Hlen. pose proof (length_omap_id blocks).
    unfold NUMBER_OF_BLOCKS in *. lia. }
  (* the first loop *)
  destruct (for_loop_inv
              (λ i a st, Z.of_nat (length a) = NUMBER_OF_BLOCKS ∧ 0 ≤ i
                         ∧ (∀ j, (Z.to_nat i ≤ j < length a)%nat →
                                 a !! j = Some None)
                         ∧ held g (omap id a) st)
              (λ n blocks, p <- call_allocate fuel 64 ;; store blocks n p)
              NUMBER_OF_BLOCKS 1 ltac:(lia)) with (fuel := fuel) (n := 0)
              (a := no_blocks) (s := s)
    as (i1 & b1 & s1 & Heq1 & (Hlen1 & _ & _ & Hh1) & _).
  { intros i a st (Hlen & Hi & Hnone & Hst) Hlt.
    destruct (held_fill_slot g f a (Z.to_nat i) st 64 fuel Hst)
      as (q & s' & Heq & Hh'); try (reflexivity || assumption).
    { apply Hnone. unfold NUMBER_OF_BLOCKS in *. lia. }
    { unfold NUMBER_OF_BLOCKS in *. lia. }
    rewrite (bind_ok _ _ _ _ _ Heq), store_ok by lia.
    eexists _, _. split; [reflexivity|]. rewrite length_insert.
    split; [exact Hlen|]. split; [lia|]. split; [|exact Hh'].
    intros j Hj. rewrite list_lookup_insert_ne by lia.
    apply Hnone. lia. }
  { unfold no_blocks. rewrite length_replicate, omap_id_replicate.
    split; [unfold NUMBER_OF_BLOCKS; lia|]. split; [lia|].
    split; [|exact Hh]. intros j Hj. apply lookup_replicate_2. lia. }
  { unfold NUMBER_OF_BLOCKS. lia. }
  rewrite (bind_ok _ _ _ _ _ Heq1).
  rewrite (bind_ok _ _ _ _ _ (held_validate g _ s1 fuel Hh1 (Hbound _ Hlen1))).
  (* the second loop *)
  destruct (for_loop_inv
              (λ i a st, Z.of_nat (length a) = NUMBER_OF_BLOCKS ∧ 0 ≤ i
                         ∧ held g (omap id a) st)
              (λ n blocks,
                 p <- load blocks n ;;
                 deallocate p ;;;
                 store blocks n None)
              NUMBER_OF_BLOCKS 2 ltac:(lia)) with (fuel := fuel) (n := 0)
              (a := b1) (s := s1)
    as (i2 & b2 & s2 & Heq2 & (Hlen2 & _ & Hh2) & _).
  { intros i a st (Hlen & Hi & Hst) Hlt.
    destruct (lookup_lt_is_Some_2 a (Z.to_nat i)) as [p Hp]; [lia|].
    rewrite (bind_ok _ _ _ _ _ (load_ok _ _ _ _ Hi Hp)).
    destruct (held_free_slot g a _ p st Hst Hp) as (s' & Heq & Hh').
    rewrite (bind_ok _ _ _ _ _ Heq), store_ok by lia.
    eexists _, _. split; [reflexivity|]. rewrite length_insert.
    split; [exact Hlen|]. split; [lia|exact Hh']. }
  { split; [exact Hlen1|]. split; [lia|exact Hh1]. }
  { unfold NUMBER_OF_BLOCKS. lia. }
  rewrite (bind_ok _ _ _ _ _ Heq2).
  rewrite (bind_ok _ _ _ _ _ (held_validate g _ s2 fuel Hh2 (Hbound _ Hlen2))).
  destruct (deallocate_blocks_held g b2 s2 fuel Hh2 Hlen2 ltac:(lia))
    as (s3 & Heq3 & Hh3).
  rewrite (bind_ok _ _ _ _ _ Heq3).
  exists s3. split; [|exact Hh3].
  apply (held_validate g [] s3 fuel Hh3). cbn. lia.
Qed.

Lemma random_num_bounds start end_ r :
  0 ≤ r → 0 < end_ →
  start ≤ random_num start end_ r < start + end_.
Proof.
  intros Hr He. unfold random_num.
  pose proof (Z.rem_bound_pos r end_ Hr He). lia.
Qed.

Lemma soak_test_held g f rand s fuel :
  held g [] s → allocate g = Some f → (∀ k, 0 ≤ rand k) →
  (2500 < fuel)%nat →
  ∃ s', soak_test rand fuel s = Ok (tt, s') ∧ held g [] s'.
Proof.
  intros Hh Hf Hrand Hfuel. unfold soak_test. cbv zeta.
  assert (Hbound : ∀ blocks : list ptr,
            Z.of_nat (length blocks) = NUMBER_OF_BLOCKS →
            (2 * length (omap id blocks) + 1 < fuel)%nat).
  { intros blocks Hlen. pose proof (length_omap_id blocks).
    unfold NUMBER_OF_BLOCKS in *. lia. }
  match goal with |- context [for_loop fuel 0 2500 1 ?body no_blocks] =>
    destruct (for_loop_inv
                (λ i a st, Z.of_nat (length a) = NUMBER_OF_BLOCKS ∧ 0 ≤ i
                           ∧ held g (omap id a) st)
                body 2500 1 ltac:(lia)) with (fuel := fuel) (n := 0)
                (a := no_blocks) (s := s)
      as (i1 & b1 & s1 & Heq1 & (Hlen1 & _ & Hh1) & _)
  end.
  { intros i a st (Hlen & Hi & Hst) Hlt. cbv beta zeta.
    pose proof (random_num_bounds 0 NUMBER_OF_BLOCKS
                  (rand (Z.to_nat (2 * i))) (Hrand _) eq_refl) as Hblock.
    pose proof (random_num_bounds 1 2046
                  (rand (Z.to_nat (2 * i + 1))) (Hrand _) eq_refl) as Hsize.
    set (block := random_num 0 NUMBER_OF_BLOCKS _) in *.
    set (size := random_num 1 2046 _) in *.
    destruct (lookup_lt_is_Some_2 a (Z.to_nat block)) as [p Hp]; [lia|].
    rewrite (bind_ok _ _ _ _ _ (load_ok a block p st ltac:(lia) Hp)).
    destruct p as [m|].
    - rewrite bool_decide_eq_false_2 by discriminate.
      destruct (held_free_slot g a _ _ st Hst Hp) as (s' & Heq & Hh').
      rewrite (bind_ok _ _ _ _ _ Heq), store_ok by lia.
      eexists _, _. split; [reflexivity|]. rewrite length_insert.
      split; [exact Hlen|]. split; [lia|exact Hh'].
    - rewrite bool_decide_eq_true_2 by reflexivity.
      rewrite (wrap_small size) by lia.
      destruct (held_fill_slot g f a (Z.to_nat block) st size fuel Hst Hp Hf)
        as (q & s' & Heq & Hh'); [lia|lia|unfold NUMBER_OF_BLOCKS in *; lia|].
      rewrite (bind_ok _ _ _ _ _ Heq), store_ok by lia.
      eexists _, _. split; [reflexivity|]. rewrite length_insert.
      split; [exact Hlen|]. split; [lia|exact Hh']. }
  { unfold no_blocks. rewrite length_replicate, omap_id_replicate.
    split; [unfold NUMBER_OF_BLOCKS; lia|]. split; [lia|exact Hh]. }
  { lia. }
  rewrite (bind_ok _ _ _ _ _ Heq1).
  rewrite (bind_ok _ _ _ _ _ (held_validate g _ s1 fuel Hh1 (Hbound _ Hlen1))).
  destruct (deallocate_blocks_held g b1 s1 fuel Hh1 Hlen1 ltac:(lia))
    as (s3 & Heq3 & Hh3).
  rewrite (bind_ok _ _ _ _ _ Heq3).
  exists s3. split; [|exact Hh3].
  apply (held_validate g [] s3 fuel Hh3). cbn. lia.
Qed.

(** ** The states the engine reaches *)

Lemma deallocate_returns s l memory :
  Inv s l → releasable s memory → ∃ s', deallocate memory s = Ok (tt, s').
Proof.
  intros HI [->|(lc & a & nd & Hlc & Hin & ->)].
  - exists s. exact (deallocate_NULL _ (Inv_nonnull _ _ HI)).
  - pose proof (chain_functional _ _ _ _ Hlc (Inv_block_list _ _ HI)) as ->.
    apply cells_elem in Hin as (b & Hb & -> & Hf & Hs).
    apply list_elem_of_split in Hb as (l1 & l2 & ->).
    destruct (is_free b) eqn:Hfree.
    + pose proof (tiles_split _ _ _ _ _ (inv_tiles _ _ HI))
        as (Hlo & Hhi & Hpos & _).
      pose proof (inv_base _ _ HI) as Hbase.
      pose proof (inv_limit _ _ HI) as Hlim.
      eexists. eapply deallocate_free.
      * exact (Inv_base _ _ HI).
      * consts. lia.
      * rewrite wrap_small by (consts; lia). consts. lia.
      * replace (addr b + sizeof_node_t - sizeof_node_t) with (addr b) by lia.
        exact (dll_mid _ _ _ _ (inv_dll _ _ HI)).
      * exact Hfree.
    + destruct (deallocate_busy s l1 b l2 HI Hfree) as (s1 & Heq & _).
      exists s1. exact Heq.
Qed.

Lemma reachable_allocate s : reachable s → ∃ f, allocate s = Some f.
Proof.
  induction 1 as [s0 m sz alg s Hm Hlim Hinit
                 |s fuel n p s' _ [f Hf] Hn0 Hmax Hal
                 |s memory s' _ [f Hf] Hrel Hde].
  - destruct (initialise_Ok_inv _ _ _ _ _ Hinit) as [Hsz [f Hf]].
    rewrite (initialise_ok s0 m sz alg f Hsz ltac:(lia) Hf) in Hinit.
    injection Hinit as <-. exists f. reflexivity.
  - exists f.
    destruct (call_allocate_keeps allocate_frame) with (fuel := fuel) (n := n)
      (s := s) (a := p) (s' := s') as (_ & _ & Ha & _);
      try (intros; repeat split); [exact Hal|congruence].
  - exists f.
    destruct (deallocate_keeps deallocate_frame) with (memory := memory)
      (s := s) (a := tt) (s' := s') as (_ & _ & Ha & _);
      try (intros; repeat split); [exact Hde|congruence].
Qed.

(** ** The worked regions *)

Lemma demo_0_Inv : Inv demo_0 [Block 4096 1 2016].
Proof.
  constructor.
  - reflexivity.
  - discriminate.
  - vm_compute. repeat split.
  - vm_compute. repeat split.
  - reflexivity.
  - reflexivity.
  - vm_compute. repeat split.
  - left. reflexivity.
Qed.

Lemma example_Inv_None : Inv (example_state None) example_blocks.
Proof. apply example_Inv. left. reflexivity. Qed.

Lemma example_aligned : aligned 2 example_blocks.
Proof.
  repeat (constructor;
          [split; apply Z.mod_divide; (discriminate || reflexivity)|]).
  constructor.
Qed.

(** * Further properties of the code *)



(** X2 (the assertions of initialise).  A [NULL] region aborts.  A size of
    at most [MINIMUM_HEAP_SIZE] aborts: a region of exactly 1024 bytes is
    refused.  With both satisfied, a name that is none of the four ends in
    [exit(EXIT_FAILURE)]. *)
Theorem initialise_guards s sz algorithm :
  initialise None sz algorithm s = Err AssertFailed
  ∧ (∀ m, sz ≤ MINIMUM_HEAP_SIZE →
          initialise (Some m) sz algorithm s = Err AssertFailed)
  ∧ (∀ m, MINIMUM_HEAP_SIZE < sz → allocator_of algorithm = None →
          initialise (Some m) sz algorithm s = Err ExitFailure).
Proof.
  split; [reflexivity|]. split.
  - intros m Hsz. unfold initialise.
    rewrite bind_assert by reflexivity.
    unfold bind at 1. replace (MINIMUM_HEAP_SIZE <? sz) with false; [reflexivity|].
    symmetry. apply Z.ltb_ge. exact Hsz.
  - intros m Hsz Halg. destruct algorithm as [a|]; [|discriminate].
    apply initialise_unknown; assumption.
Qed.

Lemma initialise_guards_witness :
  1024 ≤ MINIMUM_HEAP_SIZE
  ∧ initialise (Some 4096) 1024 None uninitialised = Err AssertFailed
  ∧ MINIMUM_HEAP_SIZE < 2048
  ∧ allocator_of (Some "firstfit") = None
  ∧ initialise (Some 4096) 2048 (Some "firstfit") uninitialised
    = Err ExitFailure.
Proof.
  split; [discriminate|]. split.
  { apply (initialise_guards uninitialised 1024 None). discriminate. }
  split; [reflexivity|]. split; [reflexivity|].
  apply (initialise_guards uninitialised 2048 (Some "firstfit"));
    reflexivity.
Defined.

(** X3 (the first allocation).  Right after [initialise] on [sz] bytes at
    [m], under each of the four algorithms, a request of [n] bytes is
    served at [m + sizeof_node_t] when [n ≤ sz - sizeof_node_t], the list
    being the one block split for [n]; a larger request returns [NULL] and
    changes nothing.  So the largest request a region can serve is its size
    less one header. *)
Theorem first_allocation s m sz algorithm s0 n fuel :
  0 < m → m + sz < 2 ^ 64 →
  initialise (Some m) sz algorithm s = Ok (tt, s0) →
  0 < n → n < 2 ^ 64 → (1 < fuel)%nat →
  if n <=? sz - sizeof_node_t then
    ∃ s1, call_allocate fuel n s0 = Ok (Some (m + sizeof_node_t), s1)
      ∧ Inv s1 (split_block (Block m 1 (sz - sizeof_node_t)) n)
  else call_allocate fuel n s0 = Ok (None, s0).
Proof.
  intros Hm Hlim Hinit Hn Hmax Hfuel.
  destruct (initialise_Ok_inv _ _ _ _ _ Hinit) as [Hsz [f Hf']].
  destruct (initialise_Inv s m sz algorithm f Hm Hlim Hsz Hf')
    as (s' & Heq & HI & _ & Hf & _).
  rewrite Hinit in Heq. injection Heq as <-.
  destruct (call_allocate_spec s0 _ f n fuel HI Hf Hn Hmax Hfuel)
    as [[Hall Heq]|(l1 & b & l2 & s1 & Hl & Hb & Heq & HI' & _)].
  - apply Forall_cons in Hall as [Hno _]. unfold fits_block in Hno.
    cbn in Hno. apply Z.leb_gt in Hno.
    destruct (n <=? sz - sizeof_node_t) eqn:E;
      [apply Z.leb_le in E; lia|exact Heq].
  - destruct l1 as [|x [|y l1]]; try discriminate.
    injection Hl as <- <-.
    apply fits_block_true in Hb as [_ Hle]. cbn in Hle.
    destruct (n <=? sz - sizeof_node_t) eqn:E; [|apply Z.leb_gt in E; lia].
    exists s1. rewrite app_nil_r in HI'. split; [exact Heq|exact HI'].
Qed.

Lemma first_allocation_witness :
  0 < 4096 ∧ 4096 + 2048 < 2 ^ 64
  ∧ initialise (Some 4096) 2048 (Some NEXTFIT) uninitialised = Ok (tt, demo_0)
  ∧ 0 < 2016 ∧ 2016 < 2 ^ 64 ∧ (1 < 2)%nat
  ∧ (∃ s1, call_allocate 2 2016 demo_0 = Ok (Some 4128, s1)
           ∧ Inv s1 [Block 4096 0 2016])
  ∧ call_allocate 2 2017 demo_0 = Ok (None, demo_0).
Proof.
  split; [reflexivity|]. split; [reflexivity|]. split; [reflexivity|].
  split; [reflexivity|]. split; [reflexivity|]. split; [lia|]. split.
  - exact (first_allocation uninitialised 4096 2048 (Some NEXTFIT) demo_0
             2016 2 eq_refl eq_refl eq_refl eq_refl eq_refl ltac:(lia)).
  - exact (first_allocation uninitialised 4096 2048 (Some NEXTFIT) demo_0
             2017 2 eq_refl eq_refl eq_refl eq_refl eq_refl ltac:(lia)).
Defined.

(** X4 (first fit).  When no block is free with size at least [n],
    [allocate_first_fit] returns [NULL] and changes nothing.  Otherwise the
    block [b] it serves is free with size at least [n] and no such block
    has a lower address; the cursor is as it was. *)
Theorem first_fit_selects s l n fuel :
  Inv s l → 0 < n → (length l < fuel)%nat →
  (Forall (λ b, fits_block n b = false) l
   ∧ allocate_first_fit fuel n s = Ok (None, s))
  ∨ ∃ l1 b l2 s',
      l = l1 ++ b :: l2 ∧ fits_block n b = true
      ∧ (∀ c, c ∈ l → fits_block n c = true → addr b ≤ addr c)
      ∧ allocate_first_fit fuel n s = Ok (Some (addr b + sizeof_node_t), s')
      ∧ Inv s' (l1 ++ split_block b n ++ l2)
      ∧ next_node s' = next_node s.
Proof.
  intros HI Hn Hfuel.
  destruct (allocate_first_fit_spec s l n fuel HI Hn Hfuel)
    as [H|(l1 & b & l2 & s' & -> & H1 & Hb & Heq & HI' & HG & _)];
    [left; exact H|right].
  exists l1, b, l2, s'. split; [reflexivity|]. split; [exact Hb|].
  split; [|split; [exact Heq|split; [exact HI'|apply HG]]].
  intros c Hc Hf.
  destruct (in_order_choice s l1 b l2 HI c Hc) as [[Hc1 _]|[->|[_ Hlt]]];
    [exfalso|lia|lia].
  rewrite Forall_forall in H1. specialize (H1 c Hc1). congruence.
Qed.

Lemma first_fit_selects_witness :
  Inv (example_state None) example_blocks ∧ 0 < 40
  ∧ (length example_blocks < 6)%nat
  ∧ ((Forall (λ b, fits_block 40 b = false) example_blocks
      ∧ allocate_first_fit 6 40 (example_state None)
        = Ok (None, example_state None))
     ∨ ∃ l1 b l2 s',
         example_blocks = l1 ++ b :: l2 ∧ fits_block 40 b = true
         ∧ (∀ c, c ∈ example_blocks → fits_block 40 c = true →
                 addr b ≤ addr c)
         ∧ allocate_first_fit 6 40 (example_state None)
           = Ok (Some (addr b + sizeof_node_t), s')
         ∧ Inv s' (l1 ++ split_block b 40 ++ l2)
         ∧ next_node s' = next_node (example_state None)).
Proof.
  split; [exact example_Inv_None|]. split; [reflexivity|].
  split; [vm_compute; lia|].
  exact (first_fit_selects (example_state None) example_blocks 40 6
           example_Inv_None eq_refl ltac:(vm_compute; lia)).
Defined.

(** X5 (the assertions of the allocators).  Each of the four functions
    aborts on a request of zero bytes, in every state.  Each aborts on every
    request when there is no list yet ([linked_list] and the cursor are
    [NULL]): allocation before [initialise]. *)
Theorem allocate_guards fuel s :
  (allocate_first_fit fuel 0 s = Err AssertFailed
   ∧ allocate_next_fit fuel 0 s = Err AssertFailed
   ∧ allocate_best_fit fuel 0 s = Err AssertFailed
   ∧ allocate_worst_fit fuel 0 s = Err AssertFailed)
  ∧ (linked_list s = None → next_node s = None → ∀ n,
     allocate_first_fit fuel n s = Err AssertFailed
     ∧ allocate_next_fit fuel n s = Err AssertFailed
     ∧ allocate_best_fit fuel n s = Err AssertFailed
     ∧ allocate_worst_fit fuel n s = Err AssertFailed).
Proof.
  split; [repeat split|].
  intros Hll Hnn n.
  unfold allocate_first_fit, allocate_next_fit, allocate_best_fit,
    allocate_worst_fit.
  cbv [bind assert get ret fail]. destruct (0 <? n); [|repeat split].
  rewrite Hll, Hnn. repeat split.
Qed.

Lemma allocate_guards_witness :
  linked_list uninitialised = None ∧ next_node uninitialised = None
  ∧ allocate_first_fit 1 64 uninitialised = Err AssertFailed
  ∧ allocate_next_fit 1 64 uninitialised = Err AssertFailed
  ∧ allocate_best_fit 1 64 uninitialised = Err AssertFailed
  ∧ allocate_worst_fit 1 64 uninitialised = Err AssertFailed.
Proof.
  split; [reflexivity|]. split; [reflexivity|].
  exact (proj2 (allocate_guards 1 uninitialised) eq_refl eq_refl 64).
Defined.

(** X6 (when allocation succeeds).  Under each algorithm, [allocate(n)]
    returns a block whenever some free block has at least [n] bytes, and
    returns [NULL], changing nothing, whenever none has: no algorithm
    misses a block that fits. *)
Theorem allocate_succeeds_when_fits s l f n fuel :
  Inv s l → allocate s = Some f → 0 < n → n < 2 ^ 64 →
  (length l < fuel)%nat →
  ((∃ b, b ∈ l ∧ is_free b = true ∧ n ≤ bsize b) →
   ∃ m s', call_allocate fuel n s = Ok (Some m, s'))
  ∧ ((∀ b, b ∈ l → is_free b = true → bsize b < n) →
     call_allocate fuel n s = Ok (None, s)).
Proof.
  intros HI Hf Hn Hmax Hfuel.
  destruct (call_allocate_spec s l f n fuel HI Hf Hn Hmax Hfuel)
    as [[Hall Heq]|(l1 & b & l2 & s' & -> & Hb & Heq & _)].
  - split; [|intros _; exact Heq].
    intros (b & Hb & Hfree & Hle). exfalso.
    rewrite Forall_forall in Hall. specialize (Hall b Hb).
    assert (fits_block n b = true) by (apply fits_block_true; auto).
    congruence.
  - split; [intros _; eauto|].
    intros Hno. exfalso. apply fits_block_true in Hb as [Hfree Hle].
    specialize (Hno b (elem_of_middle _ _ _) Hfree). lia.
Qed.

Lemma allocate_succeeds_when_fits_witness :
  Inv (example_state None) example_blocks
  ∧ allocate (example_state None) = Some first_fit
  ∧ 0 < 200 ∧ 200 < 2 ^ 64 ∧ (length example_blocks < 6)%nat
  ∧ (∃ b, b ∈ example_blocks ∧ is_free b = true ∧ 200 ≤ bsize b)
  ∧ ∃ m s', call_allocate 6 200 (example_state None) = Ok (Some m, s').
Proof.
  split; [exact example_Inv_None|]. split; [reflexivity|].
  split; [reflexivity|]. split; [reflexivity|]. split; [vm_compute; lia|].
  assert (H : ∃ b, b ∈ example_blocks ∧ is_free b = true ∧ 200 ≤ bsize b).
  { exists (Block 4324 1 200). split; [|split; [reflexivity|discriminate]].
    apply list_elem_of_lookup_2 with (i := 2%nat). reflexivity. }
  split; [exact H|].
  exact (proj1 (allocate_succeeds_when_fits (example_state None)
                  example_blocks first_fit 200 6 example_Inv_None eq_refl
                  eq_refl eq_refl ltac:(vm_compute; lia)) H).
Defined.

(** X7 (the block allocate returns).  When [allocate(n)] returns [m], the
    list has a busy block whose payload starts at [m]; its size [k] is at
    least [n] and less than [n + sizeof_node_t + MINIMUM_FREE_BLOCK]; header
    and payload lie inside the region; they overlap no block that was in
    use before the call; and the [k] bytes of the payload read zero. *)
Theorem allocate_returns_fresh_block s l f n fuel m s' :
  Inv s l → allocate s = Some f → 0 < n → n < 2 ^ 64 →
  (length l < fuel)%nat →
  call_allocate fuel n s = Ok (Some m, s') →
  ∃ l' k,
    Inv s' l' ∧ Block (m - sizeof_node_t) 0 k ∈ l'
    ∧ n ≤ k ∧ k < n + sizeof_node_t + MINIMUM_FREE_BLOCK
    ∧ uintptr (linked_list s) + sizeof_node_t ≤ m
    ∧ m + k ≤ uintptr (linked_list s) + heap_size s
    ∧ (∀ c, c ∈ l → is_free c = false →
            block_end c ≤ m - sizeof_node_t ∨ m + k ≤ addr c)
    ∧ (∀ i, 0 ≤ i < k → mem s' !! (m + i) = Some 0).
Proof.
  intros HI Hf Hn Hmax Hfuel Hcall.
  destruct (call_allocate_spec s l f n fuel HI Hf Hn Hmax Hfuel)
    as [[_ Heq]|(l1 & b & l2 & s1 & -> & Hb & Heq & HI' & _ & _ & _ & _ & Hm)];
    rewrite Heq in Hcall; [discriminate|].
  injection Hcall as <- <-.
  apply fits_block_true in Hb as [Hfree Hle].
  destruct (zeroed_len_bounds b n Hle) as [[Hk1 Hk2] Hk3].
  destruct (split_block_shape b n) as (tl & Hsp & _).
  exists (l1 ++ split_block b n ++ l2), (zeroed_len b n).
  unfold payload in *.
  replace (addr b + sizeof_node_t - sizeof_node_t) with (addr b) by lia.
  split; [exact HI'|]. split.
  { rewrite Hsp. cbn [app]. apply elem_of_middle. }
  split; [exact Hk1|]. split; [exact Hk3|].
  destruct (tiles_split _ _ _ _ _ (inv_tiles _ _ HI))
    as (Hlo & Hhi & _ & _ & _ & _ & _).
  split; [lia|]. split; [lia|]. split.
  - intros c Hc Hbusy.
    assert (Hc' : c ∈ l1 ++ l2).
    { apply elem_of_app in Hc as [Hc|Hc]; [apply elem_of_app; auto|].
      apply elem_of_cons in Hc as [->|Hc]; [congruence|].
      apply elem_of_app; auto. }
    destruct (tiles_apart _ _ _ _ _ c (inv_tiles _ _ HI) Hc') as [H|H];
      unfold block_end in *; [left; lia|right; lia].
  - intros i Hi. rewrite Hm, lookup_fill.
    destruct (decide _) as [_|Hno]; [reflexivity|lia].
Qed.

Lemma allocate_returns_fresh_block_witness :
  Inv (example_state None) example_blocks
  ∧ allocate (example_state None) = Some first_fit
  ∧ 0 < 40 ∧ 40 < 2 ^ 64 ∧ (length example_blocks < 6)%nat
  ∧ call_allocate 6 40 (example_state None) = Ok (Some 4128, example_served)
  ∧ ∃ l' k,
      Inv example_served l' ∧ Block (4128 - sizeof_node_t) 0 k ∈ l'
      ∧ 40 ≤ k ∧ k < 40 + sizeof_node_t + MINIMUM_FREE_BLOCK
      ∧ ∀ i, 0 ≤ i < k → mem example_served !! (4128 + i) = Some 0.
Proof.
  split; [exact example_Inv_None|]. split; [reflexivity|].
  split; [reflexivity|]. split; [reflexivity|]. split; [vm_compute; lia|].
  split; [reflexivity|].
  destruct (allocate_returns_fresh_block (example_state None) example_blocks
              first_fit 40 6 4128 example_served example_Inv_None eq_refl
              eq_refl eq_refl ltac:(vm_compute; lia) eq_refl)
    as (l' & k & H1 & H2 & H3 & H4 & _ & _ & _ & H8).
  exists l', k. auto.
Defined.

(** X8 (allocation leaves the blocks in use alone).  After [allocate(n)]
    every block that was in use is on the list with the same address and
    size, and its payload bytes are as they were; the only busy block that
    is new is the one returned; a call that returns [NULL] changes nothing;
    the head, the size of the region, the installed algorithm and the
    diagnostics never change. *)
Theorem allocate_keeps_live_blocks s l f n fuel p s' :
  Inv s l → allocate s = Some f → 0 < n → n < 2 ^ 64 →
  (length l < fuel)%nat →
  call_allocate fuel n s = Ok (p, s') →
  ∃ l', Inv s' l'
    ∧ (∀ c, c ∈ l → is_free c = false →
            c ∈ l'
            ∧ ∀ i, 0 ≤ i < bsize c →
                   mem s' !! (payload c + i) = mem s !! (payload c + i))
    ∧ (∀ c, c ∈ l' → is_free c = false → c ∈ l ∨ p = Some (payload c))
    ∧ (p = None → s' = s)
    ∧ linked_list s' = linked_list s ∧ heap_size s' = heap_size s
    ∧ allocate s' = allocate s ∧ stderr s' = stderr s.
Proof.
  intros HI Hf Hn Hmax Hfuel Hcall.
  destruct (call_allocate_spec s l f n fuel HI Hf Hn Hmax Hfuel)
    as [[_ Heq]|(l1 & b & l2 & s1 & -> & Hb & Heq & HI' & G1 & G2 & G3 & G4
                 & Hm)];
    rewrite Heq in Hcall; injection Hcall as <- <-.
  { exists l. split; [exact HI|]. split; [auto|]. split; [auto|]. auto. }
  apply fits_block_true in Hb as [Hfree Hle].
  destruct (zeroed_len_bounds b n Hle) as [[Hk1 Hk2] Hk3].
  exists (l1 ++ split_block b n ++ l2).
  split; [exact HI'|]. split; [|split; [|split; [discriminate|auto]]].
  - intros c Hc Hbusy.
    assert (Hc' : c ∈ l1 ++ l2).
    { apply elem_of_app in Hc as [Hc|Hc]; [apply elem_of_app; auto|].
      apply elem_of_cons in Hc as [->|Hc]; [congruence|].
      apply elem_of_app; auto. }
    split.
    + apply elem_of_app in Hc' as [Hc'|Hc']; apply elem_of_app; auto.
      right. apply elem_of_app. auto.
    + intros i Hi. rewrite Hm. apply lookup_fill_outside.
      destruct (tiles_bounds _ _ _ (inv_tiles _ _ HI)) as [_ Hall].
      destruct (tiles_apart _ _ _ _ _ c (inv_tiles _ _ HI) Hc') as [H|H];
        unfold block_end, payload in *; consts; lia.
  - intros c Hc Hbusy.
    apply elem_of_app in Hc as [Hc|Hc]; [left; apply elem_of_app; auto|].
    apply elem_of_app in Hc as [Hc|Hc];
      [|left; apply elem_of_app; right; right; exact Hc].
    right. destruct (split_block_shape b n) as (tl & Hsp & Htl).
    rewrite Hsp in Hc. apply elem_of_cons in Hc as [->|Hc]; [reflexivity|].
    rewrite Forall_forall in Htl. specialize (Htl c Hc). congruence.
Qed.

Lemma allocate_keeps_live_blocks_witness :
  Inv (example_state None) example_blocks
  ∧ allocate (example_state None) = Some first_fit
  ∧ 0 < 40 ∧ 40 < 2 ^ 64 ∧ (length example_blocks < 6)%nat
  ∧ call_allocate 6 40 (example_state None) = Ok (Some 4128, example_served)
  ∧ ∃ l', Inv example_served l'
      ∧ (∀ c, c ∈ example_blocks → is_free c = false → c ∈ l')
      ∧ stderr example_served = stderr (example_state None).
Proof.
  split; [exact example_Inv_None|]. split; [reflexivity|].
  split; [reflexivity|]. split; [reflexivity|]. split; [vm_compute; lia|].
  split; [reflexivity|].
  destruct (allocate_keeps_live_blocks (example_state None) example_blocks
              first_fit 40 6 (Some 4128) example_served example_Inv_None
              eq_refl eq_refl eq_refl ltac:(vm_compute; lia) eq_refl)
    as (l' & H1 & H2 & _ & _ & _ & _ & _ & H8).
  exists l'. split; [exact H1|]. split; [|exact H8].
  intros c Hc Hb. exact (proj1 (H2 c Hc Hb)).
Defined.

(** X9 (release leaves the other blocks in use alone).  Releasing the
    busy block [b] returns; the busy blocks of the resulting list are those
    before and after [b], unchanged and in the same order; the bytes of [b],
    header included, lie inside one free block; no payload byte is written,
    and the head, the size of the region, the installed algorithm and the
    diagnostics are as they were. *)
Theorem deallocate_keeps_live_blocks s l1 b l2 :
  Inv s (l1 ++ b :: l2) → is_free b = false →
  ∃ s' l',
    deallocate (Some (payload b)) s = Ok (tt, s') ∧ Inv s' l'
    ∧ busy l' = busy l1 ++ busy l2
    ∧ (∃ r, r ∈ l' ∧ is_free r = true
            ∧ addr r ≤ addr b ∧ block_end b ≤ block_end r)
    ∧ mem s' = mem s
    ∧ linked_list s' = linked_list s ∧ heap_size s' = heap_size s
    ∧ allocate s' = allocate s ∧ stderr s' = stderr s.
Proof.
  intros HI Hbusy.
  destruct (deallocate_busy s l1 b l2 HI Hbusy)
    as (s' & Heq & HI' & _ & G1 & G2 & G3 & G4 & G5).
  exists s', (release l1 b l2). split; [exact Heq|]. split; [exact HI'|].
  split; [apply busy_release|].
  split; [exact (release_covers _ _ _ _ _ (inv_tiles _ _ HI))|]. auto.
Qed.

Lemma deallocate_keeps_live_blocks_witness :
  Inv (example_state None)
      ([Block 4096 1 100] ++ Block 4228 0 64
       :: [Block 4324 1 200; Block 4556 0 64; Block 4652 1 50])
  ∧ is_free (Block 4228 0 64) = false
  ∧ ∃ s' l',
      deallocate (Some 4260) (example_state None) = Ok (tt, s')
      ∧ Inv s' l' ∧ busy l' = [Block 4556 0 64]
      ∧ mem s' = mem (example_state None).
Proof.
  split; [exact example_Inv_None|]. split; [reflexivity|].
  destruct (deallocate_keeps_live_blocks (example_state None)
              [Block 4096 1 100] (Block 4228 0 64)
              [Block 4324 1 200; Block 4556 0 64; Block 4652 1 50]
              example_Inv_None eq_refl)
    as (s' & l' & H1 & H2 & H3 & _ & H5 & _).
  exists s', l'. split; [exact H1|]. split; [exact H2|].
  split; [exact H3|exact H5].
Defined.

(** X10 (allocate, then release).  When [allocate(n)] returns [m] and [m]
    is released at once, the list is the one before the allocation: the
    block that served the request is free again with its old size, whether
    it had been split or not, and every other block is as it was. *)
Theorem allocate_then_deallocate s l f n fuel m s1 :
  Inv s l → allocate s = Some f → 0 < n → n < 2 ^ 64 →
  (length l < fuel)%nat →
  call_allocate fuel n s = Ok (Some m, s1) →
  ∃ l1 b l2 s2,
    l = l1 ++ b :: l2 ∧ m = payload b ∧ is_free b = true
    ∧ deallocate (Some m) s1 = Ok (tt, s2)
    ∧ Inv s2 (l1 ++ Block (addr b) 1 (bsize b) :: l2)
    ∧ linked_list s2 = linked_list s ∧ heap_size s2 = heap_size s
    ∧ allocate s2 = allocate s ∧ stderr s2 = stderr s.
Proof.
  intros HI Hf Hn Hmax Hfuel Hcall.
  destruct (call_allocate_spec s l f n fuel HI Hf Hn Hmax Hfuel)
    as [[_ Heq]|(l1 & b & l2 & s' & -> & Hb & Heq & HI' & G1 & G2 & G3 & G4
                 & Hm)];
    rewrite Heq in Hcall; [discriminate|].
  injection Hcall as <- <-.
  apply fits_block_true in Hb as [Hfree Hle].
  exists l1, b, l2.
  pose proof (inv_coalesced _ _ HI) as Hco.
  apply coalesced_app_cons in Hco as [Hco1 Hco2].
  assert (Hpf : prev_free l1 = false).
  { unfold prev_free. destruct (last l1) as [pb|] eqn:El; [|reflexivity].
    apply last_Some in El as [pre ->]. rewrite <- app_assoc in Hco1.
    apply coalesced_app_cons in Hco1 as [_ [Hx _]]. rewrite Hfree in Hx.
    rewrite andb_true_r in Hx. exact Hx. }
  assert (Hnf : next_free l2 = false).
  { destruct l2 as [|nb l2]; [reflexivity|]. destruct Hco2 as [Hx _].
    rewrite Hfree in Hx. exact Hx. }
  assert (Hrel : ∀ k tl,
            split_block b n = Block (addr b) 0 k :: tl →
            release l1 (Block (addr b) 0 k) (tl ++ l2)
            = l1 ++ Block (addr b) 1 (bsize b) :: l2).
  { intros k tl Hsp. unfold release, coalesce_prev. unfold prev_free in Hpf.
    destruct (last l1) as [pb|]; [rewrite Hpf|]; cbn [fst snd]; f_equal;
      revert Hsp; unfold split_block;
      destruct (sizeof_node_t + MINIMUM_FREE_BLOCK <=? bsize b - n);
      intros [= <- <-]; cbn [app coalesce_next is_free bfree truthy];
      try (destruct l2 as [|nb l2]; [reflexivity|];
           cbn [next_free] in Hnf; cbn [coalesce_next]; rewrite Hnf;
           reflexivity);
      unfold merged, freed; cbn [addr bfree bsize]; do 2 f_equal; consts; lia. }
  destruct (split_block_shape b n) as (tl & Hsp & _).
  rewrite Hsp in HI'. cbn [app] in HI'.
  destruct (deallocate_busy s' l1 _ (tl ++ l2) HI' eq_refl)
    as (s2 & Heq2 & HI2 & _ & H1 & H2 & H3 & H4 & _).
  rewrite (Hrel _ _ Hsp) in HI2. cbn [addr] in Heq2.
  exists s2. split; [reflexivity|]. split; [reflexivity|].
  split; [exact Hfree|]. split; [exact Heq2|]. split; [exact HI2|].
  repeat split; congruence.
Qed.

Lemma allocate_then_deallocate_witness :
  Inv (example_state None) example_blocks
  ∧ allocate (example_state None) = Some first_fit
  ∧ 0 < 40 ∧ 40 < 2 ^ 64 ∧ (length example_blocks < 6)%nat
  ∧ call_allocate 6 40 (example_state None) = Ok (Some 4128, example_served)
  ∧ ∃ l1 b l2 s2,
      example_blocks = l1 ++ b :: l2 ∧ 4128 = payload b
      ∧ deallocate (Some 4128) example_served = Ok (tt, s2)
      ∧ Inv s2 (l1 ++ Block (addr b) 1 (bsize b) :: l2).
Proof.
  split; [exact example_Inv_None|]. split; [reflexivity|].
  split; [reflexivity|]. split; [reflexivity|]. split; [vm_compute; lia|].
  split; [reflexivity|].
  destruct (allocate_then_deallocate (example_state None) example_blocks
              first_fit 40 6 4128 example_served example_Inv_None eq_refl
              eq_refl eq_refl ltac:(vm_compute; lia) eq_refl)
    as (l1 & b & l2 & s2 & H1 & H2 & _ & H4 & H5 & _).
  exists l1, b, l2, s2. auto.
Defined.

(** X11 (released memory can be allocated again).  After the busy block
    [b] is released, a request of at most [bsize b] bytes succeeds under
    each algorithm. *)
Theorem released_memory_is_reusable s l1 b l2 f n fuel :
  Inv s (l1 ++ b :: l2) → is_free b = false → allocate s = Some f →
  0 < n → n ≤ bsize b → (length (l1 ++ b :: l2) < fuel)%nat →
  ∃ s1 m s2,
    deallocate (Some (payload b)) s = Ok (tt, s1)
    ∧ call_allocate fuel n s1 = Ok (Some m, s2).
Proof.
  intros HI Hbusy Hf Hn Hle Hfuel.
  destruct (deallocate_busy s l1 b l2 HI Hbusy)
    as (s1 & Heq & HI1 & _ & _ & G2 & G3 & _).
  destruct (release_covers _ l1 b l2 _ (inv_tiles _ _ HI))
    as (r & Hr & Hfree & Ha & He).
  pose proof (Inv_size_lt _ _ b HI (elem_of_middle _ _ _)) as [_ Hb].
  pose proof (inv_limit _ _ HI) as Hlim. pose proof (inv_base _ _ HI) as Hbase.
  destruct (tiles_bounds _ _ _ (inv_tiles _ _ HI)) as [_ Hall].
  assert (Hfit : fits_block n r = true).
  { apply fits_block_true. split; [exact Hfree|].
    unfold block_end in He. lia. }
  destruct (call_allocate_spec s1 (release l1 b l2) f n fuel HI1
              ltac:(congruence) Hn ltac:(consts; lia)
              ltac:(pose proof (length_release_le l1 b l2); lia))
    as [[Hall' _]|(la & c & lb & s2 & _ & _ & Heq2 & _)].
  { rewrite Forall_forall in Hall'. specialize (Hall' r Hr). congruence. }
  exists s1, (payload c), s2. split; [exact Heq|exact Heq2].
Qed.

Lemma released_memory_is_reusable_witness :
  Inv (example_state None)
      ([Block 4096 1 100] ++ Block 4228 0 64
       :: [Block 4324 1 200; Block 4556 0 64; Block 4652 1 50])
  ∧ is_free (Block 4228 0 64) = false
  ∧ allocate (example_state None) = Some first_fit
  ∧ 0 < 64 ∧ 64 ≤ bsize (Block 4228 0 64) ∧ (length example_blocks < 6)%nat
  ∧ ∃ s1 m s2,
      deallocate (Some 4260) (example_state None) = Ok (tt, s1)
      ∧ call_allocate 6 64 s1 = Ok (Some m, s2).
Proof.
  split; [exact example_Inv_None|]. split; [reflexivity|].
  split; [reflexivity|]. split; [reflexivity|]. split; [discriminate|].
  split; [vm_compute; lia|].
  exact (released_memory_is_reusable (example_state None)
           [Block 4096 1 100] (Block 4228 0 64)
           [Block 4324 1 200; Block 4556 0 64; Block 4652 1 50]
           first_fit 64 6 example_Inv_None eq_refl eq_refl eq_refl
           ltac:(discriminate) ltac:(vm_compute; lia)).
Defined.

(** X12 (release repeated at once).  When the busy block [b] is released
    and the same pointer is released again before any other call, the
    second call writes the diagnostic of a double release and changes
    nothing else, also when the first call merged [b] into the block before
    it. *)
Theorem double_free_is_reported s l1 b l2 :
  Inv s (l1 ++ b :: l2) → is_free b = false →
  ∃ s1, deallocate (Some (payload b)) s = Ok (tt, s1)
    ∧ stderr s1 = stderr s
    ∧ deallocate (Some (payload b)) s1
      = Ok (tt, set_stderr (stderr s ++ [already_free]) s1).
Proof.
  intros HI Hbusy.
  destruct (deallocate_busy s l1 b l2 HI Hbusy)
    as (s1 & Heq & HI1 & _ & G1 & G2 & _ & G4 & _).
  exists s1. split; [exact Heq|]. split; [exact G4|].
  pose proof (deallocate_flag s l1 b l2 s1 HI Hbusy Heq) as Hflag.
  destruct (heap s1 !! addr b) as [nd|] eqn:End; [|discriminate].
  injection Hflag as Hflag.
  pose proof (tiles_split _ _ _ _ _ (inv_tiles _ _ HI))
    as (Hlo & Hhi & Hpos & _).
  pose proof (inv_base _ _ HI). pose proof (inv_limit _ _ HI).
  rewrite <- G4.
  apply (deallocate_free s1 (uintptr (linked_list s)) (payload b) nd).
  - rewrite G1. exact (Inv_base _ _ HI).
  - unfold payload. consts. lia.
  - rewrite G2, wrap_small by (consts; lia). unfold payload. consts. lia.
  - unfold payload. rewrite <- End. f_equal. lia.
  - rewrite Hflag. reflexivity.
Qed.

Lemma double_free_is_reported_witness :
  Inv (example_state None)
      ([Block 4096 1 100] ++ Block 4228 0 64
       :: [Block 4324 1 200; Block 4556 0 64; Block 4652 1 50])
  ∧ is_free (Block 4228 0 64) = false
  ∧ ∃ s1, deallocate (Some 4260) (example_state None) = Ok (tt, s1)
      ∧ deallocate (Some 4260) s1
        = Ok (tt, set_stderr [already_free] s1).
Proof.
  split; [exact example_Inv_None|]. split; [reflexivity|].
  destruct (double_free_is_reported (example_state None)
              [Block 4096 1 100] (Block 4228 0 64)
              [Block 4324 1 200; Block 4556 0 64; Block 4652 1 50]
              example_Inv_None eq_refl)
    as (s1 & H1 & _ & H3).
  exists s1. split; [exact H1|exact H3].
Defined.

(** X13 (the assertions of deallocate).  Before [initialise], [deallocate]
    aborts on every pointer, [NULL] included.  Once there is a list,
    [deallocate(NULL)] changes nothing, and a pointer below the head or at
    or above [linked_list + heap_size] aborts. *)
Theorem deallocate_guards s :
  (linked_list s = None → ∀ memory, deallocate memory s = Err AssertFailed)
  ∧ (linked_list s ≠ None → deallocate None s = Ok (tt, s))
  ∧ (∀ m, nonnull (linked_list s) = true →
          m < uintptr (linked_list s)
          ∨ wrap (uintptr (linked_list s) + heap_size s) ≤ m →
          deallocate (Some m) s = Err AssertFailed).
Proof.
  split; [|split].
  - intros Hll memory. unfold deallocate, bind, get. rewrite Hll. reflexivity.
  - intros Hll. apply deallocate_NULL. unfold nonnull.
    apply bool_decide_eq_true_2. exact Hll.
  - intros m Hll Hout. unfold deallocate.
    rewrite bind_get, bind_assert by exact Hll.
    rewrite nonnull_Some, bind_get. cbn [uintptr default id].
    assert (E : (uintptr (linked_list s) <=? m)
                && (m <? wrap (uintptr (linked_list s) + heap_size s)) = false).
    { apply andb_false_iff. destruct Hout as [H|H];
        [left; apply Z.leb_gt|right; apply Z.ltb_ge]; exact H. }
    unfold bind at 1. rewrite E. reflexivity.
Qed.

Lemma deallocate_guards_witness :
  linked_list uninitialised = None
  ∧ deallocate None uninitialised = Err AssertFailed
  ∧ linked_list (example_state None) ≠ None
  ∧ deallocate None (example_state None) = Ok (tt, example_state None)
  ∧ nonnull (linked_list (example_state None)) = true
  ∧ wrap (uintptr (linked_list (example_state None))
          + heap_size (example_state None)) ≤ 4734
  ∧ deallocate (Some 4734) (example_state None) = Err AssertFailed.
Proof.
  split; [reflexivity|]. split.
  { exact (proj1 (deallocate_guards uninitialised) eq_refl None). }
  split; [discriminate|]. split.
  { apply (deallocate_guards (example_state None)). discriminate. }
  split; [reflexivity|]. split; [discriminate|].
  apply (deallocate_guards (example_state None)); [reflexivity|].
  right. discriminate.
Defined.



(** X15 (no operation aborts).  In every state the engine reaches, with
    as many iterations as there are headers and one more: [allocate]
    returns on every request of [1] to [2^64 - 1] bytes, [deallocate]
    returns on [NULL] and on the payload of every block of the list, busy or
    free, and [validate] passes.  No assertion fails and no header is read
    where there is none. *)
Theorem reachable_operations_return s :
  reachable s →
  ∃ l, block_list s l
       ∧ ∀ fuel, (length l < fuel)%nat →
           (∀ n, 0 < n → n < 2 ^ 64 →
                 ∃ p s', call_allocate fuel n s = Ok (p, s'))
           ∧ (∀ memory, releasable s memory →
                        ∃ s', deallocate memory s = Ok (tt, s'))
           ∧ validate fuel s = Ok (tt, s).
Proof.
  intros Hr. destruct (reachable_Inv s Hr) as [l HI].
  destruct (reachable_allocate s Hr) as [f Hf].
  exists (cells None l). split; [exact (Inv_block_list _ _ HI)|].
  intros fuel Hfuel. rewrite length_cells in Hfuel. split; [|split].
  - intros n Hn Hmax.
    destruct (call_allocate_spec s l f n fuel HI Hf Hn Hmax Hfuel)
      as [[_ Heq]|(l1 & b & l2 & s' & _ & _ & Heq & _)]; eauto.
  - intros memory Hrel. exact (deallocate_returns s l memory HI Hrel).
  - exact (Inv_validate_fuel s l fuel HI Hfuel).
Qed.

Lemma reachable_operations_return_witness :
  reachable demo_2
  ∧ ∃ l, block_list demo_2 l
         ∧ ∀ fuel, (length l < fuel)%nat →
             (∀ n, 0 < n → n < 2 ^ 64 →
                   ∃ p s', call_allocate fuel n demo_2 = Ok (p, s'))
             ∧ (∀ memory, releasable demo_2 memory →
                          ∃ s', deallocate memory demo_2 = Ok (tt, s'))
             ∧ validate fuel demo_2 = Ok (tt, demo_2).
Proof.
  split; [exact demo_reachable|].
  exact (reachable_operations_return demo_2 demo_reachable).
Defined.

(** X16 (nothing in use).  In every state the engine reaches, whatever
    the calls that led to it and whoever made them, when no block of the
    list is in use the list is one free block that spans the region: it
    starts at the head, has no neighbour, and its size is [heap_size] less
    one header.  No fragmentation outlives the release of every block. *)
Theorem reachable_all_released s l :
  reachable s → block_list s l → in_use l = [] →
  ∃ a nd, l = [(a, nd)] ∧ linked_list s = Some a
          ∧ truthy (free nd) = true
          ∧ size nd = heap_size s - sizeof_node_t
          ∧ next nd = None ∧ prev nd = None.
Proof.
  intros Hr Hl Hu. destruct (reachable_Inv s Hr) as [l0 HI].
  pose proof (chain_functional _ _ _ _ Hl (Inv_block_list _ _ HI)) as ->.
  assert (Hb : busy l0 = []).
  { apply length_zero_iff_nil. rewrite <- (length_in_use None), Hu.
    reflexivity. }
  destruct (Inv_all_free s l0 HI Hb) as (b & -> & Hf & Ha & Hs).
  exists (addr b), (Node None None (bfree b) (bsize b)).
  split; [reflexivity|]. split; [congruence|]. split; [exact Hf|].
  split; [exact Hs|]. split; reflexivity.
Qed.

Lemma reachable_all_released_witness :
  reachable demo_2
  ∧ block_list demo_2 [(4096, Node None None 1 2016)]
  ∧ in_use [(4096, Node None None 1 2016)] = []
  ∧ ∃ a nd, [(4096, Node None None 1 2016)] = [(a, nd)]
            ∧ linked_list demo_2 = Some a
            ∧ size nd = heap_size demo_2 - sizeof_node_t.
Proof.
  assert (Hl : block_list demo_2 [(4096, Node None None 1 2016)])
    by (vm_compute; repeat split).
  split; [exact demo_reachable|]. split; [exact Hl|]. split; [reflexivity|].
  destruct (reachable_all_released demo_2 [(4096, Node None None 1 2016)]
              demo_reachable Hl eq_refl)
    as (a & nd & H1 & H2 & _ & H4 & _).
  exists a, nd. split; [exact H1|]. split; [exact H2|exact H4].
Defined.

(** X17 (how long the list gets).  In every state the engine reaches, the
    list has at most [2 k + 1] blocks when [k] of them are in use: between
    two blocks in use there is at most one free block. *)
Theorem reachable_blocks_bounded s :
  reachable s →
  ∃ l, block_list s l ∧ (length l ≤ 2 * length (in_use l) + 1)%nat.
Proof.
  intros Hr. destruct (reachable_Inv s Hr) as [l HI].
  exists (cells None l). split; [exact (Inv_block_list _ _ HI)|].
  rewrite length_cells, length_in_use.
  exact (coalesced_length l (inv_coalesced _ _ HI)).
Qed.

Lemma reachable_blocks_bounded_witness :
  reachable demo_2
  ∧ ∃ l, block_list demo_2 l ∧ (length l ≤ 2 * length (in_use l) + 1)%nat.
Proof.
  split; [exact demo_reachable|].
  exact (reachable_blocks_bounded demo_2 demo_reachable).
Defined.

(** X18 (alignment).  Let [a] divide [sizeof_node_t].  When every header
    address and every size of the list is a multiple of [a], they still are
    after [allocate(n)] for [n] a multiple of [a], and after the release of
    any busy block.  The engine rounds no request: alignment is kept when
    the requests keep it. *)
Theorem alignment_is_preserved a s l :
  Inv s l → aligned a l → (a | sizeof_node_t) →
  (∀ f fuel n p s',
     allocate s = Some f → 0 < n → n < 2 ^ 64 → (a | n) →
     (length l < fuel)%nat →
     call_allocate fuel n s = Ok (p, s') →
     ∃ l', Inv s' l' ∧ aligned a l')
  ∧ (∀ l1 b l2,
       l = l1 ++ b :: l2 → is_free b = false →
       ∃ s' l', deallocate (Some (payload b)) s = Ok (tt, s')
                ∧ Inv s' l' ∧ aligned a l').
Proof.
  intros HI Hal Hh. split.
  - intros f fuel n p s' Hf Hn Hmax Hdiv Hfuel Hcall.
    destruct (call_allocate_spec s l f n fuel HI Hf Hn Hmax Hfuel)
      as [[_ Heq]|(l1 & b & l2 & s1 & -> & _ & Heq & HI' & _)];
      rewrite Heq in Hcall; injection Hcall as <- <-.
    + exists l. split; assumption.
    + exists (l1 ++ split_block b n ++ l2). split; [exact HI'|].
      unfold aligned in *. apply Forall_app in Hal as [H1 H2].
      apply Forall_cons in H2 as [[Hb1 Hb2] H2].
      apply Forall_app. split; [exact H1|]. apply Forall_app.
      split; [|exact H2]. apply aligned_split; assumption.
  - intros l1 b l2 -> Hbusy.
    destruct (deallocate_busy s l1 b l2 HI Hbusy) as (s' & Heq & HI' & _).
    exists s', (release l1 b l2). split; [exact Heq|]. split; [exact HI'|].
    apply aligned_release; assumption.
Qed.

Lemma alignment_is_preserved_witness :
  Inv (example_state None) example_blocks ∧ aligned 2 example_blocks
  ∧ (2 | sizeof_node_t)
  ∧ allocate (example_state None) = Some first_fit
  ∧ 0 < 40 ∧ 40 < 2 ^ 64 ∧ (2 | 40) ∧ (length example_blocks < 6)%nat
  ∧ call_allocate 6 40 (example_state None) = Ok (Some 4128, example_served)
  ∧ ∃ l', Inv example_served l' ∧ aligned 2 l'.
Proof.
  assert (H32 : (2 | sizeof_node_t)) by (exists 16; reflexivity).
  assert (H40 : (2 | 40)) by (exists 20; reflexivity).
  split; [exact example_Inv_None|]. split; [exact example_aligned|].
  split; [exact H32|]. split; [reflexivity|]. split; [reflexivity|].
  split; [reflexivity|]. split; [exact H40|]. split; [vm_compute; lia|].
  split; [reflexivity|].
  exact (proj1 (alignment_is_preserved 2 (example_state None) example_blocks
                  example_Inv_None example_aligned H32)
           first_fit 6%nat 40 (Some 4128) example_served eq_refl eq_refl
           eq_refl H40 ltac:(vm_compute; lia) eq_refl).
Defined.

(** X19 (print_all_nodes).  [print_all_nodes] writes one line for each
    block of the list, in address order, numbered from 0, with the address,
    the size and the free flag of the block, the mark on the line of the
    block the cursor points to, and changes nothing.  As many iterations as
    there are blocks are enough. *)
Theorem print_all_nodes_lists_blocks pointer_text s l fuel :
  Inv s l → (length l < fuel)%nat →
  print_all_nodes pointer_text fuel s
  = Ok (node_lines pointer_text (next_node s) 0 l, s).
Proof.
  intros HI Hfuel. unfold print_all_nodes. rewrite bind_get, (inv_head _ _ HI).
  exact (print_all_nodes_loop_lines pointer_text s None l 0 fuel
           (inv_dll _ _ HI) Hfuel).
Qed.

Lemma print_all_nodes_lists_blocks_witness :
  Inv (example_state None) example_blocks ∧ (length example_blocks < 6)%nat
  ∧ print_all_nodes (λ p, pretty (uintptr p)) 6 (example_state None)
    = Ok (node_lines (λ p, pretty (uintptr p)) None 0 example_blocks,
          example_state None).
Proof.
  split; [exact example_Inv_None|]. split; [vm_compute; lia|].
  exact (print_all_nodes_lists_blocks (λ p, pretty (uintptr p))
           (example_state None) example_blocks 6 example_Inv_None
           ltac:(vm_compute; lia)).
Defined.

(** X20 (release of every block held).  When the pointers of [blocks]
    that are not [NULL] are, each once, the payloads of the blocks in use,
    the loop that releases [blocks[0]] to [blocks[NUMBER_OF_BLOCKS - 1]]
    returns without a diagnostic and leaves one free block that spans the
    region. *)
Theorem deallocate_blocks_releases_all s l blocks fuel :
  Inv s l → owns blocks l →
  Z.of_nat (length blocks) = NUMBER_OF_BLOCKS → (1000 < fuel)%nat →
  ∃ s' b,
    deallocate_blocks fuel blocks s = Ok (blocks, s')
    ∧ Inv s' [b] ∧ is_free b = true
    ∧ Some (addr b) = linked_list s
    ∧ bsize b = heap_size s - sizeof_node_t
    ∧ stderr s' = stderr s.
Proof.
  intros HI Ho Hlen Hfuel.
  destruct (deallocate_blocks_held s blocks s fuel (held_start s l blocks HI Ho)
              Hlen Hfuel) as (s' & Heq & Hh).
  destruct (held_nil_inv s s' Hh) as (b & H).
  exists s', b. split; [exact Heq|exact H].
Qed.

Lemma deallocate_blocks_releases_all_witness :
  Inv (example_state None) example_blocks
  ∧ owns example_held example_blocks
  ∧ Z.of_nat (length example_held) = NUMBER_OF_BLOCKS
  ∧ (1000 < 1001)%nat
  ∧ ∃ s' b,
      deallocate_blocks 1001 example_held (example_state None)
      = Ok (example_held, s')
      ∧ Inv s' [b] ∧ is_free b = true ∧ bsize b = 638 - sizeof_node_t.
Proof.
  assert (Ho : owns example_held example_blocks)
    by (unfold owns; vm_compute; reflexivity).
  split; [exact example_Inv_None|]. split; [exact Ho|].
  split; [reflexivity|]. split; [lia|].
  destruct (deallocate_blocks_releases_all (example_state None)
              example_blocks example_held 1001 example_Inv_None Ho eq_refl
              ltac:(lia))
    as (s' & b & H1 & H2 & H3 & _ & H5 & _).
  exists s', b. auto.
Defined.

(** X21 (merg_test, run alone).  On a region that is one free block, under
    each algorithm, [merg_test] run by one thread returns: the three calls
    of [validate] pass, no diagnostic is written, and the region is one free
    block again, at the same address and of the same size. *)
Theorem merg_test_passes s b f fuel :
  Inv s [b] → is_free b = true → allocate s = Some f → (2001 < fuel)%nat →
  ∃ s' b',
    merg_test fuel s = Ok (tt, s')
    ∧ Inv s' [b'] ∧ is_free b' = true
    ∧ addr b' = addr b ∧ bsize b' = bsize b
    ∧ stderr s' = stderr s.
Proof.
  intros HI Hfree Hf Hfuel.
  assert (Hb : busy [b] = []) by (apply busy_cons_free; exact Hfree).
  assert (Hh : held s [] s).
  { exists [b]. rewrite Hb. auto 10. }
  destruct (merg_test_held s f s fuel Hh Hf Hfuel) as (s' & Heq & Hh').
  destruct (held_nil_inv s s' Hh') as (b' & HI' & Hf' & Ha & Hs & He).
  destruct (Inv_all_free s [b] HI Hb) as (b0 & [= <-] & _ & Ha0 & Hs0).
  exists s', b'. split; [exact Heq|]. split; [exact HI'|].
  split; [exact Hf'|]. split; [congruence|]. split; [congruence|exact He].
Qed.

Lemma merg_test_passes_witness :
  Inv demo_0 [Block 4096 1 2016] ∧ is_free (Block 4096 1 2016) = true
  ∧ allocate demo_0 = Some next_fit ∧ (2001 < 2002)%nat
  ∧ ∃ s' b',
      merg_test 2002 demo_0 = Ok (tt, s')
      ∧ Inv s' [b'] ∧ is_free b' = true ∧ addr b' = 4096 ∧ bsize b' = 2016.
Proof.
  split; [exact demo_0_Inv|]. split; [reflexivity|]. split; [reflexivity|].
  split; [lia|].
  destruct (merg_test_passes demo_0 (Block 4096 1 2016) next_fit 2002
              demo_0_Inv eq_refl eq_refl ltac:(lia))
    as (s' & b' & H1 & H2 & H3 & H4 & H5 & _).
  exists s', b'. auto.
Defined.

(** X22 (soak_test, run alone).  On a region that is one free block, under
    each algorithm and for every sequence of values of [rand()], [soak_test]
    run by one thread returns: both calls of [validate] pass, no diagnostic
    is written, and the region is one free block again. *)
Theorem soak_test_passes rand s b f fuel :
  Inv s [b] → is_free b = true → allocate s = Some f →
  (∀ k, 0 ≤ rand k) → (2500 < fuel)%nat →
  ∃ s' b',
    soak_test rand fuel s = Ok (tt, s')
    ∧ Inv s' [b'] ∧ is_free b' = true
    ∧ addr b' = addr b ∧ bsize b' = bsize b
    ∧ stderr s' = stderr s.
Proof.
  intros HI Hfree Hf Hrand Hfuel.
  assert (Hb : busy [b] = []) by (apply busy_cons_free; exact Hfree).
  assert (Hh : held s [] s).
  { exists [b]. rewrite Hb. auto 10. }
  destruct (soak_test_held s f rand s fuel Hh Hf Hrand Hfuel)
    as (s' & Heq & Hh').
  destruct (held_nil_inv s s' Hh') as (b' & HI' & Hf' & Ha & Hs & He).
  destruct (Inv_all_free s [b] HI Hb) as (b0 & [= <-] & _ & Ha0 & Hs0).
  exists s', b'. split; [exact Heq|]. split; [exact HI'|].
  split; [exact Hf'|]. split; [congruence|]. split; [congruence|exact He].
Qed.

Lemma soak_test_passes_witness :
  Inv demo_0 [Block 4096 1 2016] ∧ is_free (Block 4096 1 2016) = true
  ∧ allocate demo_0 = Some next_fit
  ∧ (∀ k : nat, 0 ≤ Z.of_nat k * 7919) ∧ (2500 < 2501)%nat
  ∧ ∃ s' b',
      soak_test (λ k, Z.of_nat k * 7919) 2501 demo_0 = Ok (tt, s')
      ∧ Inv s' [b'] ∧ is_free b' = true ∧ addr b' = 4096 ∧ bsize b' = 2016.
Proof.
  assert (Hr : ∀ k : nat, 0 ≤ Z.of_nat k * 7919) by (intros k; lia).
  split; [exact demo_0_Inv|]. split; [reflexivity|]. split; [reflexivity|].
  split; [exact Hr|]. split; [lia|].
  destruct (soak_test_passes (λ k, Z.of_nat k * 7919) demo_0
              (Block 4096 1 2016) next_fit 2501
              demo_0_Inv eq_refl eq_refl Hr ltac:(lia))
    as (s' & b' & H1 & H2 & H3 & H4 & H5 & _).
  exists s', b'. auto.
Defined.

(** X23 (run_tests, run alone).  On a region that is one free block, under
    each algorithm and for every sequence of values of [rand()],
    [run_tests] run by one thread returns and leaves the region one free
    block, as [test_first_fit] and the like expect of it. *)
Theorem run_tests_passes rand s b f fuel :
  Inv s [b] → is_free b = true → allocate s = Some f →
  (∀ k, 0 ≤ rand k) → (2500 < fuel)%nat →
  ∃ s' b',
    run_tests rand fuel s = Ok (tt, s')
    ∧ Inv s' [b'] ∧ is_free b' = true
    ∧ addr b' = addr b ∧ bsize b' = bsize b
    ∧ stderr s' = stderr s.
Proof.
  intros HI Hfree Hf Hrand Hfuel.
  assert (Hb : busy [b] = []) by (apply busy_cons_free; exact Hfree).
  assert (Hh : held s [] s).
  { exists [b]. rewrite Hb. auto 10. }
  destruct (soak_test_held s f rand s fuel Hh Hf Hrand Hfuel)
    as (s1 & Heq1 & Hh1).
  destruct (merg_test_held s f s1 fuel Hh1 Hf ltac:(lia)) as (s' & Heq & Hh').
  destruct (held_nil_inv s s' Hh') as (b' & HI' & Hf' & Ha & Hs & He).
  destruct (Inv_all_free s [b] HI Hb) as (b0 & [= <-] & _ & Ha0 & Hs0).
  exists s', b'. split.
  { unfold run_tests. rewrite (bind_ok _ _ _ _ _ Heq1). exact Heq. }
  split; [exact HI'|].
  split; [exact Hf'|]. split; [congruence|]. split; [congruence|exact He].
Qed.

Lemma run_tests_passes_witness :
  Inv demo_0 [Block 4096 1 2016] ∧ is_free (Block 4096 1 2016) = true
  ∧ allocate demo_0 = Some next_fit
  ∧ (∀ k : nat, 0 ≤ Z.of_nat k * 7919) ∧ (2500 < 2501)%nat
  ∧ ∃ s' b',
      run_tests (λ k, Z.of_nat k * 7919) 2501 demo_0 = Ok (tt, s')
      ∧ Inv s' [b'] ∧ is_free b' = true ∧ addr b' = 4096 ∧ bsize b' = 2016.
Proof.
  assert (Hr : ∀ k : nat, 0 ≤ Z.of_nat k * 7919) by (intros k; lia).
  split; [exact demo_0_Inv|]. split; [reflexivity|]. split; [reflexivity|].
  split; [exact Hr|]. split; [lia|].
  destruct (run_tests_passes (λ k, Z.of_nat k * 7919) demo_0
              (Block 4096 1 2016) next_fit 2501
              demo_0_Inv eq_refl eq_refl Hr ltac:(lia))
    as (s' & b' & H1 & H2 & H3 & H4 & H5 & _).
  exists s', b'. auto.
Defined.
